(** * Route resolution and request pipeline of pancakes (lib/web.route.handler.js)

    A shallow embedding of the route handler: URL-pattern compilation,
    placeholder-token extraction, the per-app route cache, the per-(app,url)
    route-info cache and the request pipeline, together with the adapter
    merge of the service factory.

    Conventions of the embedding.
    - A JavaScript string is a [string]; one [ascii] stands for one code unit
      in the range 0..255.
    - String indices are [Z], so that [indexOf] answers [-1] as it does in
      JavaScript and [substring] clamps its arguments as it does there.
    - A JavaScript object used as a dictionary is a [gmap string _] of its
      own properties. Where the code reads or writes such an object under a
      name that comes from a pattern or from a configuration (the token
      names of [getTokenValuesFromUrl], the keys of [setDefaults]), what the
      object inherits from [Object.prototype] is taken into account
      ([set_property], [get_property]). The names of apps are taken not to
      be names of members of [Object.prototype].
    - A thrown exception is a value of [exn]; a function that may throw
      returns a [completion]. *)

From Stdlib Require Import ZArith Ascii String List Bool Lia.
From stdpp Require Import base option gmap strings.

Local Open Scope Z_scope.

(** ** JavaScript strings *)

Module JsString.

Definition length (s : string) : Z := Z.of_nat (String.length s).

Fixpoint drop (n : nat) (s : string) : string :=
  match n, s with
  | O, _ => s
  | S _, EmptyString => EmptyString
  | S n', String _ s' => drop n' s'
  end.

Fixpoint take (n : nat) (s : string) : string :=
  match n, s with
  | O, _ => EmptyString
  | S _, EmptyString => EmptyString
  | S n', String c s' => String c (take n' s')
  end.

(** An index argument of [substring]: negative is 0, beyond the end is the
    length. *)
Definition clamp (s : string) (i : Z) : nat :=
  Z.to_nat (Z.min (Z.max i 0) (length s)).

(** [s.substring(indexStart, indexEnd)]: both ends clamped, and swapped
    when the start is after the end. *)
Definition substring (s : string) (indexStart indexEnd : Z) : string :=
  let a := clamp s indexStart in
  let b := clamp s indexEnd in
  take (Nat.max a b - Nat.min a b) (drop (Nat.min a b) s).

(** [s.substring(indexStart)] *)
Definition substring_from (s : string) (indexStart : Z) : string :=
  substring s indexStart (length s).

(** [s.indexOf(searchString)], counting from position [i]. *)
Fixpoint indexOf_at (i : Z) (s searchString : string) : Z :=
  if String.prefix searchString s then i
  else match s with
       | EmptyString => -1
       | String _ s' => indexOf_at (i + 1) s' searchString
       end.

Definition indexOf (s searchString : string) : Z :=
  indexOf_at 0 s searchString.

(** A string in a condition: the empty string is falsy. *)
Definition truthy (s : string) : bool :=
  match s with EmptyString => false | String _ _ => true end.

(** [toLowerCase] on one code unit of 0..255: A-Z, and the upper-case
    letters of Latin-1 (U+00C0..U+00DE but the multiplication sign). *)
Definition lower_code (n : N) : N :=
  if ((65 <=? n) && (n <=? 90))%N then (n + 32)%N
  else if ((192 <=? n) && (n <=? 222) && negb (n =? 215))%N then (n + 32)%N
  else n.

Definition lower_char (c : ascii) : ascii :=
  ascii_of_N (lower_code (N_of_ascii c)).

Fixpoint toLowerCase (s : string) : string :=
  match s with
  | EmptyString => EmptyString
  | String c s' => String (lower_char c) (toLowerCase s')
  end.

End JsString.

(** ** Plain objects *)

(** The names of the members of [Object.prototype], which every object
    made by an object literal inherits. *)
Definition object_prototype_keys : list string :=
  ["constructor"; "hasOwnProperty"; "isPrototypeOf"; "propertyIsEnumerable";
   "toLocaleString"; "toString"; "valueOf"; "__proto__";
   "__defineGetter__"; "__defineSetter__"; "__lookupGetter__";
   "__lookupSetter__"].

Definition inherited (key : string) : bool :=
  existsb (String.eqb key) object_prototype_keys.

(** [o[key] = v] on a plain object, for a string [v]. The inherited
    [__proto__] is an accessor, and its setter ignores a value that is
    neither an object nor [null]: unless [o] has an own property of that
    name, the assignment leaves [o] as it is. Under any other name the
    assignment makes or updates an own property. *)
Definition set_property (key : string) (v : string) (o : gmap string string)
  : gmap string string :=
  match o !! key with
  | None => if String.eqb key "__proto__" then o else <[key := v]> o
  | Some _ => <[key := v]> o
  end.

(** ** getTokenValuesFromUrl *)

(** What one pass through the body of the [while (true)] loop does: leave the
    loop with the tokens found, or go round again with a new state. *)
Inductive iteration : Type :=
| Break (tokenValues : gmap string string)
| Continue (tokenValues : gmap string string) (pattern url : string).

(** The body of the loop of [getTokenValuesFromUrl], statement by statement. *)
Definition loop_body (tokenValues : gmap string string) (pattern url : string)
  : iteration :=
  let idx := JsString.indexOf pattern "{" in
  if idx <? 0 then Break tokenValues else
  let url := JsString.substring_from url idx in
  let pattern := JsString.substring_from pattern (idx + 1) in
  let idx := JsString.indexOf pattern "}" in
  if idx <? 0 then Break tokenValues else
  let tokenName := JsString.substring pattern 0 idx in
  let pattern :=
    if idx =? JsString.length pattern - 1 then EmptyString
    else JsString.substring_from pattern (idx + 1) in
  let idx := JsString.indexOf url "/" in
  let idx := if idx <? 0 then JsString.length url else idx in
  let idx :=
    if JsString.truthy pattern && (JsString.indexOf url pattern >=? 0)
    then Z.min idx (JsString.indexOf url pattern)
    else idx in
  let tokenValue := JsString.substring url 0 idx in
  let url := JsString.substring_from url idx in
  Continue (set_property tokenName tokenValue tokenValues) pattern url.

(** The loop, run for at most [fuel] passes. [None]: the fuel ran out. *)
Fixpoint token_loop (fuel : nat) (tokenValues : gmap string string)
    (pattern url : string) : option (gmap string string) :=
  match fuel with
  | O => None
  | S fuel' =>
      match loop_body tokenValues pattern url with
      | Break tv => Some tv
      | Continue tv pattern' url' => token_loop fuel' tv pattern' url'
      end
  end.

(** The loop entered in any state; one pass more than the pattern has
    characters is always enough (see [token_loop_enough]). *)
Definition token_loop_from (tokenValues : gmap string string)
    (pattern url : string) : gmap string string :=
  default tokenValues
    (token_loop (S (String.length pattern)) tokenValues pattern url).

Definition getTokenValuesFromUrl (pattern url : string) : gmap string string :=
  token_loop_from ∅ pattern url.


(** ** JavaScript values, exceptions, promises *)

(** The values that configuration objects, queries and models hold. Numbers
    (IEEE doubles) and arrays are left out. A function is identified by its
    source text, which is also what [String(f)] answers. *)
#[warnings="-register-all"]
Inductive value : Type :=
| VUndefined
| VNull
| VBool (b : bool)
| VStr (s : string)
| VObject (fields : list (string * value))
| VFunction (source : string).

(** ToBoolean: what [!x], [x || y] and [if (x)] test. *)
Definition to_boolean (v : value) : bool :=
  match v with
  | VUndefined | VNull => false
  | VBool b => b
  | VStr s => JsString.truthy s
  | VObject _ | VFunction _ => true
  end.

(** [a || b] *)
Definition js_or (a b : value) : value := if to_boolean a then a else b.

(** ToString, as string concatenation applies it to an operand. *)
Definition to_string (v : value) : string :=
  match v with
  | VUndefined => "undefined"
  | VNull => "null"
  | VBool true => "true"
  | VBool false => "false"
  | VStr s => s
  | VObject _ => "[object Object]"
  | VFunction source => source
  end.

(** [_.isFunction] *)
Definition isFunction (v : value) : bool :=
  match v with VFunction _ => true | _ => false end.

(** Reading a property that may be absent: [undefined] when it is. *)
Definition prop (o : option value) : value := default VUndefined o.

Inductive exn : Type :=
| Error (message : string)
| TypeError (message : string)
| SyntaxError (message : string).

(** How a call ends: with a value, or with an exception thrown. *)
Inductive completion (A : Type) : Type :=
| Return (a : A)
| Throw (e : exn).
Arguments Return {A} a.
Arguments Throw {A} e.

(** A settled promise. *)
Inductive promise (A : Type) : Type :=
| Fulfilled (a : A)
| Rejected (e : exn).
Arguments Fulfilled {A} a.
Arguments Rejected {A} e.

(** ** convertUrlPatternToRegex *)

(** A RegExp object without flags is the pattern text it was made from. *)
Record RegExp : Type := mkRegExp { source : string }.

(** Which pattern texts are regular expressions, and what [regex.test(s)]
    answers, is the business of the JavaScript engine: the route handler is
    written against this interface. [RegExp_syntax_error pattern] is the
    message of the SyntaxError that [new RegExp(pattern)] throws, [None]
    when the engine takes the pattern. *)
Class RegExpEngine : Type := {
  RegExp_syntax_error : string → option string;
  RegExp_test : RegExp → string → bool
}.

(** [new RegExp(pattern)] *)
Definition RegExp_new {engine : RegExpEngine} (pattern : string)
  : completion RegExp :=
  match RegExp_syntax_error pattern with
  | Some message => Throw (SyntaxError message)
  | None => Return (mkRegExp pattern)
  end.

(** A member of the class [[a-zA-Z0-9\-_~]]. Under the [i] flag the class
    matches the same code units: it already holds both cases of each
    letter, and no code unit above 127 folds onto an ASCII one. *)
Definition is_token_char (c : ascii) : bool :=
  (("a" <=? c) && (c <=? "z"))%char
  || (("A" <=? c) && (c <=? "Z"))%char
  || (("0" <=? c) && (c <=? "9"))%char
  || (c =? "-")%char || (c =? "_")%char || (c =? "~")%char.

(** The rest of [s] after its longest prefix of class members. *)
Fixpoint skip_token_chars (s : string) : string :=
  match s with
  | EmptyString => EmptyString
  | String c s' => if is_token_char c then skip_token_chars s' else s
  end.

(** A match of [{[a-zA-Z0-9\-_~]*}] at the head of [s]: the text after the
    match. The star is greedy and the class holds neither brace, so the
    match, when there is one, takes the longest run of class members. *)
Definition match_placeholder (s : string) : option string :=
  match s with
  | String "{" s' =>
      match skip_token_chars s' with
      | String "}" rest => Some rest
      | _ => None
      end
  | _ => None
  end.

(** The text every placeholder is replaced by: [[a-zA-Z0-9\-_~]+] *)
Definition token_class : string := "[a-zA-Z0-9\-_~]+".

(** [pattern.replace(new RegExp('{[a-zA-Z0-9\\-_~]*}', 'gi'), token_class)]:
    matches are taken leftmost first and do not overlap; text outside them
    is copied. *)
Fixpoint replace_placeholders_loop (fuel : nat) (s : string) : string :=
  match fuel with
  | O => s
  | S fuel' =>
      match match_placeholder s with
      | Some rest => token_class +:+ replace_placeholders_loop fuel' rest
      | None =>
          match s with
          | EmptyString => EmptyString
          | String c s' => String c (replace_placeholders_loop fuel' s')
          end
      end
  end.

Definition replace_placeholders (s : string) : string :=
  replace_placeholders_loop (String.length s) s.

(** [pattern.replace(/\//g, '\\/')] *)
Fixpoint escape_slashes (s : string) : string :=
  match s with
  | EmptyString => EmptyString
  | String "/" s' => String "\" (String "/" (escape_slashes s'))
  | String c s' => String c (escape_slashes s')
  end.

Definition convertUrlPatternToRegex {engine : RegExpEngine} (pattern : string)
  : completion RegExp :=
  let pattern := replace_placeholders pattern in
  let pattern := escape_slashes pattern in
  let pattern := "^" +:+ pattern +:+ "$" in
  RegExp_new pattern.

(** ** Regular expressions *)

(** The regular expressions of a fragment of the syntax, enough for the
    pattern texts that [convertUrlPatternToRegex] makes of URL patterns
    whose literal text holds no regular-expression syntax: [^ body $], the
    body a sequence of literal characters, escaped punctuation and the
    token class. Of a pattern text the fragment says what it matches, or
    that it is a syntax error, or nothing. *)
Module Fragment.

Inductive atom : Type :=
| Lit (c : ascii)
| TokenPlus.

(** An ASCII character that stands for itself in a pattern. *)
Definition is_plain (c : ascii) : bool :=
  (("a" <=? c) && (c <=? "z"))%char
  || (("A" <=? c) && (c <=? "Z"))%char
  || (("0" <=? c) && (c <=? "9"))%char
  || existsb (Ascii.eqb c)
       ["-"; "_"; "~"; "/"; ":"; ","; ";"; "="; "@"; "!"; "#"; "%"; "&";
        " "; "<"; ">"; "'"]%char.

(** An ASCII character that a backslash makes literal (an identity
    escape): the syntax characters, the slash and the hyphen. *)
Definition is_escapable (c : ascii) : bool :=
  existsb (Ascii.eqb c)
    ["/"; "-"; "\"; "^"; "$"; "."; "*"; "+"; "?"; "("; ")"; "["; "]";
     "{"; "}"; "|"]%char.

(** [s] without the prefix [p], when it has it. *)
Fixpoint strip_prefix (p s : string) : option string :=
  match p, s with
  | EmptyString, _ => Some s
  | String a p', String b s' =>
      if (a =? b)%char then strip_prefix p' s' else None
  | String _ _, EmptyString => None
  end.

(** What the fragment makes of a pattern text: its atoms; a syntax error;
    or a text outside the fragment, of which it says nothing. *)
Inductive parsed : Type :=
| Atoms (atoms : list atom)
| Invalid
| Outside.

Definition add_atom (a : atom) (p : parsed) : parsed :=
  match p with
  | Atoms atoms => Atoms (a :: atoms)
  | Invalid => Invalid
  | Outside => Outside
  end.

(** A quantifier [*] or [+] at the head of [s]. *)
Definition repeats (s : string) : bool :=
  match s with
  | String c _ => (c =? "*")%char || (c =? "+")%char
  | EmptyString => false
  end.

(** The atoms of a body. The token class ends in the quantifier [+]; a
    [*] or [+] straight after it has nothing to repeat, which is a syntax
    error. *)
Fixpoint parse_body (fuel : nat) (s : string) : parsed :=
  match fuel with
  | O => Outside
  | S fuel' =>
      match s with
      | EmptyString => Atoms []
      | String "\" (String c s') =>
          if is_escapable c then add_atom (Lit c) (parse_body fuel' s')
          else Outside
      | String c s' =>
          match strip_prefix token_class s with
          | Some rest =>
              if repeats rest then Invalid
              else add_atom TokenPlus (parse_body fuel' rest)
          | None =>
              if is_plain c then add_atom (Lit c) (parse_body fuel' s')
              else Outside
          end
      end
  end.

(** The body of [^ body $]. *)
Definition anchored_body (src : string) : option string :=
  match src with
  | String "^" s =>
      match String.length s with
      | O => None
      | S n =>
          if (JsString.drop n s =? "$")%string
          then Some (JsString.take n s) else None
      end
  | _ => None
  end.

Definition parse (src : string) : parsed :=
  match anchored_body src with
  | Some body => parse_body (S (String.length body)) body
  | None => Outside
  end.

(** A match of the atoms against the whole of [s]. The class repeats
    greedily and gives characters back one at a time. *)
Fixpoint matches (atoms : list atom) : string → bool :=
  match atoms with
  | [] => fun s => negb (JsString.truthy s)
  | Lit c :: atoms' =>
      fun s =>
        match s with
        | String d s' => (c =? d)%char && matches atoms' s'
        | EmptyString => false
        end
  | TokenPlus :: atoms' =>
      let many :=
        fix many (s : string) : bool :=
          match s with
          | String d s' =>
              if is_token_char d then many s' || matches atoms' s
              else matches atoms' s
          | EmptyString => matches atoms' s
          end in
      fun s =>
        match s with
        | String d s' => is_token_char d && many s'
        | EmptyString => false
        end
  end.

(** What [regex.test(s)] answers for a regex of the fragment; [None] for
    any other. *)
Definition test (r : RegExp) (s : string) : option bool :=
  match parse (source r) with
  | Atoms atoms => Some (matches atoms s)
  | Invalid | Outside => None
  end.

(** An engine agrees with the fragment when it takes the pattern texts
    that the fragment has atoms for, and answers for them as the atoms
    match, and throws on those that the fragment finds a syntax error
    in. *)
Definition agrees (engine : RegExpEngine) : Prop :=
  ∀ pattern,
    match parse pattern with
    | Atoms atoms =>
        RegExp_syntax_error pattern = None
        ∧ ∀ s, RegExp_test (mkRegExp pattern) s = matches atoms s
    | Invalid => RegExp_syntax_error pattern ≠ None
    | Outside => True
    end.

(** The message of the engine of Node.js for a quantifier that has
    nothing to repeat. *)
Definition nothing_to_repeat (pattern : string) : string :=
  "Invalid regular expression: /" +:+ pattern +:+ "/: Nothing to repeat".

(** An engine that agrees with the fragment, to run examples on. It
    knows nothing of the pattern texts outside the fragment: it takes
    them as they are and matches nothing with them, so that an example
    says something of the JavaScript engine only when its pattern texts are
    inside the fragment. *)
Definition engine : RegExpEngine :=
  {| RegExp_syntax_error pattern :=
       match parse pattern with
       | Invalid => Some (nothing_to_repeat pattern)
       | Atoms _ | Outside => None
       end;
     RegExp_test r s := default false (test r s) |}.

End Fragment.

(** ** Application configuration and compiled routes *)

(** An entry of [appConfig.routes]. [None]: the object has no such key. *)
Module RouteDecl.
Record t : Type := mk {
  name : option value;
  urls : list string;
  layout : option value;
  wrapper : option value;
  strip : option value;
  contentType : option value;
  data : option value;
  serverOnly : option value
}.
End RouteDecl.

(** An entry of [appConfigs]; a key that is not set reads [VUndefined]. *)
Module AppConfig.
Record t : Type := mk {
  routes : list RouteDecl.t;
  defaultLayout : value;
  defaultWrapper : value;
  defaultStrip : value;
  data : value;
  serverOnly : value
}.
End AppConfig.

(** What [getRoutes] pushes for one URL template of one route. *)
Module Route.
Record t : Type := mk {
  urlPattern : string;
  urlRegex : RegExp;
  layout : value;
  wrapper : value;
  strip : value;
  contentType : value;
  data : value;
  serverOnly : value;
  name : value;
  urls : list string
}.
End Route.

(** [_.extend(target, source)] on one key: the source's own key wins, also
    when its value is falsy. *)
Definition extend (target : value) (source : option value) : value :=
  default target source.

(** The object literal of [getRoutes], with the regex that
    [convertUrlPatternToRegex] has returned in it, extended with the
    route. *)
Definition route_object (appName : string) (appConfig : AppConfig.t)
    (route : RouteDecl.t) (urlPattern : string) (urlRegex : RegExp) : Route.t :=
  {| Route.urlPattern := urlPattern;
     Route.urlRegex := urlRegex;
     Route.layout :=
       extend
         (js_or (js_or (prop (RouteDecl.layout route))
                       (AppConfig.defaultLayout appConfig))
                (VStr appName))
         (RouteDecl.layout route);
     Route.wrapper :=
       extend
         (js_or (js_or (prop (RouteDecl.wrapper route))
                       (AppConfig.defaultWrapper appConfig))
                (VStr "server.page"))
         (RouteDecl.wrapper route);
     Route.strip :=
       extend
         (js_or (js_or (prop (RouteDecl.strip route))
                       (AppConfig.defaultStrip appConfig))
                (VBool true))
         (RouteDecl.strip route);
     Route.contentType :=
       extend (prop (RouteDecl.contentType route)) (RouteDecl.contentType route);
     Route.data :=
       extend
         (js_or (prop (RouteDecl.data route)) (AppConfig.data appConfig))
         (RouteDecl.data route);
     Route.serverOnly :=
       extend (AppConfig.serverOnly appConfig) (RouteDecl.serverOnly route);
     Route.name := prop (RouteDecl.name route);
     Route.urls := RouteDecl.urls route |}.

(** What the callback of the inner [_.each] pushes; it throws when
    [convertUrlPatternToRegex] does. *)
Definition compile_route {engine : RegExpEngine} (appName : string)
    (appConfig : AppConfig.t) (route : RouteDecl.t) (urlPattern : string)
  : completion Route.t :=
  match convertUrlPatternToRegex urlPattern with
  | Throw e => Throw e
  | Return urlRegex =>
      Return (route_object appName appConfig route urlPattern urlRegex)
  end.

(** [_.each(list, callback)] with a callback that pushes what it makes, or
    throws: the elements are visited in order, and the first exception ends
    the walk. *)
Fixpoint each {A B : Type} (callback : A → completion (list B)) (l : list A)
  : completion (list B) :=
  match l with
  | [] => Return []
  | a :: l' =>
      match callback a with
      | Throw e => Throw e
      | Return pushed =>
          match each callback l' with
          | Throw e => Throw e
          | Return pushed' => Return (pushed ++ pushed')
          end
      end
  end.

(** The resolved descriptor of a request: the object literal of
    [getRouteInfo] extended with the matching route. *)
Module RouteInfo.
Record t : Type := mk {
  appName : string;
  lang : value;
  url : string;
  query : gmap string value;
  tokens : gmap string string;
  urlPattern : string;
  urlRegex : RegExp;
  layout : value;
  wrapper : value;
  strip : value;
  contentType : value;
  data : value;
  serverOnly : value;
  name : value;
  urls : list string
}.

(** [routeInfo.query = q] *)
Definition set_query (q : gmap string value) (r : t) : t :=
  mk (appName r) (lang r) (url r) q (tokens r) (urlPattern r) (urlRegex r)
     (layout r) (wrapper r) (strip r) (contentType r) (data r)
     (serverOnly r) (name r) (urls r).
End RouteInfo.

(** ** The module's state *)

(** [appConfigs] as [init] loaded it, and the two caches. *)
Record state : Type := mkState {
  appConfigs : gmap string AppConfig.t;
  appRouteCache : gmap string (list Route.t);
  routeInfoCache : gmap string RouteInfo.t
}.

Definition set_appRouteCache (c : gmap string (list Route.t)) (st : state)
  : state :=
  mkState (appConfigs st) c (routeInfoCache st).

Definition set_routeInfoCache (c : gmap string RouteInfo.t) (st : state)
  : state :=
  mkState (appConfigs st) (appRouteCache st) c.

(** ** getRoutes *)

Definition getRoutes {engine : RegExpEngine} (appName : string) (st : state)
  : completion (list Route.t) * state :=
  match appRouteCache st !! appName with
  | Some routes => (Return routes, st)
  | None =>
      match appConfigs st !! appName with
      | None =>
          (* appConfig is undefined: reading appConfig.routes throws *)
          (Throw (TypeError "Cannot read property 'routes' of undefined"), st)
      | Some appConfig =>
          match
            each
              (fun route =>
                 each
                   (fun urlPattern =>
                      match compile_route appName appConfig route urlPattern with
                      | Throw e => Throw e
                      | Return compiled => Return [compiled]
                      end)
                   (RouteDecl.urls route))
              (AppConfig.routes appConfig)
          with
          | Throw e =>
              (* an exception leaves the loops before the cache is written *)
              (Throw e, st)
          | Return routes =>
              (Return routes,
               set_appRouteCache (<[appName := routes]> (appRouteCache st)) st)
          end
      end
  end.

(** ** getRouteInfo *)

(** The [for] loop over the routes: the first whose regex matches. *)
Fixpoint find_route {engine : RegExpEngine} (routes : list Route.t) (url : string)
  : option Route.t :=
  match routes with
  | [] => None
  | route :: routes' =>
      if RegExp_test (Route.urlRegex route) url then Some route
      else find_route routes' url
  end.

(** A reference to a RouteInfo object. Every RouteInfo that [getRouteInfo]
    makes is stored in [routeInfoCache] under its key as soon as it is made,
    and a stored object is never replaced by another one, so the key stands
    for the object: what a caller holds is read through [deref] in the
    state of the moment. *)
Definition ref : Type := string.

Definition deref (st : state) (r : ref) : option RouteInfo.t :=
  routeInfoCache st !! r.

Definition not_found (appName urlRequest : string) : exn :=
  Error ("404: " +:+ appName +:+ " " +:+ urlRequest +:+ " is not a valid request").

Definition getRouteInfo {engine : RegExpEngine} (appName urlRequest : string)
    (query : gmap string value) (lang : value) (st : state)
  : completion ref * state :=
  let cacheKey := appName +:+ "||" +:+ urlRequest in
  match routeInfoCache st !! cacheKey with
  | Some cachedRouteInfo =>
      (Return cacheKey,
       set_routeInfoCache
         (<[cacheKey := RouteInfo.set_query query cachedRouteInfo]>
            (routeInfoCache st)) st)
  | None =>
      let url := JsString.toLowerCase urlRequest in
      match getRoutes appName st with
      | (Throw e, st) => (Throw e, st)
      | (Return routes, st) =>
          match find_route routes url with
          | Some route =>
              let routeInfo :=
                {| RouteInfo.appName := appName;
                   RouteInfo.lang := lang;
                   RouteInfo.url := urlRequest;
                   RouteInfo.query := query;
                   RouteInfo.tokens :=
                     getTokenValuesFromUrl (Route.urlPattern route) urlRequest;
                   RouteInfo.urlPattern := Route.urlPattern route;
                   RouteInfo.urlRegex := Route.urlRegex route;
                   RouteInfo.layout := Route.layout route;
                   RouteInfo.wrapper := Route.wrapper route;
                   RouteInfo.strip := Route.strip route;
                   RouteInfo.contentType := Route.contentType route;
                   RouteInfo.data := Route.data route;
                   RouteInfo.serverOnly := Route.serverOnly route;
                   RouteInfo.name := Route.name route;
                   RouteInfo.urls := Route.urls route |} in
              (Return cacheKey,
               set_routeInfoCache
                 (<[cacheKey := routeInfo]> (routeInfoCache st)) st)
          | None => (Throw (not_found appName urlRequest), st)
          end
      end
  end.

(** ** getInitialModel *)

(** A page descriptor, as far as the handler reads it. *)
Module Page.
Record t : Type := mk { model : value; defaults : value }.
End Page.

(** The object [initModelDeps]. *)
Record InitModelDeps : Type := mkDeps {
  dep_appName : string;
  dep_tokens : gmap string string;
  dep_routeInfo : RouteInfo.t;
  dep_defaults : value;
  dep_currentScope : value
}.

(** What a call hands to [Q.when]: a plain value or a promise. *)
Inductive returned : Type :=
| Plain (v : value)
| Promised (p : promise value).

Definition Q_when (r : returned) : promise value :=
  match r with
  | Plain v => Fulfilled v
  | Promised p => p
  end.

(** The dependency injector: [loadModule(path)] for a page descriptor, and
    [loadModule(fn, null, { dependencies: deps })] for a model function.
    It throws when the module cannot be loaded. *)
Class Injector : Type := {
  loadModule : string → completion Page.t;
  loadModule_fn : value → value → InitModelDeps → completion returned
}.

Definition invalid_model (routeInfo : RouteInfo.t) (page : Page.t) : exn :=
  Error (to_string (RouteInfo.name routeInfo)
         +:+ " page invalid model() format: "
         +:+ to_string (Page.model page)).

Definition getInitialModel {injector : Injector} (routeInfo : RouteInfo.t)
    (page : Page.t) : completion (promise value) :=
  let initModelDeps :=
    {| dep_appName := RouteInfo.appName routeInfo;
       dep_tokens := RouteInfo.tokens routeInfo;
       dep_routeInfo := routeInfo;
       dep_defaults := Page.defaults page;
       dep_currentScope := VObject [] |} in
  if negb (to_boolean (Page.model page)) then
    Return (Fulfilled (VObject []))
  else if isFunction (Page.model page) then
    match loadModule_fn (Page.model page) VNull initModelDeps with
    | Return r => Return (Q_when r)
    | Throw e => Throw e
    end
  else
    Throw (invalid_model routeInfo page).

(** ** processWebRequest *)

(** The page cache collaborator: [get({ key })] answers the stored render or
    [undefined] ([None]); [set({ key, value })] stores one. Both may change
    the cache. *)
Class PageCache (C : Type) : Type := {
  cache_get : C → string → option string * C;
  cache_set : C → string → string → C
}.

(** The rendering collaborator and [JSON.stringify]. *)
Class ClientPlugin : Type := {
  renderPage : RouteInfo.t → Page.t → value → string;
  JSON_stringify : value → string
}.

(** The [callbacks] argument; [None]: the key is not given. *)
Record Callbacks (C : Type) : Type := mkCallbacks {
  serverPreprocessing : option (RouteInfo.t → Page.t → value → value);
  addToModel : option (value → RouteInfo.t → value);
  pageCacheService : option C
}.
Arguments mkCallbacks {C} _ _ _.
Arguments serverPreprocessing {C} _.
Arguments addToModel {C} _.
Arguments pageCacheService {C} _.

(** A cached page in a condition. *)
Definition cached_truthy (cachedPage : option string) : bool :=
  match cachedPage with
  | Some page => JsString.truthy page
  | None => false
  end.

(** The request pipeline. The answer is the promise it returns ([None]
    inside it: [null]) or the exception it throws before it has one, with
    the state the cache service in use is left in. The callbacks, the
    cache service, [JSON.stringify] and the renderer are collaborators
    that return: what becomes of the promise when one of them throws
    inside the chain is not part of the embedding. *)
Definition processWebRequest {C : Type} {cache : PageCache C}
    {injector : Injector} {clientPlugin : ClientPlugin}
    (routeInfo : RouteInfo.t) (callbacks : Callbacks C)
    (defaultPageCache : C) : completion (promise (option string)) * C :=
  let appName := RouteInfo.appName routeInfo in
  let serverOnly := to_boolean (prop (RouteInfo.query routeInfo !! "server")) in
  let service := default defaultPageCache (pageCacheService callbacks) in
  match loadModule ("app/" +:+ appName +:+ "/pages/"
                    +:+ to_string (RouteInfo.name routeInfo) +:+ ".page") with
  | Throw e => (Throw e, service)
  | Return page =>
      let preprocess :=
        default (fun _ _ _ => VBool false) (serverPreprocessing callbacks) in
      let appAddToModel :=
        default (fun model _ => model) (addToModel callbacks) in
      match getInitialModel routeInfo page with
      | Throw e => (Throw e, service)
      | Return (Rejected e) => (Return (Rejected e), service)
      | Return (Fulfilled model) =>
          let initialModel := js_or model (VObject []) in
          if to_boolean (preprocess routeInfo page model) then
            (* the first stage answers true, the second turns it into null *)
            (Return (Fulfilled None), service)
          else
            let cacheKey :=
              RouteInfo.url routeInfo +:+ "||" +:+ JSON_stringify model in
            let '(cachedPage, service) := cache_get service cacheKey in
            if cached_truthy cachedPage && negb serverOnly then
              (Return (Fulfilled cachedPage), service)
            else
              let initialModel := appAddToModel initialModel routeInfo in
              let renderedPage := renderPage routeInfo page initialModel in
              let service :=
                if negb serverOnly
                then cache_set service cacheKey renderedPage
                else service in
              (Return (Fulfilled (Some renderedPage)), service)
      end
  end.

(** A page cache that is a plain dictionary: an example of an app's own
    cache service. *)
Definition dict_cache : PageCache (gmap string string) :=
  {| cache_get c key := (c !! key, c);
     cache_set c key page := <[key := page]> c |}.

(** ** The adapter of a service (service factory) *)

Module ServiceFactory.

Record ServiceInfo : Type := mkServiceInfo {
  adapterName : string;
  adapterImpl : string;
  resourceName : string
}.

(** Modelled from the spec: which adapter categories have a generic
    override layer and where the override of a resource lives. The source
    of the service factory is missing; the spec leaves this a policy to
    configure. *)
Record OverridePolicy : Type := mkPolicy {
  supports_override : string → bool;
  generic_path : ServiceInfo → string
}.

(** Modelled from the spec: the merge of a primary adapter with a generic
    override. The source of the service factory is missing; the spec says
    that override values replace primary values on key collision and that
    primary keys which do not collide survive. *)
Definition merge (primary override : gmap string value) : gmap string value :=
  override ∪ primary.

(** Modelled from the spec: the path of the primary adapter module,
    adapters/<adapterName>/<adapterImpl>/<resourceName>. *)
Definition primary_path (serviceInfo : ServiceInfo) : string :=
  "adapters/" +:+ adapterName serviceInfo +:+ "/"
  +:+ adapterImpl serviceInfo +:+ "/" +:+ resourceName serviceInfo.

(** Modelled from the spec: getAdapter of the service factory, whose
    source is missing (only its unit tests are at hand). It loads the
    primary adapter and fails when there is none; for a category with an
    override layer it loads the generic module too and, when that exists,
    merges it over the primary; any other category gets the primary as it
    is. [locate] answers [None] for a module that cannot be found. *)
Definition getAdapter (policy : OverridePolicy)
    (locate : string → option (gmap string value))
    (serviceInfo : ServiceInfo) : completion (gmap string value) :=
  match locate (primary_path serviceInfo) with
  | None => Throw (Error "ServiceFactory could not find adapter")
  | Some primary =>
      if supports_override policy (adapterName serviceInfo) then
        match locate (generic_path policy serviceInfo) with
        | Some override => Return (merge primary override)
        | None => Return primary
        end
      else Return primary
  end.

(** The module loader of the unit tests of [getAdapter]: the module whose
    path holds the name of the implementation, and the generic module for
    any other path. *)
Definition test_locate (adapterImpl : string) (path : string)
  : option (gmap string value) :=
  if JsString.indexOf path adapterImpl >=? 0
  then Some {[ "one" := VStr "one"; "two" := VStr "two" ]}
  else Some {[ "two" := VStr "override"; "three" := VStr "three" ]}.

(** A policy for the unit tests: the category [repo] has an override
    layer, which the tests show, at a path that leaves the implementation
    out. *)
Definition test_policy : OverridePolicy :=
  {| supports_override category := String.eqb category "repo";
     generic_path serviceInfo :=
       "adapters/" +:+ adapterName serviceInfo +:+ "/"
       +:+ resourceName serviceInfo |}.

End ServiceFactory.

(** ** JSON.stringify *)

(** [JSON.stringify] on the values of the embedding, for objects that have
    no [toJSON] member and whose keys are not array indices (which would
    come first). [None]: the answer is [undefined]. *)
Module JSON.

Definition quote_mark : ascii := "034"%char.

Definition hex_digit (n : N) : ascii :=
  if (n <? 10)%N then ascii_of_N (48 + n) else ascii_of_N (87 + n).

(** A code unit inside a string literal. *)
Definition escape (c : ascii) : string :=
  let n := N_of_ascii c in
  if (c =? quote_mark)%char then String "\" (String quote_mark "")
  else if (c =? "\")%char then "\\"
  else if (n =? 8)%N then "\b"
  else if (n =? 9)%N then "\t"
  else if (n =? 10)%N then "\n"
  else if (n =? 12)%N then "\f"
  else if (n =? 13)%N then "\r"
  else if (n <? 32)%N then
    "\u00" +:+ String (hex_digit (n / 16)) (String (hex_digit (n mod 16)) "")
  else String c "".

Fixpoint escape_all (s : string) : string :=
  match s with
  | EmptyString => EmptyString
  | String c s' => escape c +:+ escape_all s'
  end.

Definition quote (s : string) : string :=
  String quote_mark (escape_all s) +:+ String quote_mark "".

Fixpoint join (texts : list string) : string :=
  match texts with
  | [] => EmptyString
  | [text] => text
  | text :: texts' => text +:+ "," +:+ join texts'
  end.

Fixpoint stringify (v : value) : option string :=
  match v with
  | VUndefined | VFunction _ => None
  | VNull => Some "null"
  | VBool true => Some "true"
  | VBool false => Some "false"
  | VStr s => Some (quote s)
  | VObject fields =>
      let members :=
        (fix members (fields : list (string * value)) : list string :=
           match fields with
           | [] => []
           | (key, v') :: fields' =>
               match stringify v' with
               | Some text => (quote key +:+ ":" +:+ text) :: members fields'
               | None => members fields'
               end
           end) fields in
      Some ("{" +:+ join members +:+ "}")
  end.

End JSON.

(** ** A small configuration to run the handler on *)

Module Fixture.

(** A route with one URL template and nothing else set. *)
Definition posts : RouteDecl.t :=
  RouteDecl.mk (Some (VStr "post")) ["/posts/{id}"]
               None None None None None None.

(** An app with that route and no defaults. *)
Definition blog : AppConfig.t :=
  AppConfig.mk [posts] VUndefined VUndefined VUndefined VUndefined VUndefined.

(** What [getRoutes] compiles of the route. *)
Definition post_route : Route.t :=
  route_object "blog" blog posts "/posts/{id}"
    (mkRegExp ("^\/posts\/" +:+ token_class +:+ "$")).

(** The state after [init], both caches empty. *)
Definition initial : state := mkState {[ "blog" := blog ]} ∅ ∅.

(** The page of the route: its model is a function. *)
Definition post_page : Page.t :=
  Page.mk (VFunction "function (tokens) { return { id: tokens.id }; }")
          VUndefined.

(** An injector that knows this page only and runs its model function. *)
Definition injector : Injector :=
  {| loadModule path :=
       if String.eqb path "app/blog/pages/post.page" then Return post_page
       else Throw (Error ("Cannot find module " +:+ path));
     loadModule_fn fn _ deps :=
       Return (Plain (VObject [("id", match dep_tokens deps !! "id" with
                                      | Some id => VStr id
                                      | None => VUndefined
                                      end)])) |}.

(** A renderer that writes the URL of the request, and [JSON.stringify]
    as the concatenation of the cache key reads it ([undefined] as the
    text [undefined]). *)
Definition clientPlugin : ClientPlugin :=
  {| renderPage routeInfo _ _ := "<h1>" +:+ RouteInfo.url routeInfo +:+ "</h1>";
     JSON_stringify model := default "undefined" (JSON.stringify model) |}.

(** The descriptor of a request for [/posts/42]. *)
Definition post_42 (query : gmap string value) : RouteInfo.t :=
  RouteInfo.mk "blog" VUndefined "/posts/42" query {[ "id" := "42" ]}
    "/posts/{id}" (mkRegExp ("^\/posts\/" +:+ token_class +:+ "$"))
    (VStr "blog") (VStr "server.page") (VBool true) VUndefined VUndefined
    VUndefined (VStr "post") ["/posts/{id}"].

(** The model that the page's function makes of the request, and the
    cache key of the request: [/posts/42||] and the JSON text of the
    model. *)
Definition post_42_model : value := VObject [("id", VStr "42")].

Definition post_42_key : string :=
  "/posts/42||{" +:+ JSON.quote "id" +:+ ":" +:+ JSON.quote "42" +:+ "}".

End Fixture.

(** ** setDefaults *)

(** [x === undefined] *)
Definition is_undefined (v : value) : bool :=
  match v with VUndefined => true | _ => false end.

(** What a plain object inherits under a name: the members of
    [Object.prototype] are functions, but for [__proto__], which reads as
    the prototype itself. *)
Definition inherited_member (key : string) : value :=
  if String.eqb key "__proto__" then VObject []
  else VFunction ("function " +:+ key +:+ "() { [native code] }").

(** [o[key]] on a plain object: the own property when there is one, else
    what the object inherits under the name, else [undefined]. *)
Definition get_property (o : gmap string value) (key : string) : value :=
  match o !! key with
  | Some v => v
  | None => if inherited key then inherited_member key else VUndefined
  end.

(** The callback of [_.each(defaults, ...)]: the key is set when the model
    reads [undefined] under it. The assignment is reached only under a name
    that the model does not inherit, or has as an own property already, so
    that it makes or updates an own property. *)
Definition set_default (key : string) (val : value)
    (model : gmap string value) : gmap string value :=
  if is_undefined (get_property model key) then <[key := val]> model
  else model.

(** [setDefaults(model, defaults)], for a model that is a plain object; the
    result is the model as the call leaves it. [None]: a [defaults] that is
    falsy; [Some]: an object, whose own keys are visited. Each key of
    [defaults] is visited once, and the visits of two keys do not touch
    each other, so the order of the visits makes no difference. *)
Definition setDefaults (model : gmap string value)
    (defaults : option (gmap string value)) : gmap string value :=
  match defaults with
  | None => model
  | Some defaults => map_fold set_default model defaults
  end.

(** ** Templates and their instances *)

(** A URL pattern written out as its pieces, each a stretch of literal text
    and the placeholder after it, with the value that a URL puts in the
    placeholder's place; [tail] is the literal text after the last
    placeholder. *)
Module Template.

Record piece : Type := mkPiece { lit : string; key : string; val : string }.

Fixpoint pattern_of (pieces : list piece) (tail : string) : string :=
  match pieces with
  | [] => tail
  | p :: rest => lit p +:+ "{" +:+ key p +:+ "}" +:+ pattern_of rest tail
  end.

Fixpoint url_of (pieces : list piece) (tail : string) : string :=
  match pieces with
  | [] => tail
  | p :: rest => lit p +:+ val p +:+ url_of rest tail
  end.

(** The tokens of the instance, each value set under the name of its
    placeholder as an assignment sets it: of two placeholders with one name
    the later counts, and a placeholder named [__proto__] leaves no
    token. *)
Definition tokens_of (pieces : list piece) : gmap string string :=
  foldl (fun tokenValues p => set_property (key p) (val p) tokenValues)
        ∅ pieces.

(** The end of the text, or a slash. *)
Definition segment_start (s : string) : bool :=
  match s with
  | EmptyString => true
  | String c _ => (c =? "/")%char
  end.

Definition lacks (s : string) (c : string) : bool :=
  JsString.indexOf s c =? -1.

(** Every placeholder is followed by a slash or by the end of the pattern,
    no value holds a slash, no name a closing brace and no literal text an
    opening brace. *)
Fixpoint delimited (pieces : list piece) (tail : string) : bool :=
  match pieces with
  | [] => lacks tail "{"
  | p :: rest =>
      lacks (lit p) "{" && lacks (key p) "}" && lacks (val p) "/"
      && segment_start (pattern_of rest tail) && delimited rest tail
  end.

Definition all_chars (f : ascii → bool) (s : string) : bool :=
  forallb f (list_ascii_of_string s).

(** The literal text is made of characters that stand for themselves in a
    regular expression, the names of class members, and the values of class
    members, one at least. *)
Fixpoint plain (pieces : list piece) (tail : string) : bool :=
  match pieces with
  | [] => all_chars Fragment.is_plain tail
  | p :: rest =>
      all_chars Fragment.is_plain (lit p)
      && all_chars is_token_char (key p)
      && JsString.truthy (val p) && all_chars is_token_char (val p)
      && plain rest tail
  end.

(** The same of the pattern alone: literal text that stands for itself,
    names of class members. *)
Fixpoint literal (pieces : list piece) (tail : string) : bool :=
  match pieces with
  | [] => all_chars Fragment.is_plain tail
  | p :: rest =>
      all_chars Fragment.is_plain (lit p)
      && all_chars is_token_char (key p)
      && literal rest tail
  end.

(** The text between [^] and [$] that such a pattern is compiled to:
    its literal text with the slashes escaped, and the token class for
    each placeholder. *)
Fixpoint body_of (pieces : list piece) (tail : string) : string :=
  match pieces with
  | [] => escape_slashes tail
  | p :: rest => escape_slashes (lit p) +:+ token_class +:+ body_of rest tail
  end.

(** The atoms of the regex of such a pattern: its literal text, and the
    token class for each placeholder. *)
Fixpoint atoms_of (pieces : list piece) (tail : string)
  : list Fragment.atom :=
  match pieces with
  | [] => map Fragment.Lit (list_ascii_of_string tail)
  | p :: rest =>
      map Fragment.Lit (list_ascii_of_string (lit p))
      ++ Fragment.TokenPlus :: atoms_of rest tail
  end.

(** The pieces with other values in the places of the placeholders. *)
Fixpoint with_values (pieces : list piece) (values : list string)
  : list piece :=
  match pieces, values with
  | p :: rest, v :: values' =>
      mkPiece (lit p) (key p) v :: with_values rest values'
  | _, _ => []
  end.

(** A value that the token class takes: class members, one at least. *)
Definition class_value (v : string) : bool :=
  JsString.truthy v && all_chars is_token_char v.

(** [s] is an instance of the pattern: its literal text, with a value
    that the class takes in the place of each placeholder. *)
Definition instance (pieces : list piece) (tail : string) (s : string)
  : Prop :=
  ∃ values,
    length values = length pieces
    ∧ Forall (fun v => class_value v = true) values
    ∧ s = url_of (with_values pieces values) tail.

(** The literal text is the same in lower case. *)
Definition lower_literals (pieces : list piece) (tail : string) : bool :=
  forallb (fun p => String.eqb (JsString.toLowerCase (lit p)) (lit p)) pieces
  && String.eqb (JsString.toLowerCase tail) tail.

(** The pieces with their values in lower case. *)
Definition lowered (pieces : list piece) : list piece :=
  map (fun p => mkPiece (lit p) (key p) (JsString.toLowerCase (val p))) pieces.

End Template.

(** ** Sequences of requests *)

Record request : Type := mkRequest {
  req_appName : string;
  req_url : string;
  req_query : gmap string value;
  req_lang : value
}.

(** The state after a call of [getRouteInfo], whether it returned or
    threw. *)
Definition serve {engine : RegExpEngine} (st : state) (r : request) : state :=
  (getRouteInfo (req_appName r) (req_url r) (req_query r) (req_lang r) st).2.

Definition serve_all {engine : RegExpEngine} (requests : list request)
    (st : state) : state :=
  foldl serve st requests.

(** ** The templates of a configuration *)

(** The URL templates of a configuration, each with its route, in the
    order in which [getRoutes] comes to them. *)
Definition templates (appConfig : AppConfig.t) : list (RouteDecl.t * string) :=
  flat_map (fun route => map (pair route) (RouteDecl.urls route))
           (AppConfig.routes appConfig).

(** ** What the caches hold *)

(** A route as [getRoutes] compiles it: its regex is that of its pattern. *)
Definition compiled {engine : RegExpEngine} (route : Route.t) : Prop :=
  convertUrlPatternToRegex (Route.urlPattern route)
  = Return (Route.urlRegex route).

(** Every cached list of routes is made of compiled routes, and every cached
    RouteInfo stands under the key of its own app name and URL, with the
    tokens of its own pattern and URL and the regex of its pattern. *)
Definition caches_consistent {engine : RegExpEngine} (st : state) : Prop :=
  (∀ appName routes,
     appRouteCache st !! appName = Some routes → Forall compiled routes)
  ∧ (∀ key routeInfo,
       routeInfoCache st !! key = Some routeInfo →
       key = RouteInfo.appName routeInfo +:+ "||" +:+ RouteInfo.url routeInfo
       ∧ RouteInfo.tokens routeInfo
         = getTokenValuesFromUrl (RouteInfo.urlPattern routeInfo)
             (RouteInfo.url routeInfo)
       ∧ convertUrlPatternToRegex (RouteInfo.urlPattern routeInfo)
         = Return (RouteInfo.urlRegex routeInfo)).

(** ** Proof tactics *)

(** A character taken apart into its 256 values, the goals that are plain
    then closed. *)
Ltac ascii_cases c :=
  destruct c as [[] [] [] [] [] [] [] []];
  try reflexivity; try discriminate; try congruence.


(** * Properties *)

(** ** JavaScript strings *)

Section JsStringFacts.

Import JsString.

Lemma append_cons c s t : String c s +:+ t = String c (s +:+ t).
Proof. reflexivity. Qed.

Lemma append_nil t : "" +:+ t = t.
Proof. reflexivity. Qed.

Lemma take_drop n s : take n s +:+ drop n s = s.
Proof.
  revert s. induction n as [|n IH]; intros [|c s]; try reflexivity.
  simpl take. simpl drop. rewrite append_cons. by f_equal.
Qed.

Lemma append_assoc s t u : (s +:+ t) +:+ u = s +:+ t +:+ u.
Proof.
  induction s as [|c s IH]; [reflexivity|]. rewrite !append_cons. by f_equal.
Qed.

Lemma app_empty_r s : s +:+ "" = s.
Proof.
  induction s as [|c s IH]; [reflexivity|]. rewrite append_cons. by f_equal.
Qed.

Lemma length_nonneg s : 0 <= length s.
Proof. unfold length. lia. Qed.

Lemma drop_length n s :
  String.length (drop n s) = (String.length s - n)%nat.
Proof.
  revert s. induction n as [|n IH]; intros [|c s]; simpl; auto with lia.
Qed.

Lemma take_length n s :
  String.length (take n s) = Nat.min n (String.length s).
Proof.
  revert s. induction n as [|n IH]; intros [|c s]; simpl; auto with lia.
Qed.

Lemma take_all n s : (String.length s <= n)%nat → take n s = s.
Proof.
  revert s. induction n as [|n IH]; intros [|c s]; simpl; intros Hn;
    try reflexivity; try lia.
  f_equal. apply IH. lia.
Qed.

Lemma drop_app s t : drop (String.length s) (s +:+ t) = t.
Proof. induction s as [|c s IH]; simpl; auto. Qed.

Lemma take_app s t : take (String.length s) (s +:+ t) = s.
Proof. induction s as [|c s IH]; simpl; [by destruct t | by f_equal]. Qed.

Lemma app_length s t :
  String.length (s +:+ t) = (String.length s + String.length t)%nat.
Proof. induction s as [|c s IH]; simpl; auto. Qed.

Lemma clamp_le s i : (clamp s i <= String.length s)%nat.
Proof. unfold clamp, length. lia. Qed.

Lemma clamp_in_range s i :
  0 <= i <= length s → clamp s i = Z.to_nat i.
Proof. unfold clamp, length. lia. Qed.

(** [s.substring(i)] drops the first [i] characters. *)
Lemma substring_from_drop s i : substring_from s i = drop (clamp s i) s.
Proof.
  unfold substring_from, substring.
  pose proof (clamp_le s i) as Hi.
  assert (clamp s (length s) = String.length s) as ->
    by (unfold clamp, length; lia).
  rewrite Nat.min_l, Nat.max_r by lia.
  apply take_all. rewrite drop_length. lia.
Qed.

(** [s.substring(0, i)] keeps the first [i] characters. *)
Lemma substring_0_take s i : substring s 0 i = take (clamp s i) s.
Proof.
  unfold substring.
  assert (clamp s 0 = 0%nat) as -> by (unfold clamp, length; lia).
  rewrite Nat.min_l, Nat.max_r, Nat.sub_0_r by lia. reflexivity.
Qed.

Lemma substring_from_length s i :
  String.length (substring_from s i) = (String.length s - clamp s i)%nat.
Proof. rewrite substring_from_drop. apply drop_length. Qed.

Lemma prefix_length t s :
  String.prefix t s = true → (String.length t <= String.length s)%nat.
Proof.
  revert s. induction t as [|a t IH]; intros [|b s]; simpl; try lia;
    try discriminate.
  destruct (ascii_dec a b); [|discriminate]. intros H. apply IH in H. lia.
Qed.

(** A position that [indexOf] finds leaves room for the searched text. *)
Lemma indexOf_at_found i s t :
  0 <= i → 0 <= indexOf_at i s t →
  i <= indexOf_at i s t ∧ indexOf_at i s t + length t <= i + length s.
Proof.
  revert i. induction s as [|c s IH]; intros i Hi; cbn [indexOf_at].
  - destruct (String.prefix t "") eqn:Hp; [|lia].
    apply prefix_length in Hp. unfold length. simpl in *. lia.
  - destruct (String.prefix t (String c s)) eqn:Hp.
    + apply prefix_length in Hp. unfold length. simpl in *. lia.
    + intros H. apply IH in H; [|lia]. unfold length in *.
      cbn [String.length]. lia.
Qed.

Lemma indexOf_found s t :
  0 <= indexOf s t → indexOf s t + length t <= length s.
Proof. unfold indexOf. intros H. apply (indexOf_at_found 0 s t) in H; lia. Qed.

Lemma indexOf_at_ge i s t : 0 <= i → -1 <= indexOf_at i s t.
Proof.
  revert i. induction s as [|c s IH]; intros i Hi; cbn [indexOf_at].
  - destruct (String.prefix t ""); lia.
  - destruct (String.prefix t (String c s)); [lia|]. apply IH. lia.
Qed.

Lemma indexOf_at_shift i s t :
  indexOf_at i s t = if indexOf_at 0 s t <? 0 then -1 else i + indexOf_at 0 s t.
Proof.
  revert i. induction s as [|c s IH]; intros i; cbn [indexOf_at].
  - destruct (String.prefix t ""); simpl; lia.
  - destruct (String.prefix t (String c s)); simpl; [lia|].
    change (0 + 1) with 1. rewrite (IH (i + 1)), (IH 1).
    pose proof (indexOf_at_ge 0 s t).
    destruct (indexOf_at 0 s t <? 0) eqn:E; simpl; [reflexivity|].
    destruct (1 + indexOf_at 0 s t <? 0) eqn:E'; lia.
Qed.

(** The first occurrence of a character that the text before it lacks. *)
Lemma indexOf_app_char lit c rest :
  indexOf lit (String c "") = -1 →
  indexOf (lit +:+ String c rest) (String c "") = length lit.
Proof.
  unfold indexOf, length.
  induction lit as [|a lit IH]; simpl.
  - destruct (ascii_dec c c); [|congruence]. by destruct rest.
  - destruct (ascii_dec c a) as [->|Hne].
    + destruct lit; simpl; discriminate.
    + rewrite (indexOf_at_shift 1 lit), (indexOf_at_shift 1 (lit +:+ _)).
      pose proof (indexOf_at_ge 0 lit (String c "")).
      destruct (indexOf_at 0 lit (String c "") <? 0) eqn:E; [|lia].
      intros _. rewrite IH by lia.
      destruct (Z.of_nat (String.length lit) <? 0) eqn:E'; lia.
Qed.

Lemma indexOf_none s c :
  indexOf s (String c "") < 0 → indexOf s (String c "") = -1.
Proof. unfold indexOf. pose proof (indexOf_at_ge 0 s (String c "")). lia. Qed.

Lemma substring_from_app s t : substring_from (s +:+ t) (length s) = t.
Proof.
  rewrite substring_from_drop, clamp_in_range.
  - unfold length. rewrite Nat2Z.id. apply drop_app.
  - unfold length. rewrite app_length. lia.
Qed.

Lemma substring_0_app s t : substring (s +:+ t) 0 (length s) = s.
Proof.
  rewrite substring_0_take, clamp_in_range.
  - unfold length. rewrite Nat2Z.id. apply take_app.
  - unfold length. rewrite app_length. lia.
Qed.

End JsStringFacts.

(** ** Assignments to a plain object *)

Lemma set_property_own key v (o : gmap string string) :
  key ≠ "__proto__" → set_property key v o = <[key := v]> o.
Proof.
  intros Hkey. unfold set_property.
  destruct (o !! key); [reflexivity|].
  destruct (String.eqb_spec key "__proto__"); [contradiction|reflexivity].
Qed.

(** An assignment makes at most the entry it names. *)
Lemma set_property_lookup key v (o : gmap string string) k' v' :
  set_property key v o !! k' = Some v' →
  (k' = key ∧ v' = v) ∨ o !! k' = Some v'.
Proof.
  unfold set_property.
  destruct (o !! key); [|destruct (String.eqb key "__proto__")];
    try (by right);
    (destruct (decide (key = k')) as [<-|Hne];
     [rewrite lookup_insert_eq; intros [= <-]; by left
     |rewrite lookup_insert_ne by done; by right]).
Qed.

Lemma set_property_lookup_ne key v (o : gmap string string) k' :
  key ≠ k' → set_property key v o !! k' = o !! k'.
Proof.
  intros Hne. unfold set_property.
  destruct (o !! key); [|destruct (String.eqb key "__proto__")];
    try reflexivity; by rewrite lookup_insert_ne.
Qed.

Lemma set_property_lookup_eq key v (o : gmap string string) :
  key ≠ "__proto__" → set_property key v o !! key = Some v.
Proof. intros Hkey. by rewrite set_property_own, lookup_insert_eq. Qed.

(** An object that has no own [__proto__] gets none by assignment. *)
Lemma set_property_proto key v (o : gmap string string) :
  o !! "__proto__" = None → set_property key v o !! "__proto__" = None.
Proof.
  intros Ho. destruct (decide (key = "__proto__")) as [->|Hne].
  - unfold set_property. by rewrite Ho.
  - by rewrite set_property_lookup_ne.
Qed.

(** ** The token loop *)

Section TokenLoop.

Import JsString.

Lemma drop_succ_app s c t : drop (S (String.length s)) (s +:+ String c t) = t.
Proof. induction s as [|a s IH]; simpl; auto. Qed.

Lemma substring_from_app_char s c t :
  substring_from (s +:+ String c t) (length s + 1) = t.
Proof.
  rewrite substring_from_drop, clamp_in_range.
  - unfold length. replace (Z.to_nat (Z.of_nat (String.length s) + 1))
      with (S (String.length s)) by lia.
    apply drop_succ_app.
  - unfold length. rewrite app_length. simpl. lia.
Qed.

(** A pass that goes round again leaves a strictly shorter pattern. *)
Lemma loop_body_shrinks tv p u tv' p' u' :
  loop_body tv p u = Continue tv' p' u' →
  (String.length p' < String.length p)%nat.
Proof.
  unfold loop_body.
  destruct (indexOf p "{" <? 0) eqn:E1; [discriminate|].
  set (p1 := substring_from p (indexOf p "{" + 1)).
  destruct (indexOf p1 "}" <? 0) eqn:E2; [discriminate|].
  intros [= _ <- _].
  assert (String.length p1 < String.length p)%nat as Hp1.
  { unfold p1. rewrite substring_from_length.
    apply Z.ltb_ge in E1. pose proof (indexOf_found p "{" E1) as Hf.
    unfold length in Hf. simpl in Hf.
    rewrite clamp_in_range by (unfold length; lia). lia. }
  destruct (indexOf p1 "}" =? length p1 - 1); simpl; [lia|].
  rewrite substring_from_length. lia.
Qed.

(** With more passes allowed than the pattern has characters the loop ends,
    and with the same tokens whatever the allowance. *)
Lemma token_loop_enough n tv p u :
  (String.length p < n)%nat →
  ∃ r, ∀ fuel, (String.length p < fuel)%nat → token_loop fuel tv p u = Some r.
Proof.
  revert tv p u. induction n as [|n IH]; intros tv p u Hn; [lia|].
  destruct (loop_body tv p u) as [r|tv' p' u'] eqn:Hbody.
  - exists r. intros [|fuel] Hf; [lia|]. simpl. by rewrite Hbody.
  - pose proof (loop_body_shrinks _ _ _ _ _ _ Hbody) as Hlt.
    destruct (IH tv' p' u') as [r Hr]; [lia|].
    exists r. intros [|fuel] Hf; [lia|]. simpl. rewrite Hbody.
    apply Hr. lia.
Qed.

(** The loop as the source writes it: one pass, then the loop again. *)
Lemma token_loop_from_unfold tv p u :
  token_loop_from tv p u =
  match loop_body tv p u with
  | Break r => r
  | Continue tv' p' u' => token_loop_from tv' p' u'
  end.
Proof.
  unfold token_loop_from at 1. simpl.
  destruct (loop_body tv p u) as [r|tv' p' u'] eqn:Hbody; [reflexivity|].
  pose proof (loop_body_shrinks _ _ _ _ _ _ Hbody) as Hlt.
  destruct (token_loop_enough (S (String.length p')) tv' p' u') as [r Hr]; [lia|].
  unfold token_loop_from. rewrite !Hr by lia. reflexivity.
Qed.

(** The pass over a pattern that begins [lit{name}rest]. *)
Lemma loop_body_placeholder tv lit name rest u :
  indexOf lit "{" = -1 → indexOf name "}" = -1 →
  loop_body tv (lit +:+ "{" +:+ name +:+ "}" +:+ rest) u =
  let url1 := substring_from u (length lit) in
  let slash := indexOf url1 "/" in
  let stop := if slash <? 0 then length url1 else slash in
  let stop :=
    if truthy rest && (indexOf url1 rest >=? 0)
    then Z.min stop (indexOf url1 rest) else stop in
  Continue (set_property name (substring url1 0 stop) tv) rest
           (substring_from url1 stop).
Proof.
  intros Hlit Hname. unfold loop_body.
  change ("{" +:+ name +:+ "}" +:+ rest) with (String "{" (name +:+ String "}" rest)).
  rewrite (indexOf_app_char lit "{" _ Hlit).
  pose proof (length_nonneg lit) as Hl.
  destruct (length lit <? 0) eqn:E; [lia|]. clear E.
  rewrite substring_from_app_char.
  rewrite (indexOf_app_char name "}" _ Hname).
  pose proof (length_nonneg name) as Hn.
  destruct (length name <? 0) eqn:E; [lia|]. clear E.
  change (String "}" rest) with ("}" +:+ rest).
  assert (substring (name +:+ "}" +:+ rest) 0 (length name) = name) as ->
    by apply substring_0_app.
  assert ((if length name =? length (name +:+ "}" +:+ rest) - 1
           then EmptyString
           else substring_from (name +:+ "}" +:+ rest) (length name + 1)) = rest)
    as ->.
  { change ("}" +:+ rest) with (String "}" rest).
    rewrite substring_from_app_char.
    destruct (length name =? _) eqn:E; [|reflexivity].
    apply Z.eqb_eq in E. unfold length in E. rewrite app_length in E.
    simpl in E. destruct rest; [reflexivity|simpl in E; lia]. }
  reflexivity.
Qed.

End TokenLoop.

(** C9. [getTokenValuesFromUrl] terminates on every pattern and URL. A pass
    through the loop leaves it or goes round with a strictly shorter
    pattern; so the loop, entered in any state, ends with one result for
    every allowance of more passes than the pattern has characters, and that
    result is what the function returns. When the pattern has no opening
    brace left (it is used up), or has one with no closing brace after it
    (it is malformed), the result is the tokens collected so far. *)
Theorem getTokenValuesFromUrl_terminates
    (tokenValues : gmap string string) (pattern url : string) :
  (∀ tv' p' u',
     loop_body tokenValues pattern url = Continue tv' p' u' →
     (String.length p' < String.length pattern)%nat)
  ∧ (∃ result,
       (∀ fuel, (String.length pattern < fuel)%nat →
                token_loop fuel tokenValues pattern url = Some result)
       ∧ token_loop_from tokenValues pattern url = result)
  ∧ (∃ result,
       (∀ fuel, (String.length pattern < fuel)%nat →
                token_loop fuel ∅ pattern url = Some result)
       ∧ getTokenValuesFromUrl pattern url = result)
  ∧ (JsString.indexOf pattern "{" < 0 →
     token_loop_from tokenValues pattern url = tokenValues)
  ∧ (0 <= JsString.indexOf pattern "{" →
     JsString.indexOf
       (JsString.substring_from pattern (JsString.indexOf pattern "{" + 1))
       "}" < 0 →
     token_loop_from tokenValues pattern url = tokenValues).
Proof.
  assert (∀ tv, ∃ result,
            (∀ fuel, (String.length pattern < fuel)%nat →
                     token_loop fuel tv pattern url = Some result)
            ∧ token_loop_from tv pattern url = result) as Htotal.
  { intros tv.
    destruct (token_loop_enough (S (String.length pattern)) tv pattern url)
      as [r Hr]; [lia|].
    exists r. split; [exact Hr|].
    unfold token_loop_from. rewrite Hr by lia. reflexivity. }
  split; [|split; [|split; [|split]]].
  - intros tv' p' u'. apply loop_body_shrinks.
  - apply Htotal.
  - apply (Htotal ∅).
  - intros Hno. rewrite token_loop_from_unfold. unfold loop_body.
    apply Z.ltb_lt in Hno. rewrite Hno. reflexivity.
  - intros Hopen Hclose. rewrite token_loop_from_unfold. unfold loop_body.
    apply Z.ltb_ge in Hopen. rewrite Hopen.
    apply Z.ltb_lt in Hclose. rewrite Hclose. reflexivity.
Qed.

(** The loop on a pattern with an opening brace and no closing one. *)
Lemma getTokenValuesFromUrl_terminates_witness :
  (∃ result,
     (∀ fuel, (String.length "/a/{x" < fuel)%nat →
              token_loop fuel ∅ "/a/{x" "/a/1" = Some result)
     ∧ getTokenValuesFromUrl "/a/{x" "/a/1" = result)
  ∧ token_loop_from {[ "k" := "v" ]} "/a/{x" "/a/1" = {[ "k" := "v" ]}.
Proof.
  pose proof (getTokenValuesFromUrl_terminates {[ "k" := "v" ]} "/a/{x" "/a/1")
    as (_ & _ & Hfun & _ & Hmalformed).
  split; [exact Hfun|].
  apply Hmalformed; vm_compute; [discriminate|reflexivity].
Defined.

(** C1. Two placeholders in one segment. For the pattern
    [/{year},{slug}] and the URL [/2014,pancakes] the comma is a literal
    delimiter that stands in both, after the first placeholder, and the
    regex that [convertUrlPatternToRegex] makes of the pattern takes the
    URL (the comma is no member of the class, so that [2014] stands for
    [{year}] and [pancakes] for [{slug}]). [getTokenValuesFromUrl] does not
    stop the first span at the comma: it looks in the URL for the whole
    rest of the pattern, [,{slug}], placeholder and all, finds none and
    takes the span up to the end of the URL, so that [year] is
    [2014,pancakes] and [slug] is empty. The same happens for
    [/{a}-{b}] on [/x-y]. Where the rest of the pattern is literal text,
    as in [/{slug}.html], the span does end at it, and for [/posts/{id}]
    and [/posts/42] the result is [{id: "42"}]. *)
Theorem getTokenValuesFromUrl_delimiter_missed :
  let pattern := "/{year},{slug}" in
  let url := "/2014,pancakes" in
  (∃ urlRegex,
     convertUrlPatternToRegex (engine := Fragment.engine) pattern
     = Return urlRegex
     ∧ Fragment.test urlRegex url = Some true
     ∧ Fragment.test urlRegex "/2014,pancakes," = Some false)
  ∧ JsString.indexOf "2014,pancakes" "," = 4
  ∧ JsString.indexOf "2014,pancakes" ",{slug}" = -1
  ∧ loop_body ∅ pattern url
    = Continue {[ "year" := "2014,pancakes" ]} ",{slug}" ""
  ∧ getTokenValuesFromUrl pattern url
    = {[ "year" := "2014,pancakes"; "slug" := "" ]}
  ∧ getTokenValuesFromUrl pattern url
    ≠ {[ "year" := "2014"; "slug" := "pancakes" ]}
  ∧ getTokenValuesFromUrl "/{a}-{b}" "/x-y" = {[ "a" := "x-y"; "b" := "" ]}
  ∧ getTokenValuesFromUrl "/{slug}.html" "/pancakes.html"
    = {[ "slug" := "pancakes" ]}
  ∧ getTokenValuesFromUrl "/posts/{id}" "/posts/42" = {[ "id" := "42" ]}.
Proof.
  cbv zeta. repeat split; try (vm_compute; reflexivity).
  - eexists. repeat split; vm_compute; reflexivity.
  - intros Heq. apply (f_equal (lookup "slug")) in Heq.
    vm_compute in Heq. discriminate.
Qed.

(** ** Token values are pieces of the URL *)

Section TokenPieces.

Import JsString.

(** A pass that goes round again records a piece of what is left of the
    URL and goes on after it. *)
Lemma loop_body_continue tv p u tv' p' u' :
  loop_body tv p u = Continue tv' p' u' →
  ∃ a b name,
    tv' = set_property name (take b (drop a u)) tv ∧ u' = drop b (drop a u).
Proof.
  unfold loop_body.
  destruct (indexOf p "{" <? 0); [discriminate|].
  destruct (indexOf _ "}" <? 0); [discriminate|].
  intros [= <- _ <-].
  rewrite !substring_0_take, !substring_from_drop.
  eexists _, _, _. split; reflexivity.
Qed.

Lemma loop_body_break tv p u r : loop_body tv p u = Break r → r = tv.
Proof.
  unfold loop_body.
  destruct (indexOf p "{" <? 0); [congruence|].
  destruct (indexOf _ "}" <? 0); [congruence|discriminate].
Qed.

(** Every value that the loop records is a piece of the URL it was entered
    with, as long as the values it was entered with are. *)
Lemma token_loop_from_pieces (original : string) n tv p u :
  (String.length p < n)%nat →
  (∃ pre, original = pre +:+ u) →
  (∀ k v, tv !! k = Some v → ∃ pre post, original = pre +:+ v +:+ post) →
  ∀ k v, token_loop_from tv p u !! k = Some v →
         ∃ pre post, original = pre +:+ v +:+ post.
Proof.
  revert tv p u. induction n as [|n IH]; intros tv p u Hn [pre Hu] Htv; [lia|].
  rewrite token_loop_from_unfold.
  destruct (loop_body tv p u) as [r|tv' p' u'] eqn:Hbody.
  - apply loop_body_break in Hbody as ->. exact Htv.
  - pose proof (loop_body_shrinks _ _ _ _ _ _ Hbody) as Hlt.
    apply loop_body_continue in Hbody as (a & b & name & -> & ->).
    assert (original
            = (pre +:+ take a u) +:+ take b (drop a u) +:+ drop b (drop a u))
      as Hsplit.
    { rewrite take_drop, append_assoc, take_drop. exact Hu. }
    apply IH; [lia| |].
    + exists ((pre +:+ take a u) +:+ take b (drop a u)).
      rewrite append_assoc. exact Hsplit.
    + intros k v Hkv.
      apply set_property_lookup in Hkv as [[-> ->]|Hkv]; [eauto|].
      by apply (Htv k).
Qed.

Lemma getTokenValuesFromUrl_pieces pattern url k v :
  getTokenValuesFromUrl pattern url !! k = Some v →
  ∃ pre post, url = pre +:+ v +:+ post.
Proof.
  apply (token_loop_from_pieces url (S (String.length pattern))); [lia| |].
  - by exists EmptyString.
  - intros k' v'. rewrite lookup_empty. discriminate.
Qed.

End TokenPieces.


(** ** Instances of a template *)

Section TemplateTokens.

Import JsString.

Lemma lacks_spec s c : Template.lacks s c = true ↔ indexOf s c = -1.
Proof. unfold Template.lacks. apply Z.eqb_eq. Qed.

(** A text that begins with [c] is found no earlier than [c] itself. *)
Lemma indexOf_at_char_le s c t :
  0 <= indexOf_at 0 s (String c t) →
  0 <= indexOf_at 0 s (String c "")
  ∧ indexOf_at 0 s (String c "") <= indexOf_at 0 s (String c t).
Proof.
  induction s as [|a s IH]; cbn [indexOf_at String.prefix]; [lia|].
  destruct (ascii_dec c a) as [->|Hne].
  - assert (String.prefix "" s = true) as -> by (by destruct s).
    intros H. split; [lia|exact H].
  - change (0 + 1) with 1.
    rewrite (indexOf_at_shift 1 s (String c t)),
            (indexOf_at_shift 1 s (String c "")).
    destruct (indexOf_at 0 s (String c t) <? 0) eqn:E; [lia|].
    apply Z.ltb_ge in E. destruct (IH E) as [H0 Hle].
    destruct (indexOf_at 0 s (String c "") <? 0) eqn:E'; lia.
Qed.

(** What follows a placeholder in the pattern and in the URL begins
    alike: both are empty, or both begin with the slash. *)
Lemma template_heads rest tail :
  Template.segment_start (Template.pattern_of rest tail) = true →
  (Template.pattern_of rest tail = EmptyString
   ∧ Template.url_of rest tail = EmptyString)
  ∨ (∃ R U, Template.pattern_of rest tail = String "/" R
            ∧ Template.url_of rest tail = String "/" U).
Proof.
  destruct rest as [|q rest]; simpl.
  - destruct tail as [|c tail]; simpl; [by left|].
    intros Hc. apply Ascii.eqb_eq in Hc as ->. right. eauto.
  - destruct (Template.lit q) as [|c l]; simpl.
    + rewrite append_nil. change ("{" +:+ ?x) with (String "{" x).
      simpl. discriminate.
    + rewrite !append_cons. simpl.
      intros Hc. apply Ascii.eqb_eq in Hc as ->. right. eauto.
Qed.

Lemma substring_0_all s : substring s 0 (length s) = s.
Proof.
  rewrite <- (app_empty_r s) at 1. rewrite <- (app_empty_r s) at 3.
  rewrite substring_0_app. by rewrite app_empty_r.
Qed.

Lemma substring_from_all s : substring_from s (length s) = EmptyString.
Proof.
  rewrite <- (app_empty_r s) at 1. apply substring_from_app.
Qed.

(** What the tokens of an instance hold. *)
Lemma tokens_of_later tv k v (pieces : list Template.piece) :
  tv !! k = Some v →
  Forall (fun q => Template.key q ≠ k) pieces →
  foldl (fun tokenValues p =>
           set_property (Template.key p) (Template.val p) tokenValues)
    tv pieces !! k = Some v.
Proof.
  revert tv. induction pieces as [|q rest IH]; intros tv Htv Hno; [done|].
  inversion Hno as [|? ? Hq Hrest]; subst. simpl. apply IH; [|done].
  by rewrite set_property_lookup_ne.
Qed.

Lemma tokens_of_proto tv (pieces : list Template.piece) :
  tv !! "__proto__" = None →
  foldl (fun tokenValues p =>
           set_property (Template.key p) (Template.val p) tokenValues)
    tv pieces !! "__proto__" = None.
Proof.
  revert tv. induction pieces as [|q rest IH]; intros tv Htv; [done|].
  simpl. by apply IH, set_property_proto.
Qed.

Lemma tokens_of_named tv k (pieces : list Template.piece) :
  foldl (fun tokenValues p =>
           set_property (Template.key p) (Template.val p) tokenValues)
    tv pieces !! k ≠ None →
  tv !! k ≠ None ∨ ∃ p, p ∈ pieces ∧ Template.key p = k.
Proof.
  revert tv. induction pieces as [|q rest IH]; intros tv; simpl; [by left|].
  intros Hk. destruct (IH _ Hk) as [Hset|(p & Hp & Hkey)].
  - destruct (decide (Template.key q = k)) as [Hq|Hq].
    + right. exists q. split; [apply list_elem_of_here|done].
    + left. by rewrite set_property_lookup_ne in Hset.
  - right. exists p. split; [by apply list_elem_of_further|done].
Qed.

(** The loop on an instance of a template whose placeholders end at a
    slash or at the end. *)
Lemma token_loop_from_template tv pieces tail :
  Template.delimited pieces tail = true →
  token_loop_from tv (Template.pattern_of pieces tail)
    (Template.url_of pieces tail)
  = foldl (fun tokenValues p =>
             set_property (Template.key p) (Template.val p) tokenValues)
      tv pieces.
Proof.
  revert tv. induction pieces as [|p rest IH]; intros tv; simpl.
  - intros Htail. apply lacks_spec in Htail.
    rewrite token_loop_from_unfold. unfold loop_body. by rewrite Htail.
  - rewrite !andb_true_iff. intros ((((Hlit & Hkey) & Hval) & Hstart) & Hrest).
    apply lacks_spec in Hlit, Hkey, Hval.
    rewrite token_loop_from_unfold.
    rewrite (loop_body_placeholder tv _ _ _ _ Hlit Hkey). cbv zeta.
    rewrite substring_from_app.
    assert (∀ stop,
              stop = length (Template.val p) →
              token_loop_from
                (set_property (Template.key p)
                   (substring (Template.val p +:+ Template.url_of rest tail)
                      0 stop) tv)
                (Template.pattern_of rest tail)
                (substring_from (Template.val p +:+ Template.url_of rest tail)
                   stop)
              = foldl (fun tokenValues q =>
                         set_property (Template.key q) (Template.val q)
                           tokenValues)
                  (set_property (Template.key p) (Template.val p) tv) rest)
      as Hgo.
    { intros stop ->. rewrite substring_0_app, substring_from_app.
      apply IH, Hrest. }
    apply Hgo.
    destruct (template_heads rest tail Hstart) as [[-> ->]|(R & U & -> & ->)].
    + rewrite app_empty_r. rewrite Hval. reflexivity.
    + rewrite (indexOf_app_char _ "/" U Hval).
      pose proof (length_nonneg (Template.val p)) as Hlen.
      destruct (length (Template.val p) <? 0) eqn:E; [lia|].
      cbn [truthy andb]. rewrite Z.geb_leb.
      destruct (0 <=? indexOf _ (String "/" R)) eqn:Hfound; [|reflexivity].
      apply Z.leb_le in Hfound.
      pose proof (indexOf_at_char_le _ "/" R Hfound) as [_ Hle].
      fold (indexOf (Template.val p +:+ String "/" U) "/") in Hle.
      rewrite (indexOf_app_char _ "/" U Hval) in Hle.
      unfold indexOf. lia.
Qed.

End TemplateTokens.

(** X1. Round trip of a template. When every placeholder of a pattern is
    followed by a slash or by the end of the pattern, no literal text of it
    holds an opening brace and no name a closing brace, then from the URL
    that puts a value without a slash in the place of each placeholder
    [getTokenValuesFromUrl] gets these values back: the result is what
    assigning each value under the name of its placeholder, in order, makes
    of an empty object. So a placeholder whose name is not [__proto__] and
    does not come again later has its value in the result; the result has
    no [__proto__] (an assignment under that name sets nothing), and no
    name but those of placeholders. *)
Theorem getTokenValuesFromUrl_round_trip
    (pieces : list Template.piece) (tail : string) :
  Template.delimited pieces tail = true →
  let tokens :=
    getTokenValuesFromUrl (Template.pattern_of pieces tail)
      (Template.url_of pieces tail) in
  tokens = Template.tokens_of pieces
  ∧ (∀ before p after,
       pieces = before ++ p :: after →
       Template.key p ≠ "__proto__" →
       Forall (fun q => Template.key q ≠ Template.key p) after →
       tokens !! Template.key p = Some (Template.val p))
  ∧ tokens !! "__proto__" = None
  ∧ (∀ k, tokens !! k ≠ None → ∃ p, p ∈ pieces ∧ Template.key p = k).
Proof.
  intros Hdelimited. cbv zeta.
  unfold getTokenValuesFromUrl.
  rewrite (token_loop_from_template ∅ pieces tail Hdelimited).
  split; [reflexivity|split; [|split]].
  - intros before p after -> Hkey Hlater.
    rewrite foldl_app. simpl. apply tokens_of_later; [|done].
    by apply set_property_lookup_eq.
  - by apply tokens_of_proto.
  - intros k Hk. apply tokens_of_named in Hk as [Hk|Hk]; [|done].
    by rewrite lookup_empty in Hk.
Qed.

(** The placeholders of [/{__proto__}/{year}/{slug}/edit]. *)
Lemma getTokenValuesFromUrl_round_trip_witness :
  let tokens :=
    getTokenValuesFromUrl "/{__proto__}/{year}/{slug}/edit"
      "/posts/2014/pancakes/edit" in
  tokens = {[ "year" := "2014"; "slug" := "pancakes" ]}
  ∧ tokens !! "slug" = Some "pancakes"
  ∧ tokens !! "__proto__" = None.
Proof.
  cbv zeta.
  destruct (getTokenValuesFromUrl_round_trip
              [Template.mkPiece "/" "__proto__" "posts";
               Template.mkPiece "/" "year" "2014";
               Template.mkPiece "/" "slug" "pancakes"] "/edit")
    as (Htokens & Hlast & Hproto & _); [vm_compute; reflexivity|].
  split; [|split].
  - etransitivity; [exact Htokens|]. vm_compute. reflexivity.
  - apply (Hlast [Template.mkPiece "/" "__proto__" "posts";
                  Template.mkPiece "/" "year" "2014"]
                 (Template.mkPiece "/" "slug" "pancakes") []);
      [reflexivity|discriminate|constructor].
  - exact Hproto.
Defined.

(** ** What the token loop records *)

Section TokenEntries.

Import JsString.

Lemma indexOf_cons_char a s c :
  indexOf (String a s) (String c "") =
  if Ascii.eqb c a then 0
  else if indexOf s (String c "") <? 0 then -1 else 1 + indexOf s (String c "").
Proof.
  unfold indexOf. cbn [indexOf_at String.prefix].
  destruct (ascii_dec c a) as [->|Hne].
  - rewrite Ascii.eqb_refl. by destruct s.
  - apply Ascii.eqb_neq in Hne. rewrite Hne. change (0 + 1) with 1.
    apply indexOf_at_shift.
Qed.

(** The text up to the first [c], the [c], and the text after it. *)
Lemma indexOf_char_split s c :
  0 <= indexOf s (String c "") →
  s = take (Z.to_nat (indexOf s (String c "")))  s
      +:+ String c (drop (S (Z.to_nat (indexOf s (String c "")))) s)
  ∧ indexOf (take (Z.to_nat (indexOf s (String c ""))) s) (String c "") = -1.
Proof.
  induction s as [|a s IH]; [intros H; vm_compute in H; by destruct H|].
  rewrite indexOf_cons_char.
  destruct (Ascii.eqb_spec c a) as [->|Hne]; [by split|].
  pose proof (indexOf_at_ge 0 s (String c "")) as Hge. fold (indexOf s (String c "")) in Hge.
  destruct (indexOf s (String c "") <? 0) eqn:E; [lia|].
  intros _. apply Z.ltb_ge in E. destruct (IH E) as [Hs Hno].
  replace (Z.to_nat (1 + indexOf s (String c "")))
    with (S (Z.to_nat (indexOf s (String c "")))) by lia.
  cbn [take drop]. rewrite append_cons. split; [by f_equal|].
  rewrite indexOf_cons_char, Hno.
  apply Ascii.eqb_neq in Hne. by rewrite Hne.
Qed.

(** Before the first [c] there is no [c]. *)
Lemma take_before_char n s c :
  indexOf s (String c "") < 0 ∨ Z.of_nat n <= indexOf s (String c "") →
  indexOf (take n s) (String c "") = -1.
Proof.
  revert s. induction n as [|n IH]; intros [|a s]; try reflexivity.
  rewrite indexOf_cons_char. cbn [take]. rewrite indexOf_cons_char.
  destruct (Ascii.eqb c a); [lia|].
  pose proof (indexOf_at_ge 0 s (String c "")) as Hge.
  fold (indexOf s (String c "")) in Hge.
  intros H. rewrite IH; [reflexivity|].
  destruct (indexOf s (String c "") <? 0) eqn:E; lia.
Qed.

Lemma drop_drop n m s : drop n (drop m s) = drop (m + n) s.
Proof.
  revert s. induction m as [|m IH]; intros s; [reflexivity|].
  destruct s as [|a s]; simpl; [by destruct n|apply IH].
Qed.

(** A pass that goes round again has found a placeholder in the pattern,
    with no brace before it, and a stretch of the URL without a slash; it
    records the one under the other and leaves what comes after them. *)
Lemma loop_body_step tv p u tv' p' u' :
  loop_body tv p u = Continue tv' p' u' →
  ∃ pre name upre val,
    p = pre +:+ "{" +:+ name +:+ "}" +:+ p'
    ∧ u = upre +:+ val +:+ u'
    ∧ tv' = set_property name val tv
    ∧ indexOf pre "{" = -1 ∧ indexOf name "}" = -1 ∧ indexOf val "/" = -1.
Proof.
  unfold loop_body.
  destruct (indexOf p "{" <? 0) eqn:E1; [discriminate|].
  apply Z.ltb_ge in E1.
  destruct (indexOf_char_split p "{" E1) as [Hp Hpre].
  set (i := Z.to_nat (indexOf p "{")) in *.
  assert (substring_from p (indexOf p "{" + 1) = drop (S i) p) as ->.
  { rewrite substring_from_drop. f_equal.
    pose proof (indexOf_found p "{" E1) as Hf. unfold length in Hf. simpl in Hf.
    rewrite clamp_in_range by (unfold length; lia). lia. }
  set (p1 := drop (S i) p) in *.
  destruct (indexOf p1 "}" <? 0) eqn:E2; [discriminate|].
  apply Z.ltb_ge in E2.
  destruct (indexOf_char_split p1 "}" E2) as [Hp1 Hname].
  set (j := Z.to_nat (indexOf p1 "}")) in *.
  pose proof (indexOf_found p1 "}" E2) as Hf2. unfold length in Hf2. simpl in Hf2.
  assert (substring p1 0 (indexOf p1 "}") = take j p1) as ->.
  { rewrite substring_0_take. f_equal.
    rewrite clamp_in_range by (unfold length; lia). reflexivity. }
  assert ((if indexOf p1 "}" =? length p1 - 1 then EmptyString
           else substring_from p1 (indexOf p1 "}" + 1)) = drop (S j) p1) as ->.
  { assert (substring_from p1 (indexOf p1 "}" + 1) = drop (S j) p1) as ->.
    { rewrite substring_from_drop. f_equal.
      rewrite clamp_in_range by (unfold length; lia). lia. }
    destruct (indexOf p1 "}" =? length p1 - 1) eqn:E; [|reflexivity].
    apply Z.eqb_eq in E. unfold length in E.
    pose proof (drop_length (S j) p1) as Hd.
    destruct (drop (S j) p1); [reflexivity|simpl in Hd; lia]. }
  set (url1 := substring_from u (indexOf p "{")).
  set (slash := indexOf url1 "/").
  set (stop0 := if slash <? 0 then length url1 else slash).
  set (stop := if truthy (drop (S j) p1) && (indexOf url1 (drop (S j) p1) >=? 0)
               then Z.min stop0 (indexOf url1 (drop (S j) p1)) else stop0).
  intros [= <- <- <-].
  exists (take i p), (take j p1), (take (clamp u (indexOf p "{")) u),
         (substring url1 0 stop).
  split; [|split; [|split; [reflexivity|split; [exact Hpre|split; [exact Hname|]]]]].
  - rewrite Hp at 1. change ("{" +:+ ?x) with (String "{" x). f_equal. f_equal.
    fold p1. rewrite Hp1 at 1. reflexivity.
  - rewrite substring_0_take, (substring_from_drop url1).
    rewrite take_drop. unfold url1. rewrite substring_from_drop.
    by rewrite take_drop.
  - rewrite substring_0_take. apply take_before_char. fold slash.
    destruct (slash <? 0) eqn:Es; [left; by apply Z.ltb_lt|right].
    assert (stop <= slash) as Hle.
    { unfold stop, stop0. destruct (truthy _ && _); lia. }
    apply Z.ltb_ge in Es. unfold clamp. lia.
Qed.

(** Every entry of the result was there when the loop was entered, or is
    the name of a placeholder of the pattern with a stretch of the URL that
    holds no slash. *)
Lemma token_loop_from_entries (pattern0 url0 : string) n tv p u :
  (String.length p < n)%nat →
  (∃ ppre, pattern0 = ppre +:+ p) →
  (∃ upre, url0 = upre +:+ u) →
  ∀ k v, token_loop_from tv p u !! k = Some v →
         tv !! k = Some v
         ∨ ((∃ pre post, pattern0 = pre +:+ "{" +:+ k +:+ "}" +:+ post)
            ∧ (∃ pre post, url0 = pre +:+ v +:+ post)
            ∧ indexOf k "}" = -1 ∧ indexOf v "/" = -1).
Proof.
  revert tv p u. induction n as [|n IH]; intros tv p u Hn [ppre Hp] [upre Hu];
    [lia|].
  intros k v. rewrite token_loop_from_unfold.
  destruct (loop_body tv p u) as [r|tv' p' u'] eqn:Hbody.
  - apply loop_body_break in Hbody as ->. by left.
  - pose proof (loop_body_shrinks _ _ _ _ _ _ Hbody) as Hlt.
    apply loop_body_step in Hbody
      as (pre & name & upre' & val & -> & -> & -> & _ & Hname & Hval).
    intros Hk. apply IH in Hk; [|lia| |].
    + destruct Hk as [Hk|Hk]; [|by right].
      apply set_property_lookup in Hk as [[-> ->]|Hk]; [|by left].
      right.
      split; [exists (ppre +:+ pre), p'; by rewrite append_assoc|].
      split; [exists (upre +:+ upre'), u'; by rewrite append_assoc|].
      by split.
    + exists (ppre +:+ pre +:+ "{" +:+ name +:+ "}").
      by rewrite Hp, !append_assoc.
    + exists (upre +:+ upre' +:+ val). by rewrite Hu, !append_assoc.
Qed.

End TokenEntries.

(** X2. Whatever the pattern and the URL, every entry of the result of
    [getTokenValuesFromUrl] has for its key the name of a placeholder that
    stands in the pattern, without a closing brace in it, and for its value
    a stretch of the URL as it was given, without a slash in it. For the
    empty URL every value is empty. *)
Theorem getTokenValuesFromUrl_entries (pattern url k v : string) :
  getTokenValuesFromUrl pattern url !! k = Some v →
  (∃ pre post, pattern = pre +:+ "{" +:+ k +:+ "}" +:+ post)
  ∧ (∃ pre post, url = pre +:+ v +:+ post)
  ∧ JsString.indexOf k "}" = -1
  ∧ JsString.indexOf v "/" = -1
  ∧ (url = EmptyString → v = EmptyString).
Proof.
  intros Hk.
  destruct (token_loop_from_entries pattern url (S (String.length pattern))
              ∅ pattern url (Nat.lt_succ_diag_r _)
              (ex_intro _ EmptyString eq_refl) (ex_intro _ EmptyString eq_refl)
              k v Hk) as [Hempty|(Hkey & Hval & Hbrace & Hslash)].
  - rewrite lookup_empty in Hempty. discriminate.
  - repeat (split; [assumption|]).
    intros ->. destruct Hval as (pre & post & Hv).
    destruct pre; [|discriminate]. destruct v; [reflexivity|discriminate].
Qed.

(** The token of [/files/{name}.txt] on a URL with one segment more. *)
Lemma getTokenValuesFromUrl_entries_witness :
  (∃ pre post, "/files/{name}.txt" = pre +:+ "{" +:+ "name" +:+ "}" +:+ post)
  ∧ (∃ pre post, "/files/a.b/c.txt" = pre +:+ "a.b" +:+ post)
  ∧ JsString.indexOf "name" "}" = -1
  ∧ JsString.indexOf "a.b" "/" = -1
  ∧ ("/files/a.b/c.txt" = EmptyString → "a.b" = EmptyString).
Proof.
  apply (getTokenValuesFromUrl_entries "/files/{name}.txt" "/files/a.b/c.txt"
           "name" "a.b").
  vm_compute. reflexivity.
Defined.


(** ** The source text of a compiled pattern *)

Section PatternSource.

Import JsString.

Lemma indexOf_char_cons a s c :
  indexOf (String a s) (String c "") = -1 →
  a ≠ c ∧ indexOf s (String c "") = -1.
Proof.
  unfold indexOf. cbn [indexOf_at String.prefix].
  destruct (ascii_dec c a) as [->|Hne].
  - destruct s; discriminate.
  - change (0 + 1) with 1. rewrite (indexOf_at_shift 1 s).
    pose proof (indexOf_at_ge 0 s (String c "")).
    destruct (indexOf_at 0 s (String c "") <? 0) eqn:E; [|lia].
    intros _. split; [congruence|]. apply Z.ltb_lt in E. lia.
Qed.

Lemma skip_token_chars_length s :
  (String.length (skip_token_chars s) <= String.length s)%nat.
Proof.
  induction s as [|c s IH]; simpl; [lia|].
  destruct (is_token_char c); simpl; lia.
Qed.

Lemma match_placeholder_length s rest :
  match_placeholder s = Some rest →
  (String.length rest < String.length s)%nat.
Proof.
  destruct s as [|c s]; simpl; [discriminate|].
  destruct (Ascii.eqb_spec c "{") as [->|Hc].
  - pose proof (skip_token_chars_length s) as Hs.
    destruct (skip_token_chars s) as [|d t] eqn:E; [discriminate|].
    destruct (Ascii.eqb_spec d "}") as [->|Hd].
    + intros [= <-]. simpl in Hs. lia.
    + intros H. exfalso. revert H.
      ascii_cases d.
  - intros H. exfalso. revert H.
    ascii_cases c.
Qed.

(** Enough passes: as many as the text has characters. *)
Lemma replace_placeholders_loop_fuel f1 f2 s :
  (String.length s <= f1)%nat → (String.length s <= f2)%nat →
  replace_placeholders_loop f1 s = replace_placeholders_loop f2 s.
Proof.
  revert f2 s. induction f1 as [|f1 IH]; intros f2 s H1 H2.
  - destruct s; [|simpl in H1; lia]. destruct f2; reflexivity.
  - destruct f2 as [|f2].
    + destruct s; [reflexivity|simpl in H2; lia].
    + cbn [replace_placeholders_loop].
      destruct (match_placeholder s) as [rest|] eqn:Hm.
      * apply match_placeholder_length in Hm. f_equal. apply IH; lia.
      * destruct s as [|c s]; [reflexivity|]. simpl in H1, H2.
        f_equal. apply IH; lia.
Qed.

(** The replacement as a scan of the text from left to right. *)
Lemma replace_placeholders_unfold s :
  replace_placeholders s =
  match match_placeholder s with
  | Some rest => token_class +:+ replace_placeholders rest
  | None =>
      match s with
      | EmptyString => EmptyString
      | String c s' => String c (replace_placeholders s')
      end
  end.
Proof.
  unfold replace_placeholders at 1.
  rewrite (replace_placeholders_loop_fuel _ (S (String.length s)) s) by lia.
  cbn [replace_placeholders_loop].
  destruct (match_placeholder s) as [rest|] eqn:Hm.
  - apply match_placeholder_length in Hm. f_equal.
    apply replace_placeholders_loop_fuel; lia.
  - destruct s as [|c s]; [reflexivity|]. f_equal.
    apply replace_placeholders_loop_fuel; simpl; lia.
Qed.

Lemma skip_token_chars_name name rest :
  skip_token_chars name = EmptyString →
  skip_token_chars (name +:+ String "}" rest) = String "}" rest.
Proof.
  induction name as [|c name IH]; simpl; [reflexivity|].
  destruct (is_token_char c); [exact IH|discriminate].
Qed.

Lemma match_placeholder_name name rest :
  skip_token_chars name = EmptyString →
  match_placeholder ("{" +:+ name +:+ "}" +:+ rest) = Some rest.
Proof.
  intros Hname. change ("{" +:+ name +:+ "}" +:+ rest)
    with (String "{" (name +:+ String "}" rest)).
  cbn [match_placeholder]. rewrite (skip_token_chars_name _ _ Hname).
  reflexivity.
Qed.

Lemma match_placeholder_other c s : c ≠ "{"%char → match_placeholder (String c s) = None.
Proof.
  intros Hc. ascii_cases c.
Qed.

(** Literal text without an opening brace is copied. *)
Lemma replace_placeholders_literal lit s :
  indexOf lit "{" = -1 →
  replace_placeholders (lit +:+ s) = lit +:+ replace_placeholders s.
Proof.
  induction lit as [|c lit IH]; intros Hlit; [reflexivity|].
  apply indexOf_char_cons in Hlit as [Hc Hlit].
  rewrite replace_placeholders_unfold.
  change (String c lit +:+ s) with (String c (lit +:+ s)).
  change (String c lit +:+ replace_placeholders s)
    with (String c (lit +:+ replace_placeholders s)).
  rewrite match_placeholder_other by exact Hc.
  f_equal. apply IH, Hlit.
Qed.

(** The class members at the head of a text that a placeholder follows. *)
Lemma skip_token_chars_app s rest :
  skip_token_chars (s +:+ String "{" rest) =
  match skip_token_chars s with
  | EmptyString => String "{" rest
  | String d r => String d (r +:+ String "{" rest)
  end.
Proof.
  induction s as [|c s IH]; [reflexivity|].
  rewrite append_cons. simpl. destruct (is_token_char c); [exact IH|reflexivity].
Qed.

(** A match at the head of a text is the same match when a placeholder
    follows the text. *)
Lemma match_placeholder_app c s rest :
  match_placeholder (String c s +:+ String "{" rest) =
  (fun r => r +:+ String "{" rest) <$> match_placeholder (String c s).
Proof.
  rewrite append_cons.
  destruct (Ascii.eqb_spec c "{") as [->|Hc];
    [|by rewrite !match_placeholder_other].
  cbn [match_placeholder]. rewrite skip_token_chars_app.
  destruct (skip_token_chars s) as [|d r]; [reflexivity|].
  ascii_cases d.
Qed.

Lemma replace_placeholders_empty : replace_placeholders "" = "".
Proof. reflexivity. Qed.

(** A placeholder wherever it stands: the text before it and the text after
    it are replaced each on its own. *)
Lemma replace_placeholders_placeholder pre name post :
  skip_token_chars name = EmptyString →
  replace_placeholders (pre +:+ "{" +:+ name +:+ "}" +:+ post)
  = replace_placeholders pre +:+ token_class +:+ replace_placeholders post.
Proof.
  intros Hname.
  remember (String.length pre) as n eqn:Hn.
  revert pre Hn. induction n as [n IH] using lt_wf_ind. intros pre Hn.
  destruct pre as [|c pre].
  - rewrite append_nil, replace_placeholders_unfold.
    rewrite (match_placeholder_name _ _ Hname). reflexivity.
  - change ("{" +:+ name +:+ "}" +:+ post)
      with (String "{" (name +:+ "}" +:+ post)) in *.
    rewrite replace_placeholders_unfold, match_placeholder_app.
    rewrite (replace_placeholders_unfold (String c pre)).
    destruct (match_placeholder (String c pre)) as [r|] eqn:Hm;
      cbn [fmap option_fmap option_map]; cbv iota beta.
    + apply match_placeholder_length in Hm.
      assert (String.length r < n)%nat as Hr by (subst n; exact Hm).
      rewrite (IH (String.length r) Hr r eq_refl).
      by rewrite append_assoc.
    + rewrite !append_cons. f_equal.
      apply (IH (String.length pre)); [subst n; simpl; lia|reflexivity].
Qed.

Lemma escape_slashes_app s t :
  escape_slashes (s +:+ t) = escape_slashes s +:+ escape_slashes t.
Proof.
  induction s as [|c s IH]; [reflexivity|].
  rewrite append_cons.
  destruct (Ascii.eqb_spec c "/") as [->|Hc].
  - cbn [escape_slashes]. rewrite IH. reflexivity.
  - replace (escape_slashes (String c (s +:+ t)))
      with (String c (escape_slashes (s +:+ t)))
      by ascii_cases c.
    replace (escape_slashes (String c s)) with (String c (escape_slashes s))
      by ascii_cases c.
    rewrite IH. reflexivity.
Qed.

(** Every slash of the escaped text, with any tail that has none, stands
    after a backslash. *)
Local Abbreviation slashes_escaped s :=
  (∀ i, String.get i s = Some "/"%char →
        ∃ j, i = S j ∧ String.get j s = Some "\"%char).


End PatternSource.

(** A text of class members only is one that [skip_token_chars] uses up. *)
Lemma skip_token_chars_all s :
  skip_token_chars s = EmptyString ↔
  forallb is_token_char (list_ascii_of_string s) = true.
Proof.
  induction s as [|c s IH]; simpl; [done|].
  destruct (is_token_char c); simpl; [exact IH|]. split; discriminate.
Qed.

(** ** The regex of a template *)

Section TemplateRegex.

Import JsString.

Lemma all_chars_cons f c s :
  Template.all_chars f (String c s) = f c && Template.all_chars f s.
Proof. reflexivity. Qed.

Lemma all_chars_app f s t :
  Template.all_chars f (s +:+ t)
  = Template.all_chars f s && Template.all_chars f t.
Proof.
  induction s as [|c s IH]; [reflexivity|].
  by rewrite append_cons, !all_chars_cons, IH, andb_assoc.
Qed.

Lemma plain_not_brace lit :
  Template.all_chars Fragment.is_plain lit = true → indexOf lit "{" = -1.
Proof.
  induction lit as [|c lit IH]; [reflexivity|].
  rewrite all_chars_cons, andb_true_iff. intros [Hc Hlit].
  rewrite indexOf_cons_char, (IH Hlit).
  destruct (Ascii.eqb_spec "{" c) as [<-|]; [discriminate|reflexivity].
Qed.

Lemma replace_placeholders_plain lit :
  Template.all_chars Fragment.is_plain lit = true →
  replace_placeholders lit = lit.
Proof.
  intros Hlit. pose proof (plain_not_brace lit Hlit) as Hno.
  rewrite <- (app_empty_r lit) at 1.
  rewrite (replace_placeholders_literal lit "" Hno). apply app_empty_r.
Qed.

Lemma template_body pieces tail :
  Template.literal pieces tail = true →
  escape_slashes (replace_placeholders (Template.pattern_of pieces tail))
  = Template.body_of pieces tail.
Proof.
  induction pieces as [|p rest IH]; simpl.
  - intros Htail. by rewrite replace_placeholders_plain.
  - rewrite !andb_true_iff. intros [[Hlit Hkey] Hrest].
    apply skip_token_chars_all in Hkey.
    rewrite (replace_placeholders_placeholder _ _ _ Hkey).
    rewrite (replace_placeholders_plain _ Hlit), !escape_slashes_app.
    by rewrite (IH Hrest).
Qed.

(** A plain character parses as itself, the slash after its backslash
    too, and the token class as the class, unless a quantifier follows. *)
Lemma parse_body_plain_char c s fuel :
  Fragment.is_plain c = true → c ≠ "/"%char →
  Fragment.parse_body (S fuel) (String c s)
  = Fragment.add_atom (Fragment.Lit c) (Fragment.parse_body fuel s).
Proof. intros Hc Hslash. ascii_cases c. Qed.

Lemma parse_body_slash s fuel :
  Fragment.parse_body (S fuel) (String "\" (String "/" s))
  = Fragment.add_atom (Fragment.Lit "/") (Fragment.parse_body fuel s).
Proof. reflexivity. Qed.

Lemma parse_body_token_class s fuel :
  Fragment.parse_body (S fuel) (token_class +:+ s)
  = if Fragment.repeats s then Fragment.Invalid
    else Fragment.add_atom Fragment.TokenPlus (Fragment.parse_body fuel s).
Proof. reflexivity. Qed.

Lemma parse_body_literal lit rest atoms :
  Template.all_chars Fragment.is_plain lit = true →
  (∀ fuel, (String.length rest < fuel)%nat →
           Fragment.parse_body fuel rest = Fragment.Atoms atoms) →
  ∀ fuel, (String.length (escape_slashes lit +:+ rest) < fuel)%nat →
          Fragment.parse_body fuel (escape_slashes lit +:+ rest)
          = Fragment.Atoms
              (map Fragment.Lit (list_ascii_of_string lit) ++ atoms).
Proof.
  intros Hlit Hrest. induction lit as [|c lit IH]; [exact Hrest|].
  rewrite all_chars_cons, andb_true_iff in Hlit. destruct Hlit as [Hc Hlit].
  specialize (IH Hlit). intros [|fuel] Hfuel; [lia|].
  destruct (Ascii.eqb_spec c "/") as [->|Hslash].
  - change (escape_slashes (String "/" lit) +:+ rest)
      with (String "\" (String "/" (escape_slashes lit +:+ rest))) in *.
    rewrite parse_body_slash, IH by (simpl in Hfuel; lia). reflexivity.
  - assert (escape_slashes (String c lit) = String c (escape_slashes lit)) as Hesc
      by ascii_cases c.
    rewrite Hesc, append_cons in *.
    rewrite (parse_body_plain_char c _ fuel Hc Hslash),
            IH by (simpl in Hfuel; lia).
    reflexivity.
Qed.

(** No quantifier stands at the head of the text of a template. *)
Lemma repeats_escaped lit rest :
  Template.all_chars Fragment.is_plain lit = true →
  Fragment.repeats rest = false →
  Fragment.repeats (escape_slashes lit +:+ rest) = false.
Proof.
  destruct lit as [|c lit]; [done|].
  rewrite all_chars_cons, andb_true_iff. intros [Hc _] _. ascii_cases c.
Qed.

Lemma repeats_body pieces tail :
  Template.literal pieces tail = true →
  Fragment.repeats (Template.body_of pieces tail) = false.
Proof.
  destruct pieces as [|p rest]; simpl.
  - intros Htail. rewrite <- (app_empty_r (escape_slashes tail)).
    by apply repeats_escaped.
  - rewrite !andb_true_iff. intros [[Hlit _] _]. by apply repeats_escaped.
Qed.

(** The text of a template parses into the atoms of the template. *)
Lemma parse_body_template pieces tail :
  Template.literal pieces tail = true →
  ∀ fuel, (String.length (Template.body_of pieces tail) < fuel)%nat →
          Fragment.parse_body fuel (Template.body_of pieces tail)
          = Fragment.Atoms (Template.atoms_of pieces tail).
Proof.
  induction pieces as [|p rest IH]; simpl.
  - intros Htail fuel Hfuel.
    rewrite <- (app_empty_r (escape_slashes tail)),
            <- (app_nil_r (map _ _)).
    apply parse_body_literal; [exact Htail| |by rewrite app_empty_r].
    intros [|fuel']; [simpl; lia|reflexivity].
  - rewrite !andb_true_iff. intros [[Hlit Hkey] Hrest].
    apply parse_body_literal; [exact Hlit|].
    intros [|fuel] Hfuel; [lia|].
    rewrite parse_body_token_class, (repeats_body _ _ Hrest).
    rewrite (IH Hrest); [reflexivity|].
    rewrite app_length in Hfuel. simpl in Hfuel. lia.
Qed.

Lemma anchored_body_ok body :
  Fragment.anchored_body ("^" +:+ body +:+ "$") = Some body.
Proof.
  change ("^" +:+ body +:+ "$") with (String "^" (body +:+ "$")).
  unfold Fragment.anchored_body.
  rewrite app_length. simpl String.length.
  replace (String.length body + 1)%nat with (S (String.length body)) by lia.
  by rewrite drop_app, take_app.
Qed.

Lemma parse_template pieces tail :
  Template.literal pieces tail = true →
  Fragment.parse
    ("^" +:+ escape_slashes
               (replace_placeholders (Template.pattern_of pieces tail))
     +:+ "$")
  = Fragment.Atoms (Template.atoms_of pieces tail).
Proof.
  intros Hliteral. unfold Fragment.parse.
  rewrite anchored_body_ok, (template_body _ _ Hliteral).
  apply parse_body_template; [exact Hliteral|lia].
Qed.

(** Literal atoms take the literal text they are made of, and nothing
    else. *)
Lemma matches_literal lit atoms s :
  Fragment.matches (map Fragment.Lit (list_ascii_of_string lit) ++ atoms)
    (lit +:+ s)
  = Fragment.matches atoms s.
Proof.
  induction lit as [|c lit IH]; [reflexivity|].
  rewrite append_cons. cbn [list_ascii_of_string map app Fragment.matches].
  by rewrite Ascii.eqb_refl.
Qed.

Lemma matches_literal_inv lit atoms s :
  Fragment.matches (map Fragment.Lit (list_ascii_of_string lit) ++ atoms) s
  = true →
  ∃ s', s = lit +:+ s' ∧ Fragment.matches atoms s' = true.
Proof.
  revert s. induction lit as [|c lit IH]; intros s; [by exists s|].
  cbn [list_ascii_of_string map app Fragment.matches].
  destruct s as [|d s]; [discriminate|].
  rewrite andb_true_iff. intros [Hc Hrest].
  apply Ascii.eqb_eq in Hc as <-.
  destruct (IH _ Hrest) as (s' & -> & Hs'). by exists s'.
Qed.

Lemma matches_nil_inv s : Fragment.matches [] s = true → s = EmptyString.
Proof. by destruct s. Qed.

(** The class takes a value of class members, one at least, when the rest
    of the atoms take the rest of the text; and what the class with atoms
    after it takes is such a value and a text that the atoms take. *)
Lemma matches_token_value v atoms s :
  Template.class_value v = true →
  Fragment.matches atoms s = true →
  Fragment.matches (Fragment.TokenPlus :: atoms) (v +:+ s) = true.
Proof.
  unfold Template.class_value. rewrite andb_true_iff.
  intros [Hv Hall] Hrest. destruct v as [|c v]; [discriminate|clear Hv].
  rewrite all_chars_cons, andb_true_iff in Hall. destruct Hall as [Hc Hall].
  rewrite append_cons. cbn [Fragment.matches]. rewrite Hc. cbn [andb].
  induction v as [|d v IH].
  - rewrite append_nil. destruct s as [|e s]; [exact Hrest|].
    rewrite Hrest. by destruct (is_token_char e); rewrite ?orb_true_r.
  - rewrite all_chars_cons, andb_true_iff in Hall. destruct Hall as [Hd Hall].
    rewrite append_cons, Hd, (IH Hall). reflexivity.
Qed.

Lemma matches_token_value_inv atoms s :
  Fragment.matches (Fragment.TokenPlus :: atoms) s = true →
  ∃ v s',
    s = v +:+ s' ∧ Template.class_value v = true
    ∧ Fragment.matches atoms s' = true.
Proof.
  destruct s as [|c s]; [discriminate|].
  cbn [Fragment.matches]. rewrite andb_true_iff. intros [Hc Hmany].
  assert (∃ v s', s = v +:+ s' ∧ Template.all_chars is_token_char v = true
                  ∧ Fragment.matches atoms s' = true) as (v & s' & -> & Hv & Hs').
  { clear c Hc. induction s as [|d s IH].
    - exists EmptyString, EmptyString. by repeat split.
    - destruct (is_token_char d) eqn:Hd.
      + apply orb_true_iff in Hmany as [Hmany|Hhere].
        * destruct (IH Hmany) as (v & s' & -> & Hv & Hs').
          exists (String d v), s'. rewrite all_chars_cons, Hd. by repeat split.
        * exists EmptyString, (String d s). by repeat split.
      + exists EmptyString, (String d s). by repeat split. }
  exists (String c v), s'. unfold Template.class_value.
  rewrite all_chars_cons, Hc. by repeat split.
Qed.

(** The atoms of a template take the instances of the template and
    nothing else. *)
Lemma matches_template pieces tail s :
  Fragment.matches (Template.atoms_of pieces tail) s = true
  ↔ Template.instance pieces tail s.
Proof.
  revert s. induction pieces as [|p rest IH]; intros s; simpl.
  - split.
    + intros Hm. rewrite <- (app_nil_r (map _ _)) in Hm.
      apply matches_literal_inv in Hm as (s' & -> & Hs').
      apply matches_nil_inv in Hs' as ->.
      exists []. repeat split; [constructor|]. simpl. apply app_empty_r.
    + intros (values & Hlen & _ & ->).
      destruct values; [|discriminate]. simpl.
      rewrite <- (app_empty_r tail) at 2.
      rewrite <- (app_nil_r (map _ _)). by rewrite matches_literal.
  - split.
    + intros Hm.
      apply matches_literal_inv in Hm as (s1 & -> & Hm).
      apply matches_token_value_inv in Hm as (v & s2 & -> & Hv & Hm).
      apply IH in Hm as (values & Hlen & Hvalues & ->).
      exists (v :: values). simpl. repeat split; [by rewrite Hlen|].
      by constructor.
    + intros (values & Hlen & Hvalues & ->).
      destruct values as [|v values]; [discriminate|].
      inversion Hvalues as [|? ? Hv Hrest]; subst. simpl.
      rewrite matches_literal. apply matches_token_value; [exact Hv|].
      apply IH. exists values. repeat split; [|exact Hrest].
      simpl in Hlen. by injection Hlen.
Qed.

(** An instance of a template, with the values that it has. *)
Lemma plain_literal pieces tail :
  Template.plain pieces tail = true → Template.literal pieces tail = true.
Proof.
  induction pieces as [|p rest IH]; simpl; [done|].
  rewrite !andb_true_iff. intros ((((Hlit & Hkey) & _) & _) & Hrest).
  by rewrite Hlit, Hkey, IH.
Qed.

Lemma plain_instance pieces tail :
  Template.plain pieces tail = true →
  Template.instance pieces tail (Template.url_of pieces tail).
Proof.
  intros Hplain. exists (map Template.val pieces).
  split; [by rewrite length_map|]. split.
  - induction pieces as [|p rest IH]; [constructor|].
    simpl in Hplain. rewrite !andb_true_iff in Hplain.
    destruct Hplain as ((((_ & _) & Hv) & Hall) & Hrest).
    constructor; [|by apply IH].
    unfold Template.class_value. by rewrite Hv, Hall.
  - clear Hplain. induction pieces as [|p rest IH]; [reflexivity|].
    simpl. by rewrite <- IH.
Qed.

End TemplateRegex.

(** The engine of the fragment agrees with the fragment. *)
Lemma Fragment_engine_agrees : Fragment.agrees Fragment.engine.
Proof.
  intros pattern. cbn [RegExp_syntax_error RegExp_test Fragment.engine].
  unfold Fragment.test. cbn [source].
  destruct (Fragment.parse pattern); done.
Qed.

(** What [convertUrlPatternToRegex] answers for an engine that agrees with
    the fragment, on the pattern of a template. *)
Lemma convertUrlPatternToRegex_template `{engine : RegExpEngine}
    pieces tail :
  Fragment.agrees engine →
  Template.literal pieces tail = true →
  ∃ urlRegex,
    convertUrlPatternToRegex (Template.pattern_of pieces tail)
    = Return urlRegex
    ∧ ∀ s, RegExp_test urlRegex s
           = Fragment.matches (Template.atoms_of pieces tail) s.
Proof.
  intros Hagrees Hliteral.
  unfold convertUrlPatternToRegex, RegExp_new.
  specialize (Hagrees ("^" +:+ escape_slashes
                         (replace_placeholders (Template.pattern_of pieces tail))
                       +:+ "$")).
  rewrite (parse_template _ _ Hliteral) in Hagrees.
  destruct Hagrees as [-> Htest]. eauto.
Qed.




(** X3. The regex that [convertUrlPatternToRegex] makes of a pattern takes
    the instances of the pattern: when the literal text of the pattern is
    made of characters that stand for themselves in a regular expression
    (letters, digits, the slash and some punctuation) and the names of its
    placeholders of class members, then an engine that agrees with the
    fragment takes the compiled text, and the regex matches every URL that
    has the same literal text and, in the place of each placeholder, a
    value of one or more class members (alphanumeric, hyphen, underscore
    or tilde). *)
Theorem convertUrlPatternToRegex_matches_instances `{engine : RegExpEngine}
    (pieces : list Template.piece) (tail : string) :
  Fragment.agrees engine →
  Template.plain pieces tail = true →
  ∃ urlRegex,
    convertUrlPatternToRegex (Template.pattern_of pieces tail)
    = Return urlRegex
    ∧ RegExp_test urlRegex (Template.url_of pieces tail) = true.
Proof.
  intros Hagrees Hplain.
  destruct (convertUrlPatternToRegex_template pieces tail Hagrees
              (plain_literal _ _ Hplain)) as (urlRegex & Hregex & Htest).
  exists urlRegex. split; [exact Hregex|].
  rewrite Htest. apply matches_template. by apply plain_instance.
Qed.

(** The regex of [/{year}/{slug}-{page}/edit] takes [/2014/my-post-2/edit],
    where the class has to give characters back. *)
Lemma convertUrlPatternToRegex_matches_instances_witness :
  ∃ urlRegex,
    convertUrlPatternToRegex (engine := Fragment.engine)
      "/{year}/{slug}-{page}/edit"
    = Return urlRegex
    ∧ RegExp_test (RegExpEngine := Fragment.engine) urlRegex
        "/2014/my-post-2/edit" = true.
Proof.
  apply (convertUrlPatternToRegex_matches_instances
           (engine := Fragment.engine)
           [Template.mkPiece "/" "year" "2014";
            Template.mkPiece "/" "slug" "my-post";
            Template.mkPiece "-" "page" "2"] "/edit").
  - exact Fragment_engine_agrees.
  - vm_compute. reflexivity.
Defined.

(** ** getRoutes *)

Section Each.

Context {A B : Type}.
Implicit Types (f : A → completion (list B)) (g : A → completion B).

Lemma each_app f l1 l2 :
  each f (l1 ++ l2)
  = match each f l1 with
    | Throw e => Throw e
    | Return pushed1 =>
        match each f l2 with
        | Throw e => Throw e
        | Return pushed2 => Return (pushed1 ++ pushed2)
        end
    end.
Proof.
  induction l1 as [|a l1 IH]; simpl.
  - by destruct (each f l2).
  - destruct (f a) as [pushed|e]; [|reflexivity]. rewrite IH.
    destruct (each f l1) as [pushed1|e]; [|reflexivity].
    destruct (each f l2) as [pushed2|e]; [|reflexivity].
    by rewrite app_assoc.
Qed.

(** A walk whose callback pushes one element, or throws. *)
Lemma each_one_returns f g l out :
  (∀ a, f a = match g a with
              | Throw e => Throw e
              | Return b => Return [b]
              end) →
  each f l = Return out ↔ Forall2 (fun a b => g a = Return b) l out.
Proof.
  intros Hf. revert out. induction l as [|a l IH]; intros out; simpl.
  - split; [intros [= <-]; constructor|]. by inversion 1.
  - rewrite Hf. destruct (g a) as [b|e] eqn:Hga.
    + destruct (each f l) as [pushed|e].
      * split.
        -- intros [= <-]. constructor; [exact Hga|]. by apply IH.
        -- inversion 1 as [|? c ? out' Hc Hrest]; subst.
           rewrite Hga in Hc. injection Hc as <-.
           apply IH in Hrest. by injection Hrest as <-.
      * split; [discriminate|].
        inversion 1 as [|? c ? out' Hc Hrest]; subst.
        by apply IH in Hrest.
    + split; [discriminate|].
      inversion 1 as [|? c ? out' Hc Hrest]; subst. congruence.
Qed.

(** The walk throws what the callback throws on the first element that
    it throws on. *)
Lemma each_one_throws f g l e :
  (∀ a, f a = match g a with
              | Throw e => Throw e
              | Return b => Return [b]
              end) →
  each f l = Throw e ↔
  ∃ before a after,
    l = before ++ a :: after
    ∧ Forall (fun a' => ∃ b, g a' = Return b) before
    ∧ g a = Throw e.
Proof.
  intros Hf. induction l as [|a l IH]; simpl.
  - split; [discriminate|]. intros (before & a & after & Hl & _).
    by destruct before.
  - rewrite Hf. split.
    + destruct (g a) as [b|e'] eqn:Hga.
      * destruct (each f l) as [pushed|e''] eqn:Hl; [discriminate|].
        intros [= ->].
        destruct (proj1 IH eq_refl) as (before & a' & after & -> & Hbefore & Ha').
        exists (a :: before), a', after. repeat split; [|done].
        constructor; eauto.
      * intros [= ->]. exists [], a, l. by repeat split.
    + intros (before & a' & after & Heq & Hbefore & Ha').
      destruct before as [|a0 before]; simplify_eq/=.
      * by rewrite Ha'.
      * inversion Hbefore as [|? ? [b Hb] Hbefore']; subst. rewrite Hb.
        assert (each f (before ++ a' :: after) = Throw e) as ->; [|done].
        apply IH. eauto 6.
Qed.

End Each.

Section Compiling.

Context `{engine : RegExpEngine}.

Lemma templates_urls appConfig :
  map snd (templates appConfig)
  = concat (map RouteDecl.urls (AppConfig.routes appConfig)).
Proof.
  unfold templates.
  induction (AppConfig.routes appConfig) as [|route routes IH]; [reflexivity|].
  simpl. rewrite map_app, IH. f_equal.
  induction (RouteDecl.urls route) as [|u us IHu]; [reflexivity|].
  simpl. by f_equal.
Qed.

(** The two loops of [getRoutes] as one walk over the templates. *)
Lemma each_templates appName appConfig :
  each
    (fun route =>
       each
         (fun urlPattern =>
            match compile_route appName appConfig route urlPattern with
            | Throw e => Throw e
            | Return compiled => Return [compiled]
            end)
         (RouteDecl.urls route))
    (AppConfig.routes appConfig)
  = each
      (fun '(route, urlPattern) =>
         match compile_route appName appConfig route urlPattern with
         | Throw e => Throw e
         | Return compiled => Return [compiled]
         end)
      (templates appConfig).
Proof.
  unfold templates.
  induction (AppConfig.routes appConfig) as [|route routes IH]; [reflexivity|].
  simpl. rewrite each_app, IH.
  assert (∀ urls,
            each
              (fun urlPattern =>
                 match compile_route appName appConfig route urlPattern with
                 | Throw e => Throw e
                 | Return compiled => Return [compiled]
                 end) urls
            = each
                (fun '(route, urlPattern) =>
                   match compile_route appName appConfig route urlPattern with
                   | Throw e => Throw e
                   | Return compiled => Return [compiled]
                   end) (map (pair route) urls)) as ->; [|reflexivity].
  intros urls. induction urls as [|u us IHu]; [reflexivity|].
  simpl. by rewrite IHu.
Qed.

(** What [getRoutes] does without the cache: it compiles the templates of
    the configuration, and stores the routes when none has thrown. *)
Lemma getRoutes_fresh appName st appConfig :
  appRouteCache st !! appName = None →
  appConfigs st !! appName = Some appConfig →
  getRoutes appName st
  = match each
            (fun '(route, urlPattern) =>
               match compile_route appName appConfig route urlPattern with
               | Throw e => Throw e
               | Return compiled => Return [compiled]
               end)
            (templates appConfig)
    with
    | Throw e => (Throw e, st)
    | Return routes =>
        (Return routes,
         set_appRouteCache (<[appName := routes]> (appRouteCache st)) st)
    end.
Proof.
  intros Hcache Hconfig. unfold getRoutes.
  by rewrite Hcache, Hconfig, each_templates.
Qed.

(** The routes that a call without the cache returns: one for each
    template, made of the template, its route and its regex. *)
Lemma getRoutes_compiled appName st appConfig routes st1 :
  appRouteCache st !! appName = None →
  appConfigs st !! appName = Some appConfig →
  getRoutes appName st = (Return routes, st1) →
  Forall2
    (fun '(route, urlPattern) compiledRoute =>
       ∃ urlRegex,
         convertUrlPatternToRegex urlPattern = Return urlRegex
         ∧ compiledRoute
           = route_object appName appConfig route urlPattern urlRegex)
    (templates appConfig) routes
  ∧ st1 = set_appRouteCache (<[appName := routes]> (appRouteCache st)) st.
Proof.
  intros Hcache Hconfig. rewrite (getRoutes_fresh _ _ _ Hcache Hconfig).
  destruct (each _ _) as [pushed|e] eqn:Heach; [|discriminate].
  intros [= -> <-]. split; [|reflexivity].
  apply (each_one_returns _ (fun '(route, urlPattern) =>
           compile_route appName appConfig route urlPattern)) in Heach;
    [|by intros []].
  eapply Forall2_impl; [exact Heach|].
  intros [route urlPattern] compiledRoute. unfold compile_route.
  destruct (convertUrlPatternToRegex urlPattern) as [urlRegex|e];
    [|discriminate].
  intros [= <-]. eauto.
Qed.

(** A call without the cache returns when the engine takes the text of
    every template. *)
Lemma getRoutes_returns_iff appName st appConfig :
  appRouteCache st !! appName = None →
  appConfigs st !! appName = Some appConfig →
  (∃ routes st1, getRoutes appName st = (Return routes, st1))
  ↔ Forall (fun urlPattern =>
              ∃ urlRegex, convertUrlPatternToRegex urlPattern = Return urlRegex)
      (concat (map RouteDecl.urls (AppConfig.routes appConfig))).
Proof.
  intros Hcache Hconfig. rewrite <- templates_urls. split.
  - intros (routes & st1 & Hcall).
    destruct (getRoutes_compiled _ _ _ _ _ Hcache Hconfig Hcall) as [Hall _].
    clear Hcall. induction Hall as [|[route urlPattern] c ts cs Hc _ IH];
      [constructor|].
    simpl. constructor; [|exact IH]. destruct Hc as (urlRegex & Hre & _). eauto.
  - intros Hall. rewrite (getRoutes_fresh _ _ _ Hcache Hconfig).
    destruct (each _ _) as [pushed|e] eqn:Heach; [eauto|].
    apply (each_one_throws _ (fun '(route, urlPattern) =>
             compile_route appName appConfig route urlPattern)) in Heach;
      [|by intros []].
    destruct Heach as (before & [route urlPattern] & after & Heq & _ & Hthrow).
    rewrite Heq, map_app in Hall. apply Forall_app in Hall as [_ Hall].
    inversion Hall as [|? ? [urlRegex Hre] _]; subst.
    unfold compile_route in Hthrow. simpl in Hre. by rewrite Hre in Hthrow.
Qed.

Lemma getRoutes_routeInfoCache appName st :
  routeInfoCache (getRoutes appName st).2 = routeInfoCache st.
Proof.
  unfold getRoutes.
  destruct (appRouteCache st !! appName); [reflexivity|].
  destruct (appConfigs st !! appName); [|reflexivity].
  by destruct (each _ _).
Qed.

(** A call that throws has found no routes in the cache and leaves the
    state as it was. *)
Lemma getRoutes_throws appName st e st1 :
  getRoutes appName st = (Throw e, st1) →
  st1 = st ∧ appRouteCache st !! appName = None.
Proof.
  unfold getRoutes.
  destruct (appRouteCache st !! appName); [discriminate|].
  destruct (appConfigs st !! appName); [|by intros [= _ <-]].
  destruct (each _ _); [discriminate|]. by intros [= _ <-].
Qed.

(** After a call that returned, the routes are in the cache. *)
Lemma getRoutes_returns appName st routes st1 :
  getRoutes appName st = (Return routes, st1) →
  appRouteCache st1 !! appName = Some routes
  ∧ appConfigs st1 = appConfigs st
  ∧ routeInfoCache st1 = routeInfoCache st
  ∧ (∀ other, other ≠ appName →
              appRouteCache st1 !! other = appRouteCache st !! other).
Proof.
  unfold getRoutes.
  destruct (appRouteCache st !! appName) as [cached|] eqn:Hc.
  - intros [= <- <-]. by repeat split.
  - destruct (appConfigs st !! appName); [|discriminate].
    destruct (each _ _); [|discriminate].
    intros [= <- <-]. simpl. rewrite lookup_insert_eq.
    repeat split. intros other Hother. by rewrite lookup_insert_ne.
Qed.

End Compiling.

(** X4. [getRoutes] compiles the routes of an app once. After a call that
    returned, a call for the same app returns the same routes and changes
    nothing, whatever [appConfigs] and the route-info cache hold by then:
    a configuration that is replaced, or taken away, after the first call
    is not looked at again. The first call itself leaves [appConfigs], the
    route-info cache and the routes of the other apps as they were. *)
Theorem getRoutes_memoized `{engine : RegExpEngine} (appName : string)
    (st st1 : state) (routes : list Route.t) :
  getRoutes appName st = (Return routes, st1) →
  (∀ appConfigs' routeInfoCache',
     let later := mkState appConfigs' (appRouteCache st1) routeInfoCache' in
     getRoutes appName later = (Return routes, later))
  ∧ appConfigs st1 = appConfigs st
  ∧ routeInfoCache st1 = routeInfoCache st
  ∧ (∀ other, other ≠ appName →
              appRouteCache st1 !! other = appRouteCache st !! other).
Proof.
  intros Hcall.
  destruct (getRoutes_returns _ _ _ _ Hcall) as (Hcached & Hrest).
  split; [|exact Hrest].
  intros appConfigs' routeInfoCache'. cbv zeta. unfold getRoutes. simpl.
  by rewrite Hcached.
Qed.

(** The blog's routes, asked for again after the configuration is gone. *)
Lemma getRoutes_memoized_witness :
  let first := getRoutes (engine := Fragment.engine) "blog" Fixture.initial in
  getRoutes (engine := Fragment.engine) "blog"
    (mkState ∅ (appRouteCache first.2) ∅)
  = (first.1, mkState ∅ (appRouteCache first.2) ∅).
Proof.
  cbv zeta.
  destruct (getRoutes (engine := Fragment.engine) "blog" Fixture.initial)
    as [result st1] eqn:Hcall.
  assert (∃ routes, result = Return routes) as [routes ->]
    by (vm_compute in Hcall; injection Hcall as <- _; eauto).
  apply (getRoutes_memoized "blog" Fixture.initial st1 _ Hcall).
Defined.

(** X5. The routes that [getRoutes] compiles from a configuration are one
    for each URL template of each route, in the order of the routes and,
    within a route, of its templates; each carries its template as
    [urlPattern], the regex of that template as [urlRegex] and the name and
    the templates of its route. So there are as many as there are
    templates, and none for an app without routes. The call returns them
    when [convertUrlPatternToRegex] returns for every template, and only
    then. *)
Theorem getRoutes_one_per_template `{engine : RegExpEngine}
    (appName : string) (st : state) (appConfig : AppConfig.t) :
  appRouteCache st !! appName = None →
  appConfigs st !! appName = Some appConfig →
  ((∃ routes st1, getRoutes appName st = (Return routes, st1))
   ↔ Forall (fun urlPattern =>
               ∃ urlRegex,
                 convertUrlPatternToRegex urlPattern = Return urlRegex)
       (concat (map RouteDecl.urls (AppConfig.routes appConfig))))
  ∧ ∀ routes st1,
      getRoutes appName st = (Return routes, st1) →
      map Route.urlPattern routes
      = concat (map RouteDecl.urls (AppConfig.routes appConfig))
      ∧ Forall compiled routes
      ∧ map Route.name routes
        = concat (map (fun route =>
                         map (fun _ => prop (RouteDecl.name route))
                             (RouteDecl.urls route))
                    (AppConfig.routes appConfig))
      ∧ map Route.urls routes
        = concat (map (fun route =>
                         map (fun _ => RouteDecl.urls route)
                             (RouteDecl.urls route))
                    (AppConfig.routes appConfig))
      ∧ length routes
        = sum_list (map (fun route => length (RouteDecl.urls route))
                        (AppConfig.routes appConfig))
      ∧ (AppConfig.routes appConfig = [] → routes = []).
Proof.
  intros Hcache Hconfig.
  split; [by apply getRoutes_returns_iff|].
  intros routes st1 Hcall.
  destruct (getRoutes_compiled _ _ _ _ _ Hcache Hconfig Hcall) as [Hall _].
  assert (map Route.urlPattern routes = map snd (templates appConfig)
          ∧ Forall compiled routes
          ∧ map Route.name routes
            = map (fun t => prop (RouteDecl.name t.1)) (templates appConfig)
          ∧ map Route.urls routes
            = map (fun t => RouteDecl.urls t.1) (templates appConfig))
    as (Hpatterns & Hcompiled & Hnames & Hurls).
  { clear Hcall. induction Hall as [|[route urlPattern] c ts cs Hc _ IH].
    - by repeat split.
    - destruct Hc as (urlRegex & Hregex & ->).
      destruct IH as (IH1 & IH2 & IH3 & IH4). simpl.
      rewrite IH1, IH3, IH4. repeat split. by constructor. }
  assert (∀ {X} (h : RouteDecl.t → X),
            map (fun t => h t.1) (templates appConfig)
            = concat (map (fun route => map (fun _ => h route)
                                            (RouteDecl.urls route))
                        (AppConfig.routes appConfig))) as Hby_route.
  { intros X h. unfold templates.
    induction (AppConfig.routes appConfig) as [|route decls IH];
      [reflexivity|].
    simpl. rewrite map_app, IH. f_equal. by rewrite map_map. }
  split; [by rewrite Hpatterns, templates_urls|].
  split; [exact Hcompiled|].
  split.
  { rewrite Hnames.
    apply (Hby_route _ (fun route => prop (RouteDecl.name route))). }
  split; [rewrite Hurls; apply (Hby_route _ RouteDecl.urls)|].
  split.
  - rewrite <- (length_map Route.urlPattern), Hpatterns, templates_urls.
    generalize (AppConfig.routes appConfig). clear. intros decls.
    induction decls as [|route decls IH]; [reflexivity|].
    simpl. by rewrite length_app, IH.
  - intros Hnone. unfold templates in Hall. rewrite Hnone in Hall.
    by inversion Hall.
Qed.

(** The blog has one route with one template, which the engine of the
    fragment takes. *)
Lemma getRoutes_one_per_template_witness :
  ∃ routes st1,
    getRoutes (engine := Fragment.engine) "blog" Fixture.initial
    = (Return routes, st1)
    ∧ map Route.urlPattern routes = ["/posts/{id}"]
    ∧ length routes = 1%nat.
Proof.
  destruct (getRoutes_one_per_template (engine := Fragment.engine)
              "blog" Fixture.initial Fixture.blog eq_refl eq_refl)
    as [Hreturns Hroutes].
  destruct (proj2 Hreturns) as (routes & st1 & Hcall).
  { repeat constructor. eexists. vm_compute. reflexivity. }
  destruct (Hroutes routes st1 Hcall) as (Hpatterns & _ & _ & _ & Hlength & _).
  exists routes, st1. split; [exact Hcall|]. split; assumption.
Defined.

(** X6. What a compiled route takes from its declaration and from the app.
    A key that the declaration of the route sets is the route's value,
    whatever it is, falsy too. For a key the declaration does not set:
    the wrapper and the strip are never falsy (the app's default when that
    is truthy, otherwise ['server.page'] and [true]); the layout is the
    app's default when that is truthy and otherwise the app's name; the
    data and the server-only flag are the app's, the content type is
    undefined. *)
Theorem getRoutes_merged_defaults `{engine : RegExpEngine}
    (appName : string) (st st1 : state) (appConfig : AppConfig.t)
    (routes : list Route.t) :
  appRouteCache st !! appName = None →
  appConfigs st !! appName = Some appConfig →
  getRoutes appName st = (Return routes, st1) →
  ∀ compiledRoute, compiledRoute ∈ routes →
        ∃ route,
          route ∈ AppConfig.routes appConfig
          ∧ Route.urlPattern compiledRoute ∈ RouteDecl.urls route
          ∧ Route.layout compiledRoute
            = match RouteDecl.layout route with
              | Some own => own
              | None => if to_boolean (AppConfig.defaultLayout appConfig)
                        then AppConfig.defaultLayout appConfig
                        else VStr appName
              end
          ∧ Route.wrapper compiledRoute
            = match RouteDecl.wrapper route with
              | Some own => own
              | None => if to_boolean (AppConfig.defaultWrapper appConfig)
                        then AppConfig.defaultWrapper appConfig
                        else VStr "server.page"
              end
          ∧ Route.strip compiledRoute
            = match RouteDecl.strip route with
              | Some own => own
              | None => if to_boolean (AppConfig.defaultStrip appConfig)
                        then AppConfig.defaultStrip appConfig
                        else VBool true
              end
          ∧ Route.data compiledRoute
            = default (AppConfig.data appConfig) (RouteDecl.data route)
          ∧ Route.serverOnly compiledRoute
            = default (AppConfig.serverOnly appConfig)
                (RouteDecl.serverOnly route)
          ∧ Route.contentType compiledRoute
            = default VUndefined (RouteDecl.contentType route)
          ∧ (RouteDecl.wrapper route = None →
             to_boolean (Route.wrapper compiledRoute) = true)
          ∧ (RouteDecl.strip route = None →
             to_boolean (Route.strip compiledRoute) = true).
Proof.
  intros Hcache Hconfig Hcall compiledRoute Hin.
  destruct (getRoutes_compiled _ _ _ _ _ Hcache Hconfig Hcall) as [Hall _].
  assert (∃ route urlPattern urlRegex,
            (route, urlPattern) ∈ templates appConfig
            ∧ compiledRoute
              = route_object appName appConfig route urlPattern urlRegex)
    as (route & urlPattern & urlRegex & Htemplate & ->).
  { clear Hcall. induction Hall as [|[route urlPattern] c ts cs Hc _ IH];
      [by apply not_elem_of_nil in Hin|].
    apply elem_of_cons in Hin as [->|Hin].
    - destruct Hc as (urlRegex & _ & ->).
      exists route, urlPattern, urlRegex. split; [apply list_elem_of_here|done].
    - destruct (IH Hin) as (route' & urlPattern' & urlRegex' & Hin' & ->).
      exists route', urlPattern', urlRegex'.
      split; [by apply list_elem_of_further|done]. }
  apply list_elem_of_In, in_flat_map in Htemplate.
  destruct Htemplate as (route' & Hroute & Hin').
  apply in_map_iff in Hin'. destruct Hin' as (urlPattern' & [= -> ->] & Hurl).
  exists route. split; [by apply list_elem_of_In|].
  split; [by apply list_elem_of_In|].
  simpl. unfold extend, js_or, prop.
  destruct (to_boolean (AppConfig.defaultLayout appConfig)) eqn:HL,
           (to_boolean (AppConfig.defaultWrapper appConfig)) eqn:HW,
           (to_boolean (AppConfig.defaultStrip appConfig)) eqn:HS;
    destruct (RouteDecl.layout route) as [layout|];
    destruct (RouteDecl.wrapper route) as [wrapper|];
    destruct (RouteDecl.strip route) as [strip|];
    simpl; rewrite ?HL, ?HW, ?HS;
    repeat split; try discriminate; try assumption;
    try (by destruct (RouteDecl.data route));
    by destruct (RouteDecl.contentType route).
Qed.

(** The one route of the blog, whose declaration sets none of the keys. *)
Lemma getRoutes_merged_defaults_witness :
  ∃ routes st1,
    getRoutes (engine := Fragment.engine) "blog" Fixture.initial
    = (Return routes, st1)
    ∧ ∀ compiledRoute, compiledRoute ∈ routes →
        Route.layout compiledRoute = VStr "blog"
        ∧ Route.wrapper compiledRoute = VStr "server.page"
        ∧ Route.strip compiledRoute = VBool true.
Proof.
  destruct (getRoutes (engine := Fragment.engine) "blog" Fixture.initial)
    as [result st1] eqn:Hcall.
  assert (∃ routes, result = Return routes) as [routes ->]
    by (vm_compute in Hcall; injection Hcall as <- _; eauto).
  exists routes, st1. split; [reflexivity|].
  intros compiledRoute Hin.
  destruct (getRoutes_merged_defaults (engine := Fragment.engine)
              "blog" Fixture.initial st1 Fixture.blog routes
              eq_refl eq_refl Hcall compiledRoute Hin)
    as (route & Hroute & _ & Hlayout & Hwrapper & Hstrip & _).
  apply list_elem_of_In in Hroute. simpl in Hroute.
  destruct Hroute as [<-|[]]. by repeat split.
Defined.

(** X20. When [getRoutes] throws. A call that throws has found no routes
    in the cache; either the app has no configuration, and the error is
    the TypeError of reading [routes] of [undefined], or
    [convertUrlPatternToRegex] has thrown on a template of the
    configuration, after returning for every template before it, and the
    error is that SyntaxError. The call leaves the state as it was: no
    routes are cached, not those compiled before the failing template
    either, and the same call throws the same error again. *)
Theorem getRoutes_throws_uncached `{engine : RegExpEngine}
    (appName : string) (st st1 : state) (e : exn) :
  getRoutes appName st = (Throw e, st1) →
  st1 = st
  ∧ appRouteCache st !! appName = None
  ∧ getRoutes appName st1 = (Throw e, st1)
  ∧ (appConfigs st !! appName = None
     ∧ e = TypeError "Cannot read property 'routes' of undefined"
     ∨ ∃ appConfig before urlPattern after message,
         appConfigs st !! appName = Some appConfig
         ∧ concat (map RouteDecl.urls (AppConfig.routes appConfig))
           = before ++ urlPattern :: after
         ∧ Forall (fun urlPattern' =>
                     ∃ urlRegex,
                       convertUrlPatternToRegex urlPattern' = Return urlRegex)
             before
         ∧ convertUrlPatternToRegex urlPattern = Throw e
         ∧ e = SyntaxError message).
Proof.
  intros Hcall. destruct (getRoutes_throws _ _ _ _ Hcall) as [-> Hcache].
  split; [reflexivity|]. split; [exact Hcache|]. split; [exact Hcall|].
  destruct (appConfigs st !! appName) as [appConfig|] eqn:Hconfig.
  - right. rewrite (getRoutes_fresh _ _ _ Hcache Hconfig) in Hcall.
    destruct (each _ _) as [pushed|e'] eqn:Heach; [discriminate|].
    injection Hcall as ->.
    apply (each_one_throws _ (fun '(route, urlPattern) =>
             compile_route appName appConfig route urlPattern)) in Heach;
      [|by intros []].
    destruct Heach
      as (before & [route urlPattern] & after & Heq & Hbefore & Hthrow).
    unfold compile_route in Hthrow.
    destruct (convertUrlPatternToRegex urlPattern) as [urlRegex|e'] eqn:Hregex;
      [discriminate|].
    injection Hthrow as ->.
    assert (∃ message, e = SyntaxError message) as [message ->].
    { unfold convertUrlPatternToRegex, RegExp_new in Hregex.
      destruct (RegExp_syntax_error _); [|discriminate].
      injection Hregex as <-. eauto. }
    exists appConfig, (map snd before), urlPattern, (map snd after), message.
    split; [reflexivity|].
    split; [by rewrite <- templates_urls, Heq, map_app|].
    split; [|done].
    apply Forall_map. eapply Forall_impl; [exact Hbefore|].
    intros [route' urlPattern'] [compiledRoute Hc]. simpl.
    unfold compile_route in Hc.
    destruct (convertUrlPatternToRegex urlPattern'); [eauto|discriminate].
  - left. split; [reflexivity|].
    unfold getRoutes in Hcall. rewrite Hcache, Hconfig in Hcall.
    by injection Hcall as <-.
Qed.

(** An app whose second template has a plus sign between two
    placeholders. *)
Lemma getRoutes_throws_uncached_witness :
  let route :=
    RouteDecl.mk (Some (VStr "sum")) ["/sums"; "/{a}+{b}"]
                 None None None None None None in
  let appConfig :=
    AppConfig.mk [route] VUndefined VUndefined VUndefined VUndefined
                 VUndefined in
  let st := mkState {[ "calc" := appConfig ]} ∅ ∅ in
  ∃ e, getRoutes (engine := Fragment.engine) "calc" st = (Throw e, st)
       ∧ appRouteCache st !! "calc" = None.
Proof.
  cbv zeta. eexists.
  assert (getRoutes (engine := Fragment.engine) "calc"
            (mkState
               {[ "calc" :=
                    AppConfig.mk
                      [RouteDecl.mk (Some (VStr "sum")) ["/sums"; "/{a}+{b}"]
                         None None None None None None]
                      VUndefined VUndefined VUndefined VUndefined VUndefined ]}
               ∅ ∅)
          = (Throw (SyntaxError
                      (Fragment.nothing_to_repeat
                         "^\/[a-zA-Z0-9\-_~]++[a-zA-Z0-9\-_~]+$")), _)) as Hcall
    by (vm_compute; reflexivity).
  destruct (getRoutes_throws_uncached _ _ _ _ Hcall) as (Hst & Hcache & _).
  split; [exact Hcall|exact Hcache].
Defined.

(** C4. The strip of a route whose declaration sets none, in an app whose
    [defaultStrip] is [false], is [true] and not the app's default: the
    chain [route.strip || appConfig.defaultStrip || true] passes over a
    default that is [false]. (Layout, wrapper and data of the same route
    do come from the app.) *)
Theorem getRoutes_strip_default_false :
  let route :=
    RouteDecl.mk (Some (VStr "home")) ["/"] None None None None None None in
  let appConfig :=
    AppConfig.mk [route] (VStr "main") (VStr "page") (VBool false)
                 (VObject []) VUndefined in
  let st := mkState {[ "blog" := appConfig ]} ∅ ∅ in
  ∃ compiled,
    (getRoutes (engine := Fragment.engine) "blog" st).1 = Return [compiled]
    ∧ RouteDecl.strip route = None
    ∧ AppConfig.defaultStrip appConfig = VBool false
    ∧ Route.strip compiled = VBool true
    ∧ Route.strip compiled ≠ AppConfig.defaultStrip appConfig
    ∧ Route.layout compiled = AppConfig.defaultLayout appConfig
    ∧ Route.wrapper compiled = AppConfig.defaultWrapper appConfig
    ∧ Route.data compiled = AppConfig.data appConfig.
Proof.
  cbv zeta. eexists. split; [vm_compute; reflexivity|].
  repeat split; discriminate.
Qed.

(** ** getRouteInfo *)

Section RouteInfoCache.

Context `{engine : RegExpEngine}.

(** A hit: the cached object gets the query of the call and is returned. *)
Lemma getRouteInfo_hit appName urlRequest query lang st cached :
  routeInfoCache st !! (appName +:+ "||" +:+ urlRequest) = Some cached →
  getRouteInfo appName urlRequest query lang st
  = (Return (appName +:+ "||" +:+ urlRequest),
     set_routeInfoCache
       (<[appName +:+ "||" +:+ urlRequest := RouteInfo.set_query query cached]>
          (routeInfoCache st)) st).
Proof. intros Hhit. unfold getRouteInfo. rewrite Hhit. reflexivity. Qed.

(** A miss on which a route matches: a new object is made of the call and
    the route, stored and returned. *)
Lemma getRouteInfo_miss_match appName urlRequest query lang st routes st1 route :
  routeInfoCache st !! (appName +:+ "||" +:+ urlRequest) = None →
  getRoutes appName st = (Return routes, st1) →
  find_route routes (JsString.toLowerCase urlRequest) = Some route →
  ∃ routeInfo,
    getRouteInfo appName urlRequest query lang st
    = (Return (appName +:+ "||" +:+ urlRequest),
       set_routeInfoCache
         (<[appName +:+ "||" +:+ urlRequest := routeInfo]> (routeInfoCache st1))
         st1)
    ∧ RouteInfo.appName routeInfo = appName
    ∧ RouteInfo.lang routeInfo = lang
    ∧ RouteInfo.url routeInfo = urlRequest
    ∧ RouteInfo.query routeInfo = query
    ∧ RouteInfo.tokens routeInfo
      = getTokenValuesFromUrl (Route.urlPattern route) urlRequest
    ∧ RouteInfo.urlPattern routeInfo = Route.urlPattern route
    ∧ RouteInfo.urlRegex routeInfo = Route.urlRegex route.
Proof.
  intros Hmiss Hroutes Hfind. unfold getRouteInfo.
  rewrite Hmiss, Hroutes, Hfind. eexists. split; [reflexivity|].
  repeat split.
Qed.

(** A miss on which no route matches: the 404 error. *)
Lemma getRouteInfo_miss_no_match appName urlRequest query lang st routes st1 :
  routeInfoCache st !! (appName +:+ "||" +:+ urlRequest) = None →
  getRoutes appName st = (Return routes, st1) →
  find_route routes (JsString.toLowerCase urlRequest) = None →
  getRouteInfo appName urlRequest query lang st
  = (Throw (not_found appName urlRequest), st1).
Proof.
  intros Hmiss Hroutes Hfind. unfold getRouteInfo.
  rewrite Hmiss, Hroutes, Hfind. reflexivity.
Qed.

(** A call that returns leaves the object it returns in the cache, with the
    query of the call. *)
Lemma getRouteInfo_returns appName urlRequest query lang st r st1 :
  getRouteInfo appName urlRequest query lang st = (Return r, st1) →
  r = appName +:+ "||" +:+ urlRequest
  ∧ ∃ routeInfo, deref st1 r = Some routeInfo
                 ∧ RouteInfo.query routeInfo = query.
Proof.
  unfold getRouteInfo, deref.
  destruct (routeInfoCache st !! _) as [cached|] eqn:Hc.
  - intros [= <- <-]. split; [reflexivity|]. simpl.
    rewrite lookup_insert_eq. eauto.
  - destruct (getRoutes appName st) as [[routes|e] st'] eqn:Hr; [|discriminate].
    destruct (find_route routes _) as [route|]; [|discriminate].
    intros [= <- <-]. split; [reflexivity|]. simpl.
    rewrite lookup_insert_eq. eauto.
Qed.

(** Whatever the call, an object that is in the cache stays there and
    changes in its query at most; the compiled routes of an app that has
    them stay as they are. *)
Lemma getRouteInfo_frame appName urlRequest query lang st key cached :
  routeInfoCache st !! key = Some cached →
  ∃ q, routeInfoCache (getRouteInfo appName urlRequest query lang st).2 !! key
       = Some (RouteInfo.set_query q cached).
Proof.
  intros Hkey. unfold getRouteInfo.
  destruct (routeInfoCache st !! (appName +:+ "||" +:+ urlRequest))
    as [hit|] eqn:Hc.
  - simpl. destruct (decide (appName +:+ "||" +:+ urlRequest = key)) as [<-|Hne].
    + exists query. rewrite lookup_insert_eq. congruence.
    + exists (RouteInfo.query cached). rewrite lookup_insert_ne by exact Hne.
      rewrite Hkey. by destruct cached.
  - pose proof (getRoutes_routeInfoCache appName st) as Hsame.
    destruct (getRoutes appName st) as [[routes|e] st'] eqn:Hr; simpl in Hsame.
    + exists (RouteInfo.query cached).
      destruct (find_route routes _) as [route|]; simpl.
      * rewrite lookup_insert_ne by congruence.
        rewrite Hsame, Hkey. by destruct cached.
      * rewrite Hsame, Hkey. by destruct cached.
    + exists (RouteInfo.query cached). simpl. rewrite Hsame, Hkey.
      by destruct cached.
Qed.

End RouteInfoCache.

(** C3. Two calls of [getRouteInfo] with the same app name and URL and
    different queries return the same object: the second call is a hit,
    writes its query into the object and changes no other field of it, so
    that the object which the first call returned shows the query of the
    second call too, with the tokens, the URL pattern and every other field
    it had. After the first call its query is the first call's. More
    generally a call of [getRouteInfo], whatever its arguments, leaves an
    object that is in the cache there, the same but for its query. *)
Theorem getRouteInfo_query_only_mutates `{engine : RegExpEngine}
    (appName urlRequest : string) (query1 query2 : gmap string value)
    (lang1 lang2 : value) (st st1 : state) (r1 : ref) :
  getRouteInfo appName urlRequest query1 lang1 st = (Return r1, st1) →
  ∃ first st2,
    deref st1 r1 = Some first
    ∧ RouteInfo.query first = query1
    ∧ getRouteInfo appName urlRequest query2 lang2 st1 = (Return r1, st2)
    ∧ deref st2 r1 = Some (RouteInfo.set_query query2 first)
    ∧ (∀ second, deref st2 r1 = Some second →
         RouteInfo.query second = query2
         ∧ RouteInfo.tokens second = RouteInfo.tokens first
         ∧ RouteInfo.urlPattern second = RouteInfo.urlPattern first
         ∧ RouteInfo.urlRegex second = RouteInfo.urlRegex first
         ∧ RouteInfo.appName second = RouteInfo.appName first
         ∧ RouteInfo.lang second = RouteInfo.lang first
         ∧ RouteInfo.url second = RouteInfo.url first
         ∧ RouteInfo.layout second = RouteInfo.layout first
         ∧ RouteInfo.wrapper second = RouteInfo.wrapper first
         ∧ RouteInfo.strip second = RouteInfo.strip first
         ∧ RouteInfo.contentType second = RouteInfo.contentType first
         ∧ RouteInfo.data second = RouteInfo.data first
         ∧ RouteInfo.serverOnly second = RouteInfo.serverOnly first
         ∧ RouteInfo.name second = RouteInfo.name first
         ∧ RouteInfo.urls second = RouteInfo.urls first)
    ∧ (∀ appName' urlRequest' query' lang' st' key cached,
         routeInfoCache st' !! key = Some cached →
         ∃ q, routeInfoCache
                (getRouteInfo appName' urlRequest' query' lang' st').2 !! key
              = Some (RouteInfo.set_query q cached)).
Proof.
  intros Hfirst.
  destruct (getRouteInfo_returns _ _ _ _ _ _ _ Hfirst) as (-> & first & Hderef & Hq).
  pose proof (getRouteInfo_hit appName urlRequest query2 lang2 st1 first Hderef)
    as Hsecond.
  eexists first, _. split; [exact Hderef|]. split; [exact Hq|].
  split; [exact Hsecond|].
  assert (deref
            (set_routeInfoCache
               (<[appName +:+ "||" +:+ urlRequest
                  := RouteInfo.set_query query2 first]> (routeInfoCache st1)) st1)
            (appName +:+ "||" +:+ urlRequest)
          = Some (RouteInfo.set_query query2 first)) as Hderef2.
  { unfold deref. simpl. apply lookup_insert_eq. }
  split; [exact Hderef2|]. split.
  - intros second Hs. rewrite Hderef2 in Hs. injection Hs as <-.
    repeat split.
  - intros appName' urlRequest' query' lang' st' key cached.
    apply getRouteInfo_frame.
Qed.

(** The second of two calls for [/posts/42] of the blog. *)
Lemma getRouteInfo_query_only_mutates_witness :
  let first :=
    getRouteInfo (engine := Fragment.engine) "blog" "/posts/42"
      {[ "page" := VStr "1" ]} (VStr "en") Fixture.initial in
  first.1 = Return "blog||/posts/42"
  ∧ ∃ st2,
      getRouteInfo (engine := Fragment.engine) "blog" "/posts/42"
        {[ "server" := VStr "true" ]} VUndefined first.2
      = (Return "blog||/posts/42", st2)
      ∧ RouteInfo.query <$> deref st2 "blog||/posts/42"
        = Some {[ "server" := VStr "true" ]}
      ∧ RouteInfo.tokens <$> deref st2 "blog||/posts/42"
        = RouteInfo.tokens <$> deref first.2 "blog||/posts/42".
Proof.
  cbv zeta.
  set (call := getRouteInfo (engine := Fragment.engine) "blog" "/posts/42"
                 {[ "page" := VStr "1" ]} (VStr "en") Fixture.initial).
  assert (call = (Return "blog||/posts/42", call.2)) as Hcall
    by (vm_compute; reflexivity).
  split; [by rewrite Hcall|].
  destruct (getRouteInfo_query_only_mutates (engine := Fragment.engine)
              "blog" "/posts/42" {[ "page" := VStr "1" ]}
              {[ "server" := VStr "true" ]} (VStr "en") VUndefined
              Fixture.initial call.2 "blog||/posts/42" Hcall)
    as (first & st2 & Hfirst & _ & Hsecond & Hderef & _).
  exists st2. split; [exact Hsecond|].
  rewrite Hderef, Hfirst. split; reflexivity.
Defined.

(** When [getRoutes] answers, [getRouteInfo] throws exactly on a miss of the
    cache with no route matching the lower-cased URL, and what it throws is
    the 404 error of the app name and the URL as requested. *)
Lemma getRouteInfo_throws_not_found `{engine : RegExpEngine}
    appName urlRequest query lang st routes st1 :
  getRoutes appName st = (Return routes, st1) →
  (∀ e, (getRouteInfo appName urlRequest query lang st).1 = Throw e ↔
        routeInfoCache st !! (appName +:+ "||" +:+ urlRequest) = None
        ∧ find_route routes (JsString.toLowerCase urlRequest) = None
        ∧ e = Error ("404: " +:+ appName +:+ " " +:+ urlRequest
                     +:+ " is not a valid request")).
Proof.
  intros Hroutes e. unfold getRouteInfo.
  destruct (routeInfoCache st !! _) as [cached|]; simpl.
  - split; [discriminate|]. by intros [? _].
  - rewrite Hroutes.
    destruct (find_route routes _) as [route|]; simpl.
    + split; [discriminate|]. by intros (_ & ? & _).
    + unfold not_found. split; [by intros [= <-]|]. by intros (_ & _ & ->).
Qed.

(** C8. For an app that [appConfigs] has no entry for, [getRouteInfo] does
    not reach its 404 error: [getRoutes] reads [appConfig.routes] of an
    undefined [appConfig] and throws a TypeError, which is what the caller
    gets instead of ["404: shop /cart is not a valid request"]. *)
Theorem getRouteInfo_unknown_app :
  let st := mkState ∅ ∅ ∅ in
  let thrown :=
    (getRouteInfo (engine := Fragment.engine) "shop" "/cart" ∅ VUndefined st).1 in
  routeInfoCache st !! "shop||/cart" = None
  ∧ thrown = Throw (TypeError "Cannot read property 'routes' of undefined")
  ∧ thrown ≠ Throw (not_found "shop" "/cart")
  ∧ not_found "shop" "/cart" = Error "404: shop /cart is not a valid request".
Proof.
  cbv zeta. split; [reflexivity|]. split; [reflexivity|].
  split; [discriminate|reflexivity].
Qed.

(** ** Resolving a URL *)

Section Resolving.

Context `{engine : RegExpEngine}.

Lemma find_route_none routes url :
  find_route routes url = None ↔
  Forall (fun route => RegExp_test (Route.urlRegex route) url = false) routes.
Proof.
  induction routes as [|r routes IH]; simpl; [by split; [constructor|]|].
  destruct (RegExp_test (Route.urlRegex r) url) eqn:Hr.
  - split; [discriminate|]. intros H. apply Forall_cons in H as [H _]. congruence.
  - rewrite IH. split; [by constructor|]. by intros [_ ?]%Forall_cons.
Qed.

Lemma find_route_first before route after url :
  Forall (fun r => RegExp_test (Route.urlRegex r) url = false) before →
  RegExp_test (Route.urlRegex route) url = true →
  find_route (before ++ route :: after) url = Some route.
Proof.
  intros Hbefore Hroute. induction Hbefore as [|r before Hr _ IH]; simpl.
  - by rewrite Hroute.
  - by rewrite Hr.
Qed.

Lemma find_route_elem routes url route :
  find_route routes url = Some route →
  route ∈ routes ∧ RegExp_test (Route.urlRegex route) url = true.
Proof.
  induction routes as [|r routes IH]; simpl; [discriminate|].
  destruct (RegExp_test (Route.urlRegex r) url) eqn:Hr.
  - intros [= <-]. split; [left|exact Hr].
  - intros H. destruct (IH H) as [Hin Ht]. split; [by right|exact Ht].
Qed.

(** The route-info cache after a run of calls: an object that was there is
    there still, the same but for its query. *)
Lemma serve_all_frame requests st key cached :
  routeInfoCache st !! key = Some cached →
  ∃ q, routeInfoCache (serve_all requests st) !! key
       = Some (RouteInfo.set_query q cached).
Proof.
  revert st cached. induction requests as [|r requests IH]; intros st cached Hkey.
  - exists (RouteInfo.query cached). simpl. rewrite Hkey. by destruct cached.
  - destruct (getRouteInfo_frame (req_appName r) (req_url r) (req_query r)
                (req_lang r) st key cached Hkey) as [q Hq].
    destruct (IH (serve st r) _ Hq) as [q' Hq']. exists q'. exact Hq'.
Qed.

End Resolving.

(** C10. On a miss of the route-info cache the regex of each route is
    tested on the lower-cased copy of the URL, in the order of the routes,
    and on nothing else. When the regex of a route takes the lower-cased
    copy and that of no route before it does, the call returns an object of
    that route whose [url] is the URL as it was requested and whose tokens
    are taken from the URL as it was requested: every token value is a
    piece of it, case and all, and when the URL is an instance of the
    pattern the tokens are the values as they stand in it. Another URL with
    the same lower-cased copy (and no cache entry of its own) resolves to
    the same route, and keeps its own spelling in [url] and in its tokens.
    When no regex takes the lower-cased copy the call throws the 404 error,
    whatever the regexes make of the URL as it was requested. *)
Theorem getRouteInfo_original_casing `{engine : RegExpEngine}
    (appName urlRequest : string) (query : gmap string value) (lang : value)
    (st st1 : state) (routes : list Route.t) :
  routeInfoCache st !! (appName +:+ "||" +:+ urlRequest) = None →
  getRoutes appName st = (Return routes, st1) →
  (∀ before route after,
     routes = before ++ route :: after →
     Forall (fun r => RegExp_test (Route.urlRegex r)
                        (JsString.toLowerCase urlRequest) = false) before →
     RegExp_test (Route.urlRegex route) (JsString.toLowerCase urlRequest)
     = true →
     ∃ st2 routeInfo,
       getRouteInfo appName urlRequest query lang st
       = (Return (appName +:+ "||" +:+ urlRequest), st2)
       ∧ deref st2 (appName +:+ "||" +:+ urlRequest) = Some routeInfo
       ∧ RouteInfo.url routeInfo = urlRequest
       ∧ RouteInfo.urlPattern routeInfo = Route.urlPattern route
       ∧ RouteInfo.urlRegex routeInfo = Route.urlRegex route
       ∧ RouteInfo.tokens routeInfo
         = getTokenValuesFromUrl (Route.urlPattern route) urlRequest
       ∧ (∀ k v, RouteInfo.tokens routeInfo !! k = Some v →
                 ∃ pre post, urlRequest = pre +:+ v +:+ post)
       ∧ (∀ pieces tail,
            Route.urlPattern route = Template.pattern_of pieces tail →
            urlRequest = Template.url_of pieces tail →
            Template.delimited pieces tail = true →
            RouteInfo.tokens routeInfo = Template.tokens_of pieces)
       ∧ (∀ urlRequest' query' lang',
            JsString.toLowerCase urlRequest'
            = JsString.toLowerCase urlRequest →
            routeInfoCache st !! (appName +:+ "||" +:+ urlRequest') = None →
            ∃ st2' routeInfo',
              getRouteInfo appName urlRequest' query' lang' st
              = (Return (appName +:+ "||" +:+ urlRequest'), st2')
              ∧ deref st2' (appName +:+ "||" +:+ urlRequest')
                = Some routeInfo'
              ∧ RouteInfo.urlPattern routeInfo' = Route.urlPattern route
              ∧ RouteInfo.url routeInfo' = urlRequest'
              ∧ RouteInfo.tokens routeInfo'
                = getTokenValuesFromUrl (Route.urlPattern route) urlRequest'))
  ∧ (Forall (fun r => RegExp_test (Route.urlRegex r)
                        (JsString.toLowerCase urlRequest) = false) routes →
     getRouteInfo appName urlRequest query lang st
     = (Throw (not_found appName urlRequest), st1)).
Proof.
  intros Hmiss Hroutes. split.
  - intros before route after -> Hbefore Hroute.
    pose proof (find_route_first before route after _ Hbefore Hroute) as Hfind.
    destruct (getRouteInfo_miss_match appName urlRequest query lang st _ st1
                route Hmiss Hroutes Hfind)
      as (routeInfo & Hcall & _ & _ & Hurl & _ & Htokens & Hpattern & Hregex).
    eexists _, routeInfo. split; [exact Hcall|].
    split; [unfold deref; simpl; apply lookup_insert_eq|].
    split; [exact Hurl|]. split; [exact Hpattern|]. split; [exact Hregex|].
    split; [exact Htokens|].
    split; [intros k v; rewrite Htokens; apply getTokenValuesFromUrl_pieces|].
    split.
    { intros pieces tail Hpieces -> Hdelimited.
      rewrite Htokens, Hpieces. by apply token_loop_from_template. }
    intros urlRequest' query' lang' Hlower Hmiss'.
    rewrite <- Hlower in Hfind.
    destruct (getRouteInfo_miss_match appName urlRequest' query' lang' st _
                st1 route Hmiss' Hroutes Hfind)
      as (routeInfo' & Hcall' & _ & _ & Hurl' & _ & Htokens' & Hpattern' & _).
    eexists _, routeInfo'. split; [exact Hcall'|].
    split; [unfold deref; simpl; apply lookup_insert_eq|].
    by repeat split.
  - intros Hnone. apply find_route_none in Hnone.
    by apply (getRouteInfo_miss_no_match _ _ _ _ _ routes).
Qed.

(** The blog asked for [/POSTS/My-Post]: the regex of the route does not
    take the URL as it is requested, and takes its lower-cased copy; the
    token keeps its capitals. *)
Lemma getRouteInfo_original_casing_witness :
  RegExp_test (RegExpEngine := Fragment.engine)
    (Route.urlRegex Fixture.post_route) "/POSTS/My-Post" = false
  ∧ ∃ st2 routeInfo,
      getRouteInfo (engine := Fragment.engine) "blog" "/POSTS/My-Post" ∅
        VUndefined Fixture.initial
      = (Return "blog||/POSTS/My-Post", st2)
      ∧ deref st2 "blog||/POSTS/My-Post" = Some routeInfo
      ∧ RouteInfo.url routeInfo = "/POSTS/My-Post"
      ∧ RouteInfo.tokens routeInfo = {[ "id" := "My-Post" ]}.
Proof.
  split; [vm_compute; reflexivity|].
  destruct (getRoutes (engine := Fragment.engine) "blog" Fixture.initial)
    as [result st1] eqn:Hroutes.
  assert (result = Return [Fixture.post_route]) as ->
    by (vm_compute in Hroutes; injection Hroutes as <- _; reflexivity).
  destruct (getRouteInfo_original_casing (engine := Fragment.engine)
              "blog" "/POSTS/My-Post" ∅ VUndefined Fixture.initial st1 _
              eq_refl Hroutes) as [Hmatch _].
  destruct (Hmatch [] Fixture.post_route [] eq_refl (List.Forall_nil _))
    as (st2 & routeInfo & Hcall & Hderef & Hurl & _ & _ & Htokens & _);
    [vm_compute; reflexivity|].
  exists st2, routeInfo. split; [exact Hcall|]. split; [exact Hderef|].
  split; [exact Hurl|]. rewrite Htokens. vm_compute. reflexivity.
Defined.

(** X7. For an app whose routes [getRoutes] returns, [getRouteInfo] throws
    exactly when the key of the call is not in the route-info cache and the
    regex of none of the routes matches the lower-cased URL. What it throws
    then is the 404 error of the app name and the URL as requested, and the
    failure is not cached: the route-info cache is as it was, the routes of
    the app are now in the route cache, and the same call made again, with
    any query and language, throws the same error. *)
Theorem getRouteInfo_not_found `{engine : RegExpEngine}
    (appName urlRequest : string) (query : gmap string value) (lang : value)
    (st st1 : state) (routes : list Route.t) :
  getRoutes appName st = (Return routes, st1) →
  let outcome := getRouteInfo appName urlRequest query lang st in
  ((∃ e, outcome.1 = Throw e) ↔
   routeInfoCache st !! (appName +:+ "||" +:+ urlRequest) = None
   ∧ Forall (fun route =>
               RegExp_test (Route.urlRegex route)
                 (JsString.toLowerCase urlRequest) = false) routes)
  ∧ (∀ e, outcome.1 = Throw e →
          e = Error ("404: " +:+ appName +:+ " " +:+ urlRequest
                     +:+ " is not a valid request")
          ∧ routeInfoCache outcome.2 = routeInfoCache st
          ∧ appRouteCache outcome.2 !! appName = Some routes
          ∧ ∀ query' lang',
              (getRouteInfo appName urlRequest query' lang' outcome.2).1
              = Throw e).
Proof.
  intros Hroutes. cbv zeta.
  destruct (getRoutes_returns _ _ _ _ Hroutes) as (Hcached & _ & Hsame & _).
  rewrite <- find_route_none. unfold getRouteInfo.
  destruct (routeInfoCache st !! _) as [cached|] eqn:Hmiss; simpl.
  - split; [|discriminate]. split; [by intros [? ?]|by intros [? _]].
  - rewrite Hroutes.
    destruct (find_route routes _) as [route|] eqn:Hfind; simpl.
    + split; [|discriminate]. split; [by intros [? ?]|by intros [_ ?]].
    + split; [split; [done|by eexists]|].
      intros e [= <-]. split; [reflexivity|]. split; [exact Hsame|].
      split; [exact Hcached|]. intros query' lang'.
      rewrite Hsame, Hmiss.
      assert (getRoutes appName st1 = (Return routes, st1)) as ->
        by (unfold getRoutes; by rewrite Hcached).
      by rewrite Hfind.
Qed.

(** The blog asked for a URL that its one route does not take. *)
Lemma getRouteInfo_not_found_witness :
  (getRouteInfo (engine := Fragment.engine) "blog" "/about" ∅ VUndefined
     Fixture.initial).1
  = Throw (Error "404: blog /about is not a valid request").
Proof.
  destruct (getRoutes (engine := Fragment.engine) "blog" Fixture.initial)
    as [result st1] eqn:Hroutes.
  assert (result = Return [Fixture.post_route]) as ->
    by (vm_compute in Hroutes; injection Hroutes as <- _; reflexivity).
  destruct (getRouteInfo_not_found (engine := Fragment.engine) "blog" "/about"
              ∅ VUndefined Fixture.initial st1 _ Hroutes) as [Hiff Herror].
  assert (∃ e, (getRouteInfo (engine := Fragment.engine) "blog" "/about" ∅
                  VUndefined Fixture.initial).1 = Throw e) as [e He].
  { apply Hiff. split; [reflexivity|]. repeat constructor. }
  rewrite He. f_equal. by apply Herror.
Defined.

(** X8. The routes are tried in the order of their declaration and the
    first whose regex matches the lower-cased URL decides: on a miss of the
    route-info cache, when no route before it matches, the object returned
    has that route's pattern, regex, name, layout, wrapper, strip, data,
    content type and server-only flag, whatever routes come after it. *)
Theorem getRouteInfo_first_match `{engine : RegExpEngine}
    (appName urlRequest : string) (query : gmap string value) (lang : value)
    (st st1 : state) (before after : list Route.t) (route : Route.t) :
  routeInfoCache st !! (appName +:+ "||" +:+ urlRequest) = None →
  getRoutes appName st = (Return (before ++ route :: after), st1) →
  Forall (fun r => RegExp_test (Route.urlRegex r)
                     (JsString.toLowerCase urlRequest) = false) before →
  RegExp_test (Route.urlRegex route) (JsString.toLowerCase urlRequest) = true →
  ∃ st2 routeInfo,
    getRouteInfo appName urlRequest query lang st
    = (Return (appName +:+ "||" +:+ urlRequest), st2)
    ∧ deref st2 (appName +:+ "||" +:+ urlRequest) = Some routeInfo
    ∧ RouteInfo.urlPattern routeInfo = Route.urlPattern route
    ∧ RouteInfo.urlRegex routeInfo = Route.urlRegex route
    ∧ RouteInfo.name routeInfo = Route.name route
    ∧ RouteInfo.layout routeInfo = Route.layout route
    ∧ RouteInfo.wrapper routeInfo = Route.wrapper route
    ∧ RouteInfo.strip routeInfo = Route.strip route
    ∧ RouteInfo.data routeInfo = Route.data route
    ∧ RouteInfo.contentType routeInfo = Route.contentType route
    ∧ RouteInfo.serverOnly routeInfo = Route.serverOnly route
    ∧ RouteInfo.urls routeInfo = Route.urls route.
Proof.
  intros Hmiss Hroutes Hbefore Hroute.
  pose proof (find_route_first before route after _ Hbefore Hroute) as Hfind.
  unfold getRouteInfo. rewrite Hmiss, Hroutes, Hfind.
  eexists _, _. split; [reflexivity|].
  split; [unfold deref; simpl; apply lookup_insert_eq|].
  by repeat split.
Qed.

(** Two routes that both take [/posts/new]: the one declared first wins. *)
Lemma getRouteInfo_first_match_witness :
  let fixed :=
    RouteDecl.mk (Some (VStr "new")) ["/posts/new"]
                 None None None None None None in
  let app := AppConfig.mk [fixed; Fixture.posts] VUndefined VUndefined
                          VUndefined VUndefined VUndefined in
  let st := mkState {[ "blog" := app ]} ∅ ∅ in
  ∃ st2 routeInfo,
    getRouteInfo (engine := Fragment.engine) "blog" "/posts/new" ∅ VUndefined st
    = (Return "blog||/posts/new", st2)
    ∧ deref st2 "blog||/posts/new" = Some routeInfo
    ∧ RouteInfo.name routeInfo = VStr "new".
Proof.
  cbv zeta.
  set (fixed := RouteDecl.mk (Some (VStr "new")) ["/posts/new"]
                  None None None None None None).
  set (app := AppConfig.mk [fixed; Fixture.posts] VUndefined VUndefined
                VUndefined VUndefined VUndefined).
  set (st := mkState {[ "blog" := app ]} ∅ ∅).
  destruct (getRoutes (engine := Fragment.engine) "blog" st)
    as [result st1] eqn:Hroutes.
  assert (result
          = Return ([] ++ route_object "blog" app fixed "/posts/new"
                            (mkRegExp "^\/posts\/new$")
                       :: [route_object "blog" app Fixture.posts "/posts/{id}"
                             (mkRegExp ("^\/posts\/" +:+ token_class +:+ "$"))]))
    as ->
    by (vm_compute in Hroutes; injection Hroutes as <- _; reflexivity).
  destruct (getRouteInfo_first_match (engine := Fragment.engine) "blog"
              "/posts/new" ∅ VUndefined st st1 [] _ _ eq_refl Hroutes
              (List.Forall_nil _) eq_refl)
    as (st2 & routeInfo & Hcall & Hderef & _ & _ & Hname & _).
  exists st2, routeInfo. by repeat split.
Defined.

(** X9. The key of the route-info cache is the app name, [||] and the URL
    run together, so a call whose app name and URL run together to the key
    of an earlier call is a hit on that call's object, whatever app it is
    for and whether its own app has any route: it returns the same object,
    with the earlier call's app name and URL, and writes its query into
    it. *)
Theorem getRouteInfo_key_collision `{engine : RegExpEngine}
    (appName1 url1 appName2 url2 : string) (query1 query2 : gmap string value)
    (lang1 lang2 : value) (st st1 : state) (r : ref) :
  appName1 +:+ "||" +:+ url1 = appName2 +:+ "||" +:+ url2 →
  routeInfoCache st !! (appName1 +:+ "||" +:+ url1) = None →
  getRouteInfo appName1 url1 query1 lang1 st = (Return r, st1) →
  ∃ first st2,
    deref st1 r = Some first
    ∧ RouteInfo.appName first = appName1
    ∧ RouteInfo.url first = url1
    ∧ getRouteInfo appName2 url2 query2 lang2 st1 = (Return r, st2)
    ∧ deref st2 r = Some (RouteInfo.set_query query2 first).
Proof.
  intros Hkey Hmiss. unfold getRouteInfo at 1. rewrite Hmiss.
  destruct (getRoutes appName1 st) as [[routes|e] st'] eqn:Hroutes;
    [|discriminate].
  destruct (find_route routes _) as [route|]; [|discriminate].
  intros [= <- <-].
  match goal with
  | |- context [set_routeInfoCache (<[_ := ?ri]> _) st'] => set (first := ri)
  end.
  set (st1 := set_routeInfoCache _ st').
  assert (routeInfoCache st1 !! (appName2 +:+ "||" +:+ url2) = Some first)
    as Hhit by (rewrite <- Hkey; apply lookup_insert_eq).
  exists first. eexists.
  split; [rewrite Hkey; exact Hhit|].
  split; [reflexivity|]. split; [reflexivity|].
  rewrite Hkey, (getRouteInfo_hit _ _ query2 lang2 _ _ Hhit).
  split; [reflexivity|]. unfold deref. simpl. apply lookup_insert_eq.
Qed.

(** The cart of the app [shop||eu] answers a call for the app [shop]. *)
Lemma getRouteInfo_key_collision_witness :
  let cart := RouteDecl.mk (Some (VStr "cart")) ["/cart"]
                           None None None None None None in
  let app := AppConfig.mk [cart] VUndefined VUndefined VUndefined VUndefined
                          VUndefined in
  let st := mkState {[ "shop||eu" := app ]} ∅ ∅ in
  let first :=
    getRouteInfo (engine := Fragment.engine) "shop||eu" "/cart" ∅ VUndefined st in
  ∃ st2,
    getRouteInfo (engine := Fragment.engine) "shop" "eu||/cart"
      {[ "page" := VStr "2" ]} VUndefined first.2
    = (Return "shop||eu||/cart", st2)
    ∧ RouteInfo.appName <$> deref st2 "shop||eu||/cart" = Some "shop||eu"
    ∧ RouteInfo.url <$> deref st2 "shop||eu||/cart" = Some "/cart".
Proof.
  cbv zeta.
  set (cart := RouteDecl.mk (Some (VStr "cart")) ["/cart"]
                 None None None None None None).
  set (app := AppConfig.mk [cart] VUndefined VUndefined VUndefined VUndefined
                VUndefined).
  set (st := mkState {[ "shop||eu" := app ]} ∅ ∅).
  set (call := getRouteInfo (engine := Fragment.engine) "shop||eu" "/cart" ∅
                 VUndefined st).
  assert (call = (Return "shop||eu||/cart", call.2)) as Hcall
    by (vm_compute; reflexivity).
  destruct (getRouteInfo_key_collision (engine := Fragment.engine)
              "shop||eu" "/cart" "shop" "eu||/cart" ∅ {[ "page" := VStr "2" ]}
              VUndefined VUndefined st call.2 "shop||eu||/cart"
              eq_refl eq_refl Hcall)
    as (first & st2 & _ & Happ & Hurl & Hsecond & Hderef).
  exists st2. split; [exact Hsecond|]. rewrite Hderef. simpl.
  by rewrite Happ, Hurl.
Defined.

(** X10. Once resolved, always resolved: after a call of [getRouteInfo]
    that returned, and any calls of [getRouteInfo] after it (for any apps
    and URLs, returning or throwing), a call with the same app name and URL
    returns the same object, changed in its query only, whatever has become
    of the configuration. *)
Theorem getRouteInfo_resolved_stays `{engine : RegExpEngine}
    (appName urlRequest : string) (query query' : gmap string value)
    (lang lang' : value) (st st1 : state) (r : ref)
    (requests : list request) :
  getRouteInfo appName urlRequest query lang st = (Return r, st1) →
  ∃ first st2,
    deref st1 r = Some first
    ∧ getRouteInfo appName urlRequest query' lang' (serve_all requests st1)
      = (Return r, st2)
    ∧ deref st2 r = Some (RouteInfo.set_query query' first).
Proof.
  intros Hfirst.
  destruct (getRouteInfo_returns _ _ _ _ _ _ _ Hfirst)
    as (-> & first & Hderef & _).
  destruct (serve_all_frame requests st1 _ first Hderef) as [q Hq].
  exists first. eexists. split; [exact Hderef|].
  rewrite (getRouteInfo_hit _ _ query' lang' _ _ Hq).
  split; [reflexivity|]. unfold deref. simpl. by rewrite lookup_insert_eq.
Qed.

(** The post of the blog, asked for again after a request that failed and
    one for another post. *)
Lemma getRouteInfo_resolved_stays_witness :
  let first :=
    getRouteInfo (engine := Fragment.engine) "blog" "/posts/42" ∅ VUndefined
      Fixture.initial in
  let later :=
    serve_all (engine := Fragment.engine)
      [mkRequest "blog" "/about" ∅ VUndefined;
       mkRequest "blog" "/posts/7" ∅ VUndefined] first.2 in
  ∃ st2,
    getRouteInfo (engine := Fragment.engine) "blog" "/posts/42"
      {[ "page" := VStr "2" ]} VUndefined later
    = (Return "blog||/posts/42", st2)
    ∧ RouteInfo.tokens <$> deref st2 "blog||/posts/42"
      = RouteInfo.tokens <$> deref first.2 "blog||/posts/42".
Proof.
  cbv zeta.
  set (call := getRouteInfo (engine := Fragment.engine) "blog" "/posts/42" ∅
                 VUndefined Fixture.initial).
  assert (call = (Return "blog||/posts/42", call.2)) as Hcall
    by (vm_compute; reflexivity).
  destruct (getRouteInfo_resolved_stays (engine := Fragment.engine)
              "blog" "/posts/42" ∅ {[ "page" := VStr "2" ]}
              VUndefined VUndefined Fixture.initial call.2 "blog||/posts/42"
              [mkRequest "blog" "/about" ∅ VUndefined;
               mkRequest "blog" "/posts/7" ∅ VUndefined] Hcall)
    as (first & st2 & Hfirst & Hsecond & Hderef).
  exists st2. split; [exact Hsecond|]. by rewrite Hderef, Hfirst.
Defined.

(** ** What the caches hold *)

Section Consistency.

Context `{engine : RegExpEngine}.

Lemma getRoutes_consistent appName st :
  caches_consistent st → caches_consistent (getRoutes appName st).2.
Proof.
  intros [Hroutes Hinfos].
  destruct (getRoutes appName st) as [[routes|e] st1] eqn:Hcall; simpl.
  - destruct (appRouteCache st !! appName) as [cached|] eqn:Hc.
    { unfold getRoutes in Hcall. rewrite Hc in Hcall.
      injection Hcall as _ <-. by split. }
    destruct (appConfigs st !! appName) as [appConfig|] eqn:Hconfig.
    2: { unfold getRoutes in Hcall. by rewrite Hc, Hconfig in Hcall. }
    destruct (getRoutes_compiled _ _ _ _ _ Hc Hconfig Hcall) as [Hall ->].
    split; [|exact Hinfos]. simpl. intros app routes'.
    rewrite lookup_insert. case_decide; [|apply Hroutes].
    intros [= <-]. clear Hcall.
    induction Hall as [|[route urlPattern] c ts cs Hc' _ IH]; [constructor|].
    constructor; [|exact IH]. by destruct Hc' as (urlRegex & Hregex & ->).
  - apply getRoutes_throws in Hcall as [-> _]. by split.
Qed.

Lemma getRoutes_result_compiled appName st routes st1 :
  caches_consistent st →
  getRoutes appName st = (Return routes, st1) → Forall compiled routes.
Proof.
  intros Hst Hcall. pose proof (getRoutes_consistent appName st Hst) as [H _].
  rewrite Hcall in H. apply (H appName).
  by destruct (getRoutes_returns _ _ _ _ Hcall) as [? _].
Qed.

Lemma serve_consistent st r :
  caches_consistent st → caches_consistent (serve st r).
Proof.
  intros Hst. unfold serve, getRouteInfo.
  destruct (routeInfoCache st !! _) as [cached|] eqn:Hhit.
  - destruct Hst as [Hroutes Hinfos]. split; [exact Hroutes|]. simpl.
    intros key routeInfo. rewrite lookup_insert. case_decide as Hk.
    + intros [= <-]. subst key. apply (Hinfos _ _ Hhit).
    + apply Hinfos.
  - pose proof (getRoutes_consistent (req_appName r) st Hst) as Hst'.
    pose proof (getRoutes_result_compiled (req_appName r) st) as Hcompiled.
    destruct (getRoutes (req_appName r) st) as [[routes|e] st1];
      [|exact Hst'].
    specialize (Hcompiled routes st1 Hst eq_refl).
    destruct (find_route routes _) as [route|] eqn:Hfind; [|exact Hst'].
    destruct Hst' as [Hroutes Hinfos]. split; [exact Hroutes|]. simpl.
    intros key routeInfo. rewrite lookup_insert. case_decide as Hk.
    + intros [= <-]. subst key. simpl. split; [reflexivity|].
      split; [reflexivity|].
      apply find_route_elem in Hfind as [Hin _].
      by apply (proj1 (Forall_forall _ _) Hcompiled).
    + apply Hinfos.
Qed.

End Consistency.

(** X11. The caches stay consistent. From caches that are empty, or from
    any state in which every cached route has the regex of its pattern and
    every cached RouteInfo stands under the key of its own app name and URL
    with the tokens of its own pattern and URL and the regex of its
    pattern, every run of [getRouteInfo] calls leaves a state of which the
    same is true. *)
Theorem getRouteInfo_caches_consistent `{engine : RegExpEngine}
    (requests : list request) (st : state) :
  caches_consistent st ∨ (appRouteCache st = ∅ ∧ routeInfoCache st = ∅) →
  caches_consistent (serve_all requests st).
Proof.
  intros Hst.
  assert (caches_consistent st) as Hconsistent.
  { destruct Hst as [?|[Hroutes Hinfos]]; [assumption|].
    split; intros ? ?; rewrite ?Hroutes, ?Hinfos, lookup_empty; discriminate. }
  clear Hst. revert st Hconsistent.
  induction requests as [|r requests IH]; intros st Hst; [exact Hst|].
  apply IH, serve_consistent, Hst.
Qed.

(** The blog after three requests, one of them failing. *)
Lemma getRouteInfo_caches_consistent_witness :
  caches_consistent (engine := Fragment.engine)
    (serve_all (engine := Fragment.engine)
       [mkRequest "blog" "/posts/42" ∅ VUndefined;
        mkRequest "blog" "/about" ∅ VUndefined;
        mkRequest "blog" "/Posts/7" ∅ VUndefined] Fixture.initial).
Proof.
  apply (getRouteInfo_caches_consistent (engine := Fragment.engine)).
  right. split; reflexivity.
Defined.

(** ** From the template to the tokens *)

Section EndToEnd.

Import JsString.

Lemma lower_token_char c :
  is_token_char c = true → is_token_char (lower_char c) = true.
Proof. intros Hc. ascii_cases c. Qed.

Lemma toLowerCase_app s t :
  toLowerCase (s +:+ t) = toLowerCase s +:+ toLowerCase t.
Proof.
  induction s as [|c s IH]; [reflexivity|].
  rewrite append_cons. simpl. rewrite IH. reflexivity.
Qed.

Lemma toLowerCase_token_chars v :
  Template.all_chars is_token_char v = true →
  Template.all_chars is_token_char (toLowerCase v) = true.
Proof.
  induction v as [|c v IH]; [done|].
  simpl toLowerCase. rewrite !all_chars_cons, !andb_true_iff.
  intros [Hc Hv]. split; [by apply lower_token_char|by apply IH].
Qed.

(** The instance in lower case is the instance of the values in lower
    case, when the literal text is in lower case already. *)
Lemma lowered_instance pieces tail :
  Template.lower_literals pieces tail = true →
  Template.plain pieces tail = true →
  toLowerCase (Template.url_of pieces tail)
  = Template.url_of (Template.lowered pieces) tail
  ∧ Template.pattern_of (Template.lowered pieces) tail
    = Template.pattern_of pieces tail
  ∧ Template.plain (Template.lowered pieces) tail = true.
Proof.
  unfold Template.lower_literals. rewrite andb_true_iff. intros [Hlits Htail].
  apply String.eqb_eq in Htail.
  induction pieces as [|p rest IH]; simpl; [by intros ->|].
  simpl in Hlits. rewrite andb_true_iff in Hlits. destruct Hlits as [Hlit Hlits].
  apply String.eqb_eq in Hlit.
  rewrite !andb_true_iff. intros ((((Hl & Hk) & Hv) & Hvs) & Hrest).
  destruct (IH Hlits Hrest) as (Hurl & Hpattern & Hplain).
  rewrite !toLowerCase_app, Hlit, Hurl, Hpattern, Hplain.
  rewrite Hl, Hk, (toLowerCase_token_chars _ Hvs).
  repeat split. by destruct (Template.val p).
Qed.

Lemma atoms_of_lowered pieces tail :
  Template.atoms_of (Template.lowered pieces) tail
  = Template.atoms_of pieces tail.
Proof.
  induction pieces as [|p rest IH]; [reflexivity|]. simpl. by rewrite IH.
Qed.

End EndToEnd.

(** X12. From the template to the tokens. Take an app whose first route
    has for its first URL template a pattern in lower case, made of literal
    text that stands for itself in a regular expression and of placeholders
    each followed by a slash or by the end, and an engine that agrees with
    the fragment. When [getRoutes] returns the routes of the app, a request
    for a URL that has the same literal text and, in the place of each
    placeholder, a value of one or more class members in any case, with
    nothing cached yet, is resolved to that route: the object returned has
    the route's name and pattern, the URL as requested, and for its tokens
    the values as requested, each set under the name of its placeholder. *)
Theorem getRouteInfo_resolves_instance `{engine : RegExpEngine}
    (appName : string) (st st1 : state) (appConfig : AppConfig.t)
    (route : RouteDecl.t) (routes : list RouteDecl.t)
    (compiledRoutes : list Route.t)
    (urls : list string) (pieces : list Template.piece) (tail : string)
    (query : gmap string value) (lang : value) :
  Fragment.agrees engine →
  appRouteCache st !! appName = None →
  appConfigs st !! appName = Some appConfig →
  AppConfig.routes appConfig = route :: routes →
  RouteDecl.urls route = Template.pattern_of pieces tail :: urls →
  getRoutes appName st = (Return compiledRoutes, st1) →
  routeInfoCache st
    !! (appName +:+ "||" +:+ Template.url_of pieces tail) = None →
  Template.plain pieces tail = true →
  Template.delimited pieces tail = true →
  Template.lower_literals pieces tail = true →
  ∃ st2 routeInfo,
    getRouteInfo appName (Template.url_of pieces tail) query lang st
    = (Return (appName +:+ "||" +:+ Template.url_of pieces tail), st2)
    ∧ deref st2 (appName +:+ "||" +:+ Template.url_of pieces tail)
      = Some routeInfo
    ∧ RouteInfo.tokens routeInfo = Template.tokens_of pieces
    ∧ RouteInfo.url routeInfo = Template.url_of pieces tail
    ∧ RouteInfo.urlPattern routeInfo = Template.pattern_of pieces tail
    ∧ RouteInfo.name routeInfo = prop (RouteDecl.name route).
Proof.
  intros Hagrees Hcache Hconfig Hroutes Hurls Hcall Hmiss Hplain Hdelimited
         Hlower.
  destruct (lowered_instance pieces tail Hlower Hplain)
    as (Hurl & Hpattern & Hplain').
  destruct (getRoutes_compiled _ _ _ _ _ Hcache Hconfig Hcall) as [Hall _].
  unfold templates in Hall. rewrite Hroutes in Hall. simpl in Hall.
  rewrite Hurls in Hall. simpl in Hall.
  inversion Hall as [|? first ? others Hhead _]; subst compiledRoutes.
  destruct Hhead as (urlRegex & Hregex & Hfirst).
  destruct (convertUrlPatternToRegex_template pieces tail Hagrees
              (plain_literal _ _ Hplain)) as (urlRegex' & Hregex' & Htest).
  rewrite Hregex in Hregex'. injection Hregex' as <-.
  assert (RegExp_test (Route.urlRegex first)
            (JsString.toLowerCase (Template.url_of pieces tail)) = true) as Hmatch.
  { rewrite Hfirst. cbn [Route.urlRegex route_object].
    rewrite Htest, Hurl, <- (atoms_of_lowered pieces tail).
    apply matches_template. by apply plain_instance. }
  unfold getRouteInfo. rewrite Hmiss, Hcall. cbn [find_route].
  rewrite Hmatch.
  eexists _, _. split; [reflexivity|].
  split; [unfold deref; simpl; apply lookup_insert_eq|].
  rewrite Hfirst.
  cbn [RouteInfo.tokens RouteInfo.url RouteInfo.urlPattern RouteInfo.name
       Route.urlPattern Route.name route_object].
  split; [apply token_loop_from_template, Hdelimited|]. by repeat split.
Qed.

(** The blog asked for [/posts/My-Post]: the value keeps its capitals. *)
Lemma getRouteInfo_resolves_instance_witness :
  ∃ st2 routeInfo,
    getRouteInfo (engine := Fragment.engine) "blog" "/posts/My-Post" ∅
      VUndefined Fixture.initial
    = (Return "blog||/posts/My-Post", st2)
    ∧ deref st2 "blog||/posts/My-Post" = Some routeInfo
    ∧ RouteInfo.tokens routeInfo = {[ "id" := "My-Post" ]}
    ∧ RouteInfo.name routeInfo = VStr "post".
Proof.
  destruct (getRoutes (engine := Fragment.engine) "blog" Fixture.initial)
    as [result st1] eqn:Hroutes.
  assert (result = Return [Fixture.post_route]) as ->
    by (vm_compute in Hroutes; injection Hroutes as <- _; reflexivity).
  destruct (getRouteInfo_resolves_instance (engine := Fragment.engine)
              "blog" Fixture.initial st1 Fixture.blog
              Fixture.posts [] _ [] [Template.mkPiece "/posts/" "id" "My-Post"]
              "" ∅ VUndefined Fragment_engine_agrees eq_refl eq_refl eq_refl
              eq_refl Hroutes eq_refl eq_refl eq_refl eq_refl)
    as (st2 & routeInfo & Hcall & Hderef & Htokens & _ & _ & Hname).
  exists st2, routeInfo. split; [exact Hcall|]. split; [exact Hderef|].
  split; [|exact Hname]. rewrite Htokens. vm_compute. reflexivity.
Defined.

(** ** getInitialModel *)

(** C7. [getInitialModel] answers a promise fulfilled with an empty object
    when the page declares no model (a falsy [page.model]). When
    [page.model] is a function it hands the function to the injector with
    the dependencies [{appName, tokens, routeInfo, defaults,
    currentScope: {}}] and answers the promise that [Q.when] makes of what
    the injector returns. For any other truthy [page.model] it throws an
    error whose message is the route's name, then
    [" page invalid model() format: "], then the declaration. *)
Theorem getInitialModel_cases `{injector : Injector}
    (routeInfo : RouteInfo.t) (page : Page.t) :
  (to_boolean (Page.model page) = false →
   getInitialModel routeInfo page = Return (Fulfilled (VObject [])))
  ∧ (isFunction (Page.model page) = true →
     ∀ r,
       loadModule_fn (Page.model page) VNull
         {| dep_appName := RouteInfo.appName routeInfo;
            dep_tokens := RouteInfo.tokens routeInfo;
            dep_routeInfo := routeInfo;
            dep_defaults := Page.defaults page;
            dep_currentScope := VObject [] |} = Return r →
       getInitialModel routeInfo page = Return (Q_when r))
  ∧ (to_boolean (Page.model page) = true →
     isFunction (Page.model page) = false →
     getInitialModel routeInfo page
     = Throw (Error (to_string (RouteInfo.name routeInfo)
                     +:+ " page invalid model() format: "
                     +:+ to_string (Page.model page)))).
Proof.
  unfold getInitialModel. split; [|split].
  - intros ->. reflexivity.
  - intros Hfun r Hload.
    destruct (Page.model page); try discriminate. simpl.
    simpl in Hload. rewrite Hload. reflexivity.
  - intros -> ->. reflexivity.
Qed.

(** A page without a model, the page of the fixture, and a page whose model
    is a string. *)
Lemma getInitialModel_cases_witness :
  getInitialModel (injector := Fixture.injector) (Fixture.post_42 ∅)
    (Page.mk VUndefined VUndefined)
  = Return (Fulfilled (VObject []))
  ∧ getInitialModel (injector := Fixture.injector) (Fixture.post_42 ∅)
      Fixture.post_page
    = Return (Fulfilled Fixture.post_42_model)
  ∧ getInitialModel (injector := Fixture.injector) (Fixture.post_42 ∅)
      (Page.mk (VStr "posts") VUndefined)
    = Throw (Error "post page invalid model() format: posts").
Proof.
  split; [|split].
  - apply (getInitialModel_cases (injector := Fixture.injector)). reflexivity.
  - apply (proj1 (proj2 (getInitialModel_cases (injector := Fixture.injector)
                           (Fixture.post_42 ∅) Fixture.post_page))
             eq_refl (Plain Fixture.post_42_model)).
    vm_compute. reflexivity.
  - apply (proj2 (proj2 (getInitialModel_cases (injector := Fixture.injector)
                           (Fixture.post_42 ∅)
                           (Page.mk (VStr "posts") VUndefined))));
      reflexivity.
Defined.

(** ** processWebRequest *)

(** C5. In [processWebRequest], once the page is loaded, the model resolved
    and the pre-processing hook has not answered for the request, the cache
    service in use is asked for [routeInfo.url + '||' + stringify(model)].
    If it holds a render (a string that is not empty) and the query's
    [server] is unset or falsy, that render is the answer as it is, and
    nothing is rendered or stored: the service is left as the lookup left
    it. If the query's [server] is truthy, as [server=true] is, the answer
    is a fresh render whatever the lookup found, and the fresh render is not
    stored: again the service is left as the lookup left it. *)
Theorem processWebRequest_page_cache {C : Type} `{cache : PageCache C}
    `{injector : Injector} `{clientPlugin : ClientPlugin}
    (routeInfo : RouteInfo.t) (callbacks : Callbacks C) (defaultPageCache : C)
    (page : Page.t) (model : value) :
  loadModule ("app/" +:+ RouteInfo.appName routeInfo +:+ "/pages/"
              +:+ to_string (RouteInfo.name routeInfo) +:+ ".page")
  = Return page →
  getInitialModel routeInfo page = Return (Fulfilled model) →
  to_boolean (default (fun _ _ _ => VBool false) (serverPreprocessing callbacks)
                routeInfo page model) = false →
  let service := default defaultPageCache (pageCacheService callbacks) in
  let cacheKey := RouteInfo.url routeInfo +:+ "||" +:+ JSON_stringify model in
  let server := prop (RouteInfo.query routeInfo !! "server") in
  (∀ render,
     (cache_get service cacheKey).1 = Some render →
     render ≠ EmptyString →
     to_boolean server = false →
     processWebRequest routeInfo callbacks defaultPageCache
     = (Return (Fulfilled (Some render)), (cache_get service cacheKey).2))
  ∧ (to_boolean server = true →
     processWebRequest routeInfo callbacks defaultPageCache
     = (Return
          (Fulfilled
             (Some (renderPage routeInfo page
                      (default (fun model _ => model) (addToModel callbacks)
                         (js_or model (VObject [])) routeInfo)))),
        (cache_get service cacheKey).2))
  ∧ (RouteInfo.query routeInfo !! "server" = Some (VStr "true") →
     to_boolean server = true).
Proof.
  intros Hpage Hmodel Hpre service cacheKey server.
  split; [|split].
  - intros render Hget Hrender Hserver. unfold processWebRequest.
    rewrite Hpage, Hmodel, Hpre. fold service cacheKey server.
    destruct (cache_get service cacheKey) as [cachedPage service'].
    simpl in Hget. subst cachedPage. rewrite Hserver. simpl.
    destruct render; [congruence|reflexivity].
  - intros Hserver. unfold processWebRequest.
    rewrite Hpage, Hmodel, Hpre. fold service cacheKey server.
    destruct (cache_get service cacheKey) as [cachedPage service'].
    rewrite Hserver, andb_false_r. reflexivity.
  - unfold server. intros ->. reflexivity.
Qed.

(** The page of [/posts/42] is in a dictionary cache: a plain request gets
    it, a request with [server=true] gets a fresh render and the dictionary
    keeps the old one. *)
Lemma processWebRequest_page_cache_witness :
  let cached : gmap string string := {[ Fixture.post_42_key := "<h1>old</h1>" ]} in
  let callbacks := mkCallbacks None None (Some cached) in
  processWebRequest (cache := dict_cache) (injector := Fixture.injector)
    (clientPlugin := Fixture.clientPlugin) (Fixture.post_42 ∅) callbacks ∅
  = (Return (Fulfilled (Some "<h1>old</h1>")), cached)
  ∧ processWebRequest (cache := dict_cache) (injector := Fixture.injector)
      (clientPlugin := Fixture.clientPlugin)
      (Fixture.post_42 {[ "server" := VStr "true" ]}) callbacks ∅
    = (Return (Fulfilled (Some "<h1>/posts/42</h1>")), cached).
Proof.
  cbv zeta. split.
  - rewrite (proj1 (processWebRequest_page_cache (cache := dict_cache)
                      (injector := Fixture.injector)
                      (clientPlugin := Fixture.clientPlugin)
                      (Fixture.post_42 ∅)
                      (mkCallbacks None None
                         (Some {[ Fixture.post_42_key := "<h1>old</h1>" ]}))
                      ∅ Fixture.post_page Fixture.post_42_model
                      eq_refl eq_refl eq_refl) "<h1>old</h1>");
      [vm_compute; reflexivity|vm_compute; reflexivity|discriminate|reflexivity].
  - rewrite (proj1 (proj2 (processWebRequest_page_cache (cache := dict_cache)
                      (injector := Fixture.injector)
                      (clientPlugin := Fixture.clientPlugin)
                      (Fixture.post_42 {[ "server" := VStr "true" ]})
                      (mkCallbacks None None
                         (Some {[ Fixture.post_42_key := "<h1>old</h1>" ]}))
                      ∅ Fixture.post_page Fixture.post_42_model
                      eq_refl eq_refl eq_refl)));
      vm_compute; reflexivity.
Defined.

(** Where C5 fails as the claim states it. The cache holds the empty
    string for the key of the request and the query has no [server]: the
    code takes what the cache holds for a cached page only when it is
    truthy, so the request is rendered afresh and the entry overwritten,
    where the claim has the cached render returned unchanged. And when the
    pre-processing hook answers for the request, the answer is [null]
    whatever the cache holds for its key. *)
Lemma processWebRequest_page_cache_counterexample :
  let empty : gmap string string := {[ Fixture.post_42_key := "" ]} in
  let old : gmap string string := {[ Fixture.post_42_key := "<h1>old</h1>" ]} in
  Fixture.post_42_key
  = RouteInfo.url (Fixture.post_42 ∅) +:+ "||"
    +:+ JSON_stringify (ClientPlugin := Fixture.clientPlugin)
          Fixture.post_42_model
  ∧ empty !! Fixture.post_42_key = Some ""
  ∧ processWebRequest (cache := dict_cache) (injector := Fixture.injector)
      (clientPlugin := Fixture.clientPlugin) (Fixture.post_42 ∅)
      (mkCallbacks None None (Some empty)) ∅
    = (Return (Fulfilled (Some "<h1>/posts/42</h1>")),
       {[ Fixture.post_42_key := "<h1>/posts/42</h1>" ]})
  ∧ old !! Fixture.post_42_key = Some "<h1>old</h1>"
  ∧ processWebRequest (cache := dict_cache) (injector := Fixture.injector)
      (clientPlugin := Fixture.clientPlugin) (Fixture.post_42 ∅)
      (mkCallbacks (Some (fun _ _ _ => VBool true)) None (Some old)) ∅
    = (Return (Fulfilled None), old).
Proof. cbv zeta. repeat split; vm_compute; reflexivity. Qed.

(** ** The adapter merge *)

(** C6. The adapter that [getAdapter] answers for a category with an
    override layer, when both the primary module and the generic module
    are found, is the merge of the two: a key of both gets the override's
    value; a key of the primary alone keeps the primary's; a key of the
    override alone has the override's; there is no other key. Swapping
    the two modules can change the result, as it does for the adapters of
    the unit tests, whose merge is [{one, two: 'override', three}] for the
    category [repo]. When the generic module is not found the primary is
    the answer. A category without override support gets the primary
    module, unmerged, whatever the generic module holds, as [backend] does
    in the unit tests. *)
Theorem adapter_merge_law :
  (∀ policy locate serviceInfo (primary override : gmap string value),
     ServiceFactory.supports_override policy
       (ServiceFactory.adapterName serviceInfo) = true →
     locate (ServiceFactory.primary_path serviceInfo) = Some primary →
     locate (ServiceFactory.generic_path policy serviceInfo) = Some override →
     ∃ adapter,
       ServiceFactory.getAdapter policy locate serviceInfo = Return adapter
       ∧ (∀ key vp vo,
            primary !! key = Some vp → override !! key = Some vo →
            adapter !! key = Some vo)
       ∧ (∀ key vp,
            primary !! key = Some vp → override !! key = None →
            adapter !! key = Some vp)
       ∧ (∀ key vo,
            primary !! key = None → override !! key = Some vo →
            adapter !! key = Some vo)
       ∧ (∀ key,
            primary !! key = None → override !! key = None →
            adapter !! key = None))
  ∧ (∀ policy locate serviceInfo (primary : gmap string value),
       ServiceFactory.supports_override policy
         (ServiceFactory.adapterName serviceInfo) = true →
       locate (ServiceFactory.primary_path serviceInfo) = Some primary →
       locate (ServiceFactory.generic_path policy serviceInfo) = None →
       ServiceFactory.getAdapter policy locate serviceInfo = Return primary)
  ∧ (∀ policy locate serviceInfo (primary : gmap string value),
       ServiceFactory.supports_override policy
         (ServiceFactory.adapterName serviceInfo) = false →
       locate (ServiceFactory.primary_path serviceInfo) = Some primary →
       ServiceFactory.getAdapter policy locate serviceInfo = Return primary)
  ∧ (let repo := ServiceFactory.mkServiceInfo "repo" "solr" "blah" in
     let swapped path :=
       if JsString.indexOf path "solr" >=? 0
       then Some {[ "two" := VStr "override"; "three" := VStr "three" ]}
       else Some {[ "one" := VStr "one"; "two" := VStr "two" ]} in
     ServiceFactory.getAdapter ServiceFactory.test_policy
       (ServiceFactory.test_locate "solr") repo
     = Return {[ "one" := VStr "one"; "two" := VStr "override";
                 "three" := VStr "three" ]}
     ∧ ServiceFactory.getAdapter ServiceFactory.test_policy swapped repo
       = Return {[ "one" := VStr "one"; "two" := VStr "two";
                   "three" := VStr "three" ]}
     ∧ ServiceFactory.getAdapter ServiceFactory.test_policy swapped repo
       ≠ ServiceFactory.getAdapter ServiceFactory.test_policy
           (ServiceFactory.test_locate "solr") repo)
  ∧ ServiceFactory.getAdapter ServiceFactory.test_policy
      (ServiceFactory.test_locate "test")
      (ServiceFactory.mkServiceInfo "backend" "test" "post")
    = Return {[ "one" := VStr "one"; "two" := VStr "two" ]}.
Proof.
  split; [|split; [|split; [|split]]].
  - intros policy locate serviceInfo primary override Hsupports Hprimary
           Hoverride.
    exists (ServiceFactory.merge primary override).
    unfold ServiceFactory.getAdapter, ServiceFactory.merge.
    rewrite Hprimary, Hsupports, Hoverride.
    split; [reflexivity|]. repeat split.
    + intros key vp vo _ Ho. by apply lookup_union_Some_l.
    + intros key vp Hp Ho. by rewrite lookup_union_r.
    + intros key vo _ Ho. by apply lookup_union_Some_l.
    + intros key Hp Ho. by rewrite lookup_union_r.
  - intros policy locate serviceInfo primary Hsupports Hprimary Hnone.
    unfold ServiceFactory.getAdapter.
    by rewrite Hprimary, Hsupports, Hnone.
  - intros policy locate serviceInfo primary Hno Hprimary.
    unfold ServiceFactory.getAdapter. by rewrite Hprimary, Hno.
  - cbv zeta. split; [vm_compute; reflexivity|].
    split; [vm_compute; reflexivity|].
    intros Heq.
    assert (∀ a b : gmap string value,
              Return a = Return b → a !! "two" = b !! "two") as Hlook
      by (by intros a b [= ->]).
    apply Hlook in Heq. vm_compute in Heq. discriminate.
  - vm_compute. reflexivity.
Qed.

(** A policy of two categories, [cache] with an override layer and
    [store] without, and a loader that finds a primary and a generic
    module for each. *)
Lemma adapter_merge_law_witness :
  let policy :=
    ServiceFactory.mkPolicy (String.eqb "cache")
      (fun serviceInfo =>
         "adapters/" +:+ ServiceFactory.adapterName serviceInfo +:+ "/"
         +:+ ServiceFactory.resourceName serviceInfo) in
  let primary : gmap string value :=
    {[ "get" := VStr "redis.get"; "set" := VStr "redis.set" ]} in
  let override : gmap string value :=
    {[ "set" := VStr "generic.set"; "clear" := VStr "generic.clear" ]} in
  let locate path :=
    if JsString.indexOf path "redis" >=? 0 then Some primary
    else Some override in
  (∃ adapter,
     ServiceFactory.getAdapter policy locate
       (ServiceFactory.mkServiceInfo "cache" "redis" "page") = Return adapter
     ∧ adapter !! "set" = Some (VStr "generic.set")
     ∧ adapter !! "get" = Some (VStr "redis.get")
     ∧ adapter !! "clear" = Some (VStr "generic.clear"))
  ∧ ServiceFactory.getAdapter policy locate
      (ServiceFactory.mkServiceInfo "store" "redis" "page") = Return primary.
Proof.
  cbv zeta.
  destruct adapter_merge_law as (Hmerged & _ & Hunmerged & _).
  split.
  - edestruct (Hmerged
                 (ServiceFactory.mkPolicy (String.eqb "cache")
                    (fun serviceInfo =>
                       "adapters/" +:+ ServiceFactory.adapterName serviceInfo
                       +:+ "/" +:+ ServiceFactory.resourceName serviceInfo))
                 (fun path =>
                    if JsString.indexOf path "redis" >=? 0
                    then Some {[ "get" := VStr "redis.get";
                                 "set" := VStr "redis.set" ]}
                    else Some {[ "set" := VStr "generic.set";
                                 "clear" := VStr "generic.clear" ]})
                 (ServiceFactory.mkServiceInfo "cache" "redis" "page"))
      as (adapter & Hcall & Hboth & Hprimary & Hoverride & _);
      [reflexivity|vm_compute; reflexivity|vm_compute; reflexivity|].
    exists adapter. split; [exact Hcall|]. split; [|split].
    + by apply (Hboth "set" (VStr "redis.set")).
    + by apply Hprimary.
    + by apply Hoverride.
  - apply Hunmerged; [reflexivity|vm_compute; reflexivity].
Defined.

(** ** setDefaults *)

Lemma is_undefined_inherited key :
  is_undefined (inherited_member key) = false.
Proof. unfold inherited_member. by destruct (String.eqb key "__proto__"). Qed.

(** What a plain object reads as [undefined] under a name: an own property
    that is [undefined], or no property at all under a name that it does
    not inherit. *)
Lemma get_property_undefined (o : gmap string value) key :
  is_undefined (get_property o key) = true
  ↔ o !! key = Some VUndefined ∨ (o !! key = None ∧ inherited key = false).
Proof.
  unfold get_property. destruct (o !! key) as [v|].
  - split; [destruct v; try discriminate; by left|].
    intros [[= ->]|[[=] _]]. reflexivity.
  - destruct (inherited key).
    + rewrite is_undefined_inherited. split; [discriminate|].
      by intros [[=]|[_ [=]]].
    + split; [by right|reflexivity].
Qed.

(** The model after [setDefaults], key by key. *)
Lemma setDefaults_lookup (model defaults : gmap string value) (key : string) :
  setDefaults model (Some defaults) !! key
  = if is_undefined (get_property model key)
    then match defaults !! key with
         | Some val => Some val
         | None => model !! key
         end
    else model !! key.
Proof.
  unfold setDefaults. revert key.
  apply (map_fold_weak_ind
           (fun result visited =>
              ∀ key, result !! key
                     = if is_undefined (get_property model key)
                       then match visited !! key with
                            | Some val => Some val
                            | None => model !! key
                            end
                       else model !! key)).
  - intros key. rewrite lookup_empty. by destruct (is_undefined _).
  - intros i x visited result Hfresh IH key.
    assert (result !! i = model !! i) as Hi.
    { rewrite IH, Hfresh. by destruct (is_undefined _). }
    assert (get_property result i = get_property model i) as Hread
      by (unfold get_property; by rewrite Hi).
    unfold set_default. rewrite Hread.
    destruct (decide (i = key)) as [->|Hne].
    + rewrite lookup_insert_eq.
      destruct (is_undefined (get_property model key)).
      * by rewrite lookup_insert_eq.
      * exact Hi.
    + rewrite (lookup_insert_ne visited) by exact Hne.
      destruct (is_undefined (get_property model i));
        [rewrite lookup_insert_ne by exact Hne|]; apply IH.
Qed.

(** X13. [setDefaults] fills what the model reads as [undefined] and
    nothing else. A key under which the model holds a value that is not
    [undefined] keeps that value, whatever the defaults say, falsy values
    ([null], [false], the empty string) too. A key that the model reads
    [undefined] under (it holds [undefined], or holds nothing under a name
    that it does not inherit) gets the default when there is one. A key
    that the model has no property for and inherits from
    [Object.prototype], as [toString] and [constructor], reads as what is
    inherited, and gets no default. A key without a default stays as it
    is. No key is taken away, and the keys of the result are those of the
    model and those of the defaults that the model does not inherit. *)
Theorem setDefaults_fills_missing (model defaults : gmap string value) :
  (∀ key val,
     model !! key = Some val → is_undefined val = false →
     setDefaults model (Some defaults) !! key = Some val)
  ∧ (∀ key val,
       is_undefined (get_property model key) = true →
       defaults !! key = Some val →
       setDefaults model (Some defaults) !! key = Some val)
  ∧ (∀ key,
       model !! key = None → inherited key = true →
       setDefaults model (Some defaults) !! key = None)
  ∧ (∀ key,
       defaults !! key = None →
       setDefaults model (Some defaults) !! key = model !! key)
  ∧ dom (setDefaults model (Some defaults))
    = dom model ∪ filter (fun key => inherited key = false) (dom defaults).
Proof.
  split; [|split; [|split; [|split]]].
  - intros key val Hkey Hdefined. rewrite setDefaults_lookup.
    unfold get_property. by rewrite Hkey, Hdefined.
  - intros key val Hmissing Hdefault.
    by rewrite setDefaults_lookup, Hmissing, Hdefault.
  - intros key Hnone Hinherited. rewrite setDefaults_lookup.
    unfold get_property. by rewrite Hnone, Hinherited, is_undefined_inherited.
  - intros key Hnone. rewrite setDefaults_lookup, Hnone.
    by destruct (is_undefined _).
  - apply set_eq. intros key.
    rewrite elem_of_union, elem_of_filter, !elem_of_dom, setDefaults_lookup.
    destruct (is_undefined (get_property model key)) eqn:Hread.
    + apply get_property_undefined in Hread as [Hown|[Hnone Hinherited]].
      * rewrite Hown. split; [by left; eauto|].
        intros _. by destruct (defaults !! key).
      * rewrite Hnone. destruct (defaults !! key) as [d|].
        -- split; [by right; eauto|eauto].
        -- split; [by intros [? [=]]|]. by intros [[? [=]]|[_ [? [=]]]].
    + split; [by left|]. intros [Hown|[Hinherited Hdefault]]; [exact Hown|].
      destruct (model !! key) as [v|] eqn:Hm; [eauto|].
      assert (is_undefined (get_property model key) = true) as Habs
        by (apply get_property_undefined; by right).
      congruence.
Qed.

(** A model with a title, an [undefined] author and no layout, and
    defaults that have a [toString] too. *)
Lemma setDefaults_fills_missing_witness :
  let model : gmap string value :=
    {[ "title" := VStr ""; "author" := VUndefined ]} in
  let defaults : gmap string value :=
    {[ "title" := VStr "Untitled"; "author" := VStr "nobody";
       "layout" := VStr "main"; "toString" := VStr "text" ]} in
  setDefaults model (Some defaults) !! "title" = Some (VStr "")
  ∧ setDefaults model (Some defaults) !! "author" = Some (VStr "nobody")
  ∧ setDefaults model (Some defaults) !! "layout" = Some (VStr "main")
  ∧ setDefaults model (Some defaults) !! "toString" = None
  ∧ setDefaults model (Some defaults) !! "other" = None.
Proof.
  cbv zeta.
  set (model := ({[ "title" := VStr ""; "author" := VUndefined ]}
                 : gmap string value)).
  set (defaults := ({[ "title" := VStr "Untitled"; "author" := VStr "nobody";
                       "layout" := VStr "main"; "toString" := VStr "text" ]}
                    : gmap string value)).
  destruct (setDefaults_fills_missing model defaults)
    as (Hkeep & Hfill & Hinherited & Hnone & _).
  split; [|split; [|split; [|split]]].
  - by apply Hkeep.
  - by apply Hfill.
  - by apply Hfill.
  - by apply Hinherited.
  - by rewrite Hnone.
Defined.

(** X14. [setDefaults] is idempotent, and a second set of defaults yields
    to the first: setting the same defaults twice is setting them once, and
    after defaults that are defined wherever they have a key, setting the
    same keys to other values changes nothing. With falsy defaults the
    model is left as it is. *)
Theorem setDefaults_idempotent (model defaults : gmap string value) :
  setDefaults (setDefaults model (Some defaults)) (Some defaults)
  = setDefaults model (Some defaults)
  ∧ (∀ others : gmap string value,
       (∀ key val, defaults !! key = Some val → is_undefined val = false) →
       dom others ⊆ dom defaults →
       setDefaults (setDefaults model (Some defaults)) (Some others)
       = setDefaults model (Some defaults))
  ∧ setDefaults model None = model.
Proof.
  split; [|split; [|reflexivity]].
  - apply map_eq. intros key.
    rewrite (setDefaults_lookup (setDefaults _ _)).
    unfold get_property at 1. rewrite !setDefaults_lookup.
    unfold get_property.
    destruct (model !! key) as [v|], (defaults !! key) as [d|],
             (inherited key);
      rewrite ?is_undefined_inherited; cbn [is_undefined];
      repeat match goal with
             | |- context [is_undefined ?x] =>
                 destruct (is_undefined x) eqn:?; cbn [is_undefined]
             end; congruence.
  - intros others Hdefined Hdom. apply map_eq. intros key.
    rewrite (setDefaults_lookup (setDefaults _ _)).
    unfold get_property at 1. rewrite !setDefaults_lookup.
    unfold get_property.
    destruct (defaults !! key) as [d|] eqn:Hd.
    + pose proof (Hdefined _ _ Hd) as Hdd.
      destruct (model !! key) as [v|], (inherited key);
        rewrite ?is_undefined_inherited; cbn [is_undefined];
        repeat match goal with
               | |- context [is_undefined ?x] =>
                   destruct (is_undefined x) eqn:?; cbn [is_undefined]
               end; congruence.
    + assert (others !! key = None) as ->.
      { apply not_elem_of_dom. intros Hin. apply Hdom in Hin.
        apply elem_of_dom in Hin. rewrite Hd in Hin. by destruct Hin. }
      destruct (model !! key) as [v|], (inherited key);
        rewrite ?is_undefined_inherited; cbn [is_undefined];
        repeat match goal with
               | |- context [is_undefined ?x] =>
                   destruct (is_undefined x) eqn:?; cbn [is_undefined]
               end; congruence.
Qed.

(** Page defaults set first, then the app's defaults for the same keys. *)
Lemma setDefaults_idempotent_witness :
  let page : gmap string value := {[ "layout" := VStr "wide" ]} in
  let app : gmap string value := {[ "layout" := VStr "main" ]} in
  setDefaults (setDefaults ∅ (Some page)) (Some app) !! "layout"
  = Some (VStr "wide").
Proof.
  cbv zeta.
  rewrite (proj1 (proj2 (setDefaults_idempotent ∅ {[ "layout" := VStr "wide" ]}))
             {[ "layout" := VStr "main" ]}).
  - vm_compute. reflexivity.
  - intros key val. rewrite lookup_singleton. case_decide; [|discriminate].
    by intros [= <-].
  - by rewrite !dom_singleton_L.
Defined.

(** ** The model of a page and the pipeline *)

(** X15. When [getInitialModel] throws. It throws in two cases only: the
    page's model is truthy and not a function, and the error is the one
    that names the route and the declaration; or the model is a function
    and the injector throws while loading it, and the error is the
    injector's. A page whose model is not a function gets the same answer
    from every injector: the injector is asked for a function only. *)
Theorem getInitialModel_throws_iff `{injector : Injector}
    (routeInfo : RouteInfo.t) (page : Page.t) (e : exn) :
  (getInitialModel routeInfo page = Throw e ↔
   (to_boolean (Page.model page) = true
    ∧ isFunction (Page.model page) = false
    ∧ e = Error (to_string (RouteInfo.name routeInfo)
                 +:+ " page invalid model() format: "
                 +:+ to_string (Page.model page)))
   ∨ (isFunction (Page.model page) = true
      ∧ loadModule_fn (Page.model page) VNull
          (mkDeps (RouteInfo.appName routeInfo) (RouteInfo.tokens routeInfo)
                  routeInfo (Page.defaults page) (VObject []))
        = Throw e))
  ∧ (∀ other : Injector,
       isFunction (Page.model page) = false →
       getInitialModel (injector := other) routeInfo page
       = getInitialModel routeInfo page).
Proof.
  unfold getInitialModel, invalid_model. split.
  - destruct (Page.model page) as [| |[]|[|]| |fn]; simpl;
      try destruct (loadModule_fn _ _ _) as [r|e'];
      (split;
       [intros H;
        first [discriminate H
              |injection H as <-;
               first [left; by repeat split|by right]]
       |intros [(H1 & H2 & H3)|(H1 & H2)];
        first [discriminate
              |subst; reflexivity
              |injection H2 as <-; reflexivity]]).
  - intros other Hnot. by destruct (Page.model page) as [| |[]|[|]| |fn].
Qed.

Section Pipeline.

Context {C : Type} `{cache : PageCache C} `{injector : Injector}.


End Pipeline.

(** X16. A request that the pre-processing hook answers. When the page is
    loaded, the model resolved and [serverPreprocessing] returns a truthy
    value, the pipeline resolves with [null] and that is all: the cache
    service is left as it was, not even looked up, and neither [addToModel]
    nor the renderer has a part in the answer. *)
Theorem processWebRequest_preprocessed {C : Type} `{cache : PageCache C}
    `{injector : Injector} `{clientPlugin : ClientPlugin}
    (routeInfo : RouteInfo.t) (callbacks : Callbacks C) (defaultPageCache : C)
    (page : Page.t) (model : value)
    (hook : RouteInfo.t → Page.t → value → value) :
  loadModule ("app/" +:+ RouteInfo.appName routeInfo +:+ "/pages/"
              +:+ to_string (RouteInfo.name routeInfo) +:+ ".page")
  = Return page →
  getInitialModel routeInfo page = Return (Fulfilled model) →
  serverPreprocessing callbacks = Some hook →
  to_boolean (hook routeInfo page model) = true →
  processWebRequest routeInfo callbacks defaultPageCache
  = (Return (Fulfilled None),
     default defaultPageCache (pageCacheService callbacks)).
Proof.
  intros Hpage Hmodel Hhook Hanswered. unfold processWebRequest.
  rewrite Hpage, Hmodel, Hhook. cbn [from_option id].
  by rewrite Hanswered.
Qed.

(** A hook that answers every request itself: the cached page stays where it
    is and is not served. *)
Lemma processWebRequest_preprocessed_witness :
  let cached : gmap string string := {[ Fixture.post_42_key := "<h1>old</h1>" ]} in
  processWebRequest (cache := dict_cache) (injector := Fixture.injector)
    (clientPlugin := Fixture.clientPlugin) (Fixture.post_42 ∅)
    (mkCallbacks (Some (fun _ _ _ => VStr "redirected")) None (Some cached)) ∅
  = (Return (Fulfilled None), cached).
Proof.
  cbv zeta.
  rewrite (processWebRequest_preprocessed (cache := dict_cache)
             (injector := Fixture.injector)
             (clientPlugin := Fixture.clientPlugin) (Fixture.post_42 ∅)
             (mkCallbacks (Some (fun _ _ _ => VStr "redirected")) None
                (Some {[ Fixture.post_42_key := "<h1>old</h1>" ]}))
             ∅ Fixture.post_page Fixture.post_42_model
             (fun _ _ _ => VStr "redirected") eq_refl eq_refl eq_refl eq_refl).
  reflexivity.
Defined.

(** X17. A request that the cache cannot answer. When the page is loaded,
    the model resolved, the hook has not answered, the query's [server] is
    unset or falsy and the cache service holds nothing under the key of the
    request, or the empty string, the pipeline renders the page with the
    model as [addToModel] leaves it, answers with the render and stores it
    under the key, in the cache as the lookup left it. The key is made of
    the URL and of the model as it was before [addToModel]. *)
Theorem processWebRequest_miss_stores {C : Type} `{cache : PageCache C}
    `{injector : Injector} `{clientPlugin : ClientPlugin}
    (routeInfo : RouteInfo.t) (callbacks : Callbacks C) (defaultPageCache : C)
    (page : Page.t) (model : value) :
  loadModule ("app/" +:+ RouteInfo.appName routeInfo +:+ "/pages/"
              +:+ to_string (RouteInfo.name routeInfo) +:+ ".page")
  = Return page →
  getInitialModel routeInfo page = Return (Fulfilled model) →
  to_boolean (default (fun _ _ _ => VBool false) (serverPreprocessing callbacks)
                routeInfo page model) = false →
  to_boolean (prop (RouteInfo.query routeInfo !! "server")) = false →
  let service := default defaultPageCache (pageCacheService callbacks) in
  let cacheKey := RouteInfo.url routeInfo +:+ "||" +:+ JSON_stringify model in
  (cache_get service cacheKey).1 = None
  ∨ (cache_get service cacheKey).1 = Some EmptyString →
  let renderedPage :=
    renderPage routeInfo page
      (default (fun model _ => model) (addToModel callbacks)
         (js_or model (VObject [])) routeInfo) in
  processWebRequest routeInfo callbacks defaultPageCache
  = (Return (Fulfilled (Some renderedPage)),
     cache_set (cache_get service cacheKey).2 cacheKey renderedPage).
Proof.
  intros Hpage Hmodel Hpre Hserver service cacheKey Hmiss renderedPage.
  unfold processWebRequest. rewrite Hpage, Hmodel, Hpre, Hserver.
  fold service cacheKey.
  destruct (cache_get service cacheKey) as [cachedPage service'].
  simpl in Hmiss. by destruct Hmiss as [->| ->].
Qed.

(** The first request for [/posts/42]: the dictionary gets the render. *)
Lemma processWebRequest_miss_stores_witness :
  processWebRequest (cache := dict_cache) (injector := Fixture.injector)
    (clientPlugin := Fixture.clientPlugin) (Fixture.post_42 ∅)
    (mkCallbacks None None None) ∅
  = (Return (Fulfilled (Some "<h1>/posts/42</h1>")),
     {[ Fixture.post_42_key := "<h1>/posts/42</h1>" ]}).
Proof.
  rewrite (processWebRequest_miss_stores (cache := dict_cache)
             (injector := Fixture.injector)
             (clientPlugin := Fixture.clientPlugin) (Fixture.post_42 ∅)
             (mkCallbacks None None None) ∅ Fixture.post_page
             Fixture.post_42_model);
    try (vm_compute; reflexivity).
  left. vm_compute. reflexivity.
Defined.



(** X19. How the pipeline fails before it renders. It throws, before it
    has a promise to return, exactly when the page descriptor cannot be
    loaded or [getInitialModel] throws (as it does for a model that is
    neither missing nor a function), with that error, and the cache
    service is then left as it was. When the promise of the model is
    rejected, the promise that the pipeline returns is rejected with the
    same error: the hook, the cache service and the renderer are not
    reached. *)
Theorem processWebRequest_failures {C : Type} `{cache : PageCache C}
    `{injector : Injector} `{clientPlugin : ClientPlugin}
    (routeInfo : RouteInfo.t) (callbacks : Callbacks C) (defaultPageCache : C)
    (e : exn) :
  let path := "app/" +:+ RouteInfo.appName routeInfo +:+ "/pages/"
              +:+ to_string (RouteInfo.name routeInfo) +:+ ".page" in
  let outcome := processWebRequest routeInfo callbacks defaultPageCache in
  (outcome.1 = Throw e ↔
   loadModule path = Throw e
   ∨ ∃ page, loadModule path = Return page
             ∧ getInitialModel routeInfo page = Throw e)
  ∧ (outcome.1 = Throw e →
     outcome.2 = default defaultPageCache (pageCacheService callbacks))
  ∧ (∀ page,
       loadModule path = Return page →
       getInitialModel routeInfo page = Return (Rejected e) →
       ∀ (cache' : PageCache C) (clientPlugin' : ClientPlugin)
         hook add,
         processWebRequest (cache := cache') (clientPlugin := clientPlugin')
           routeInfo (mkCallbacks hook add (pageCacheService callbacks))
           defaultPageCache
         = (Return (Rejected e),
            default defaultPageCache (pageCacheService callbacks))).
Proof.
  cbv zeta. split; [|split].
  - unfold processWebRequest.
    destruct (loadModule _) as [page|e0] eqn:Hload.
    + destruct (getInitialModel routeInfo page) as [[model|e1]|e1] eqn:Hmodel;
        [destruct (to_boolean _); [|destruct (cache_get _ _) as [cached service'];
          destruct (_ && _)]| |];
        cbn [fst snd]; split; intros;
        repeat match goal with
               | H : _ ∨ _ |- _ => destruct H
               | H : ∃ _, _ |- _ => destruct H as (? & ? & ?)
               end;
        first [ congruence
              | right; exists page; split; [reflexivity|congruence] ].
    + cbn [fst snd]. split; intros;
        repeat match goal with
               | H : _ ∨ _ |- _ => destruct H
               | H : ∃ _, _ |- _ => destruct H as (? & ? & ?)
               end;
        first [ congruence | left; congruence ].
  - unfold processWebRequest.
    destruct (loadModule _) as [page|e0]; [|reflexivity].
    destruct (getInitialModel routeInfo page) as [[model|e1]|e1];
      [|reflexivity|reflexivity].
    destruct (to_boolean _); [discriminate|].
    destruct (cache_get _ _) as [cached service'].
    by destruct (_ && _).
  - intros page Hload Hmodel cache' clientPlugin' hook add.
    unfold processWebRequest. by rewrite Hload, Hmodel.
Qed.
